(** * CDE simulator: the analytics engine of SimulationChart and simulatePrices

    A shallow embedding of the TypeScript sources.

    - A JavaScript [number] is an IEEE 754 binary64 value, so it is
      modelled by Rocq's primitive [float]: [+], [-], [*], [/],
      [Math.sqrt], [Math.abs] and the comparisons are the primitive
      operations (round to nearest even, one NaN), and their properties are
      derived from the bit-level specification [SpecFloat].
    - [Math.pow], [Math.sin] and [Math.random], whose results ECMAScript
      leaves to the implementation, are parameters of the functions that
      call them.
    - Array indices, array lengths and loop counters are natural numbers;
      [JS.of_nat] is the number they denote in arithmetic.  The module
      [NumericSimulator] keeps the duration, the counter and the lag of
      the simulator as numbers.
    - The [useState] cells of the component form a record; the updaters
      and effects are functions on it, and one message of the feed is
      followed up to the quiescent state. *)

From Stdlib Require Import ZArith List Bool Lia.
From Stdlib Require String.
From Stdlib Require Import Floats.
Import ListNotations.

Set Warnings "-inexact-float".

(** ** JavaScript numbers *)

Module JS.

Local Open Scope float_scope.

(** [ToBoolean] on a number: [NaN], [+0] and [-0] are falsy. *)
Definition truthy (x : float) : bool := negb (is_nan x || is_zero x).

(** [a || b] where [a] is [number | null]: [null] is falsy. *)
Definition or_else (a : option float) (b : float) : float :=
  match a with
  | Some x => if truthy x then x else b
  | None => b
  end.

(** [if (a)] on a [number | null]. *)
Definition truthy_opt (a : option float) : bool :=
  match a with
  | Some x => truthy x
  | None => false
  end.

(** [Math.min(a, b)]: NaN when an argument is NaN, and [-0] is smaller
    than [+0]. *)
Definition Math_min (a b : float) : float :=
  if is_nan a || is_nan b then nan
  else if a <? b then a
  else if b <? a then b
  else if get_sign a then a else b.

(** [Math.abs] and [Math.sqrt] are exact IEEE operations. *)
Definition Math_abs (x : float) : float := abs x.
Definition Math_sqrt (x : float) : float := sqrt x.

(** The number that an array length or a loop counter denotes. *)
Definition of_nat (n : nat) : float := of_uint63 (Uint63.of_Z (Z.of_nat n)).

(** [a > b] and [a >= b]. *)
Definition gt (a b : float) : bool := b <? a.
Definition ge (a b : float) : bool := b <=? a.

(** [arr.slice(start, end)] for indices within [0, length]. *)
Definition slice {A} (start stop : nat) (l : list A) : list A :=
  firstn (stop - start) (skipn start l).

(** [arr.slice(-n)]: the last [n] elements (the whole array when it is
    shorter). *)
Definition slice_last {A} (n : nat) (l : list A) : list A :=
  skipn (length l - n) l.

(** [arr[arr.length - 1]], [undefined] on the empty array. *)
Definition last_elem {A} (l : list A) : option A :=
  nth_error l (length l - 1).

(** [a <= b]. *)
Definition le (a b : float) : bool := a <=? b.

(** [Math.max(a, b)]: NaN when an argument is NaN, and [+0] is larger
    than [-0]. *)
Definition Math_max (a b : float) : float :=
  if is_nan a || is_nan b then nan
  else if b <? a then a
  else if a <? b then b
  else if get_sign a then b else a.

(** [Math.min(...xs)] and [Math.max(...xs)]: the arguments are taken from
    left to right, and the result with no argument is [Infinity], resp.
    [-Infinity]. *)
Definition Math_min_all (xs : list float) : float := fold_left Math_min xs infinity.
Definition Math_max_all (xs : list float) : float := fold_left Math_max xs neg_infinity.

End JS.

(** ** Data model *)

Record PricePoint := { t : float; ref : float; oracle : float }.

Record TriggerPoint := { trigger_t : float; value : float }.

Record ThresholdBand := { upper : float; lower : float }.

(** ** CDE engine: [calculateCDE] *)

Module CDE.

Local Open Scope float_scope.

Definition undefined_point : PricePoint := {| t := nan; ref := nan; oracle := nan |}.

(** The area that the loop body adds for the pair [(prev, curr)]. *)
Definition area (prev curr : PricePoint) : float :=
  let timeDiff := t curr - t prev in
  let priceDiff := JS.Math_abs (ref curr - oracle curr) in
  (priceDiff * timeDiff) / 1000.

(** [for (let i = 1; i < prices.length; i++)], with [n] iterations left. *)
Fixpoint cde_loop (prices : list PricePoint) (i n : nat) (totalArea : float) : float :=
  match n with
  | O => totalArea
  | S n' =>
      let prev := nth (i - 1) prices undefined_point in
      let curr := nth i prices undefined_point in
      cde_loop prices (S i) n' (totalArea + area prev curr)
  end.

Definition calculateCDE (prices : list PricePoint) : float :=
  if (length prices <? 2)%nat then 0
  else cde_loop prices 1 (length prices - 1) 0.

(** The sum of the specification, term by term: the [i]-th term and the
    sum over [i = 1 .. n-1] in increasing order of [i], from an empty sum
    of [0]. *)
Definition term (p : list PricePoint) (i : nat) : float :=
  let pi := nth i p undefined_point in
  let pi1 := nth (i - 1) p undefined_point in
  JS.Math_abs (ref pi - oracle pi) * (t pi - t pi1) / 1000.

Definition cde_sum (p : list PricePoint) : float :=
  fold_left (fun acc i => acc + term p i) (seq 1 (length p - 1)) 0.

(** The loop as a traversal of the consecutive pairs. *)
Fixpoint cde_pairs (prev : PricePoint) (rest : list PricePoint) (acc : float) : float :=
  match rest with
  | [] => acc
  | curr :: rest' => cde_pairs curr rest' (acc + area prev curr)
  end.

(** Well-formed input: timestamps that do not decrease. *)
Fixpoint nondecreasing (p : list PricePoint) : bool :=
  match p with
  | prev :: (curr :: _) as rest => (t prev <=? t curr) && nondecreasing rest
  | _ => true
  end.

(** Every elapsed time and every deviation is a finite number. *)
Fixpoint finite_steps (p : list PricePoint) : bool :=
  match p with
  | prev :: (curr :: _) as rest =>
      is_finite (t curr - t prev) && is_finite (ref curr - oracle curr)
      && finite_steps rest
  | _ => true
  end.

End CDE.

(** ** Threshold engine: [getThresholds] and [calculateAdaptiveThresholds] *)

Module Thresholds.

Local Open Scope float_scope.

(** [arr.map((x, index) => f(x, index))], from index [i]. *)
Fixpoint mapi_from {A B} (f : A -> nat -> B) (i : nat) (l : list A) : list B :=
  match l with
  | [] => []
  | x :: l' => f x i :: mapi_from f (S i) l'
  end.

Definition mapi {A B} (f : A -> nat -> B) (l : list A) : list B := mapi_from f 0 l.

(** The static band of the latest point. *)
Definition getThresholds (data : list PricePoint) : ThresholdBand :=
  match JS.last_elem data with
  | None => {| upper := 0; lower := 0 |}
  | Some latest =>
      let currentPrice := oracle latest in
      {| upper := currentPrice * (1 + 0.005); lower := currentPrice * (1 - 0.005) |}
  end.

Section WithPow.

(** [Math.pow]: ECMAScript leaves its accuracy to the implementation, so
    the engine is parameterised by it. *)
Variable Math_pow : float -> float -> float.

Definition recentPrices (prices : list PricePoint) (index : nat) : list float :=
  let lookback := Nat.min 10 index in
  map oracle (JS.slice (index - lookback) (index + 1) prices).

Definition mean (prices : list PricePoint) (index : nat) : float :=
  let recent := recentPrices prices index in
  fold_left (fun a b => a + b) recent 0 / JS.of_nat (length recent).

Definition variance (prices : list PricePoint) (index : nat) : float :=
  let recent := recentPrices prices index in
  let mean := mean prices index in
  fold_left (fun a b => a + Math_pow (b - mean) 2) recent 0 / JS.of_nat (length recent).

Definition stdDev (prices : list PricePoint) (index : nat) : float :=
  JS.Math_sqrt (variance prices index).

Definition volatilityFactor (prices : list PricePoint) (index : nat) : float :=
  JS.Math_min 0.01 (stdDev prices index / mean prices index).

(** The callback of [prices.map]. *)
Definition threshold_at (prices : list PricePoint) (point : PricePoint) (index : nat)
  : ThresholdBand :=
  if (index =? 0)%nat then
    {| upper := oracle point * 1.005; lower := oracle point * 0.995 |}
  else
    let volatilityFactor := volatilityFactor prices index in
    {| upper := oracle point * (1 + volatilityFactor);
       lower := oracle point * (1 - volatilityFactor) |}.

Definition calculateAdaptiveThresholds (prices : list PricePoint) : list ThresholdBand :=
  if (length prices <? 2)%nat then []
  else mapi (threshold_at prices) prices.

End WithPow.

(** The square as the correctly rounded product: the instance of
    [Math.pow(x, 2)] used to run the engine on concrete inputs. *)
Definition pow_square (x y : float) : float := x * x.

End Thresholds.

(** ** The chart component: state, tick ingestion and effects *)

Module Chart.

Local Open Scope float_scope.

Record Params := { staticThreshold : float; cdeThreshold : float; duration : float }.

(** [App.tsx]. *)
Definition default_params : Params :=
  {| staticThreshold := 0.02; cdeThreshold := 500; duration := 300 |}.

(** The [useState] cells that the engine reads and writes. *)
Record State := {
  data : list PricePoint;
  staticPoints : list TriggerPoint;
  chainlinkPrice : option float;
  currentCoinbasePrice : option float;
  cde : float;
  adaptiveThresholds : list ThresholdBand;
  cdeValues : list float;
  adaptiveOraclePrice : option float
}.

Definition initial : State :=
  {| data := []; staticPoints := []; chainlinkPrice := None;
     currentCoinbasePrice := None; cde := 0; adaptiveThresholds := [];
     cdeValues := []; adaptiveOraclePrice := None |}.

(** [setChainlinkPrice(price)] in [fetchChainlinkPrice]. *)
Definition setChainlinkPrice (price : float) (st : State) : State :=
  {| data := data st; staticPoints := staticPoints st; chainlinkPrice := Some price;
     currentCoinbasePrice := currentCoinbasePrice st; cde := cde st;
     adaptiveThresholds := adaptiveThresholds st; cdeValues := cdeValues st;
     adaptiveOraclePrice := adaptiveOraclePrice st |}.

(** The updater passed to the first [setData]: append, then keep the last
    1000 points. *)
Definition appendPoint (point : PricePoint) (prevData : list PricePoint) : list PricePoint :=
  let newData := prevData ++ [point] in
  if (1000 <? length newData)%nat then JS.slice_last 1000 newData else newData.

(** The buffer after the points [points] arrive in this order. *)
Definition appendAll (points : list PricePoint) (buffer : list PricePoint) : list PricePoint :=
  fold_left (fun prevData point => appendPoint point prevData) points buffer.

(** The point built from a tick. *)
Definition tickPoint (chainlinkPrice : option float) (timestamp price : float) : PricePoint :=
  {| t := timestamp; ref := price; oracle := JS.or_else chainlinkPrice price |}.

(** The trigger check on a tick. *)
Definition checkTrigger (staticThreshold : float) (chainlinkPrice : option float)
    (timestamp price : float) (prev : list TriggerPoint) : list TriggerPoint :=
  match chainlinkPrice with
  | Some q =>
      if JS.truthy q then
        let deviation := JS.Math_abs (q - price) / price in
        if JS.gt deviation staticThreshold
        then prev ++ [{| trigger_t := timestamp; value := price |}]
        else prev
      else prev
  | None => prev
  end.

(** A parsed message: [Ticker price] is a payload of type ["ticker"] whose
    [price] field is truthy and parses ([parseFloat]) to [price]; any
    other payload is [Other]. *)
Inductive ParsedData := Ticker (price : float) | Other.

(** [handleWebSocketMessage]; [now] is the value of [Date.now()]. *)
Definition handleWebSocketMessage (params : Params) (message : ParsedData) (now : float)
    (st : State) : State :=
  match message with
  | Other => st
  | Ticker price =>
      let timestamp := now in
      let newData := appendPoint (tickPoint (chainlinkPrice st) timestamp price) (data st) in
      {| data := newData;
         staticPoints :=
           checkTrigger (staticThreshold params) (chainlinkPrice st) timestamp price
             (staticPoints st);
         chainlinkPrice := chainlinkPrice st;
         currentCoinbasePrice := Some price;
         cde := CDE.calculateCDE newData;
         adaptiveThresholds := adaptiveThresholds st;
         cdeValues := cdeValues st;
         adaptiveOraclePrice := adaptiveOraclePrice st |}
  end.

(** The body of the adaptive-oracle effect: [Some v] is
    [setAdaptiveOraclePrice(v)], [None] is a [return] before any call. *)
Definition adaptiveOracleDecision (data : list PricePoint) (chainlinkPrice : option float)
    (adaptiveThresholds : list ThresholdBand) : option float :=
  match JS.last_elem data, chainlinkPrice with
  | Some currentPoint, Some q =>
      if JS.truthy q then
        match JS.last_elem adaptiveThresholds with
        | None => None
        | Some currentThresholds =>
            let deviation := JS.Math_abs (ref currentPoint - q) / q in
            let thresholdDeviation :=
              JS.Math_abs (upper currentThresholds - lower currentThresholds) / (2 * q) in
            if JS.gt deviation thresholdDeviation then Some (ref currentPoint) else Some q
        end
      else None
  | _, _ => None
  end.

Definition publish (decision : option float) (previous : option float) : option float :=
  match decision with
  | Some v => Some v
  | None => previous
  end.

Section WithPow.

Variable Math_pow : float -> float -> float.

(** The effects of one commit.  They read the state of the render they
    belong to, and their updates show in the next one. *)
Definition commitEffects (st : State) : State :=
  {| data := data st; staticPoints := staticPoints st;
     chainlinkPrice := chainlinkPrice st;
     currentCoinbasePrice := currentCoinbasePrice st; cde := cde st;
     adaptiveThresholds := Thresholds.calculateAdaptiveThresholds Math_pow (data st);
     cdeValues :=
       Thresholds.mapi
         (fun _ index =>
            if (index <? 2)%nat then 0
            else CDE.calculateCDE (JS.slice 0 (index + 1) (data st)))
         (data st);
     adaptiveOraclePrice :=
       publish (adaptiveOracleDecision (data st) (chainlinkPrice st) (adaptiveThresholds st))
         (adaptiveOraclePrice st) |}.

(** The new [adaptiveThresholds] array re-runs the adaptive-oracle
    effect in the following commit. *)
Definition rerunOracleEffect (st : State) : State :=
  {| data := data st; staticPoints := staticPoints st;
     chainlinkPrice := chainlinkPrice st;
     currentCoinbasePrice := currentCoinbasePrice st; cde := cde st;
     adaptiveThresholds := adaptiveThresholds st; cdeValues := cdeValues st;
     adaptiveOraclePrice :=
       publish (adaptiveOracleDecision (data st) (chainlinkPrice st) (adaptiveThresholds st))
         (adaptiveOraclePrice st) |}.

Definition settle (st : State) : State := rerunOracleEffect (commitEffects st).

(** One ingested message, up to the quiescent state. *)
Definition tick (params : Params) (message : ParsedData) (now : float) (st : State) : State :=
  settle (handleWebSocketMessage params message now st).

(** What the component reacts to: a message of the feed at time [now], or a
    quote that [fetchChainlinkPrice] stores (which re-runs the
    adaptive-oracle effect). *)
Inductive Event :=
| Message (message : ParsedData) (now : float)
| Quote (price : float).

Definition step (params : Params) (ev : Event) (st : State) : State :=
  match ev with
  | Message message now => tick params message now st
  | Quote price => rerunOracleEffect (setChainlinkPrice price st)
  end.

Definition run (params : Params) (evs : list Event) (st : State) : State :=
  fold_left (fun st ev => step params ev st) evs st.

End WithPow.

(** The points that a sequence of events appends to the buffer, from the
    stored quote [quote]. *)
Fixpoint appendedPoints (evs : list Event) (quote : option float) : list PricePoint :=
  match evs with
  | [] => []
  | Message (Ticker price) now :: evs' =>
      tickPoint quote now price :: appendedPoints evs' quote
  | Message Other _ :: evs' => appendedPoints evs' quote
  | Quote price :: evs' => appendedPoints evs' (Some price)
  end.

End Chart.

(** ** Price path simulator: [simulatePrices] *)

Module Simulator.

Local Open Scope float_scope.

(** The optional [options] argument; a property that is missing is [None].
    [oracleLag] is a number of ticks. *)
Record OptionsArg := {
  arg_basePrice : option float;
  arg_useRandomWalk : option bool;
  arg_volatility : option float;
  arg_oracleLag : option Z;
  arg_oracleNoise : option float;
  arg_drift : option float
}.

(** The destructured options. *)
Record Options := {
  basePrice : float;
  useRandomWalk : bool;
  volatility : float;
  oracleLag : Z;
  oracleNoise : float;
  drift : float
}.

Definition or_default {A} (x : option A) (d : A) : A :=
  match x with
  | Some v => v
  | None => d
  end.

(** [const { basePrice = 100, ... } = options || {}]. *)
Definition destructure (options : option OptionsArg) : Options :=
  match options with
  | Some o =>
      {| basePrice := or_default (arg_basePrice o) 100;
         useRandomWalk := or_default (arg_useRandomWalk o) false;
         volatility := or_default (arg_volatility o) 0.02;
         oracleLag := or_default (arg_oracleLag o) 0%Z;
         oracleNoise := or_default (arg_oracleNoise o) 0.5;
         drift := or_default (arg_drift o) 0 |}
  | None =>
      {| basePrice := 100; useRandomWalk := false; volatility := 0.02;
         oracleLag := 0%Z; oracleNoise := 0.5; drift := 0 |}
  end.

Record LoopState := {
  refPrices : list float;
  prices : list PricePoint;
  lastRef : float;
  draws : nat
}.

Section WithMath.

(** [Math.sin], and the sequence of values that [Math.random()] returns. *)
Variable Math_sin : float -> float.
Variable Math_random : nat -> float.

(** The reference price of iteration [k] and the number of draws so far. *)
Definition nextRef (o : Options) (k : nat) (s : LoopState) : float * nat :=
  let t := JS.of_nat k in
  if useRandomWalk o
  then (lastRef s + (Math_random (draws s) - 0.5) * volatility o * basePrice o,
        S (draws s))
  else (basePrice o + 2 * Math_sin (t / 10) + drift o * t, draws s).

(** The sinusoid with drift, [ref[t] = basePrice + 2*sin(t/10) + drift*t],
    at [t = k]. *)
Definition sinusoid (o : Options) (k : nat) : float :=
  basePrice o + 2 * Math_sin (JS.of_nat k / 10) + drift o * JS.of_nat k.

(** The loop body at [t = k]. *)
Definition body (o : Options) (k : nat) (s : LoopState) : LoopState :=
  let t := JS.of_nat k in
  let '(ref, d) := nextRef o k s in
  let refPrices' := refPrices s ++ [ref] in
  let refIndex := Z.max 0 (Z.of_nat k - oracleLag o) in
  let oracleBase := nth (Z.to_nat refIndex) refPrices' nan in
  let oracle := oracleBase + (Math_random d - 0.5) * oracleNoise o in
  {| refPrices := refPrices';
     prices := prices s ++ [{| t := t; ref := ref; oracle := oracle |}];
     lastRef := ref;
     draws := S d |}.

(** [for (let t = 0; t < duration; t++)], with [n] iterations left. *)
Fixpoint loop (o : Options) (k n : nat) (s : LoopState) : LoopState :=
  match n with
  | O => s
  | S n' => loop o (S k) n' (body o k s)
  end.

(** [duration] is a number of ticks; the counter [t] of the loop is exact
    below [2^53]. *)
Definition simulatePrices (duration : nat) (options : option OptionsArg) : list PricePoint :=
  let o := destructure options in
  prices (loop o 0 duration
            {| refPrices := []; prices := []; lastRef := basePrice o; draws := 0 |}).

End WithMath.

End Simulator.

(** ** Names for what the effects compute and for the feed *)

Module Effects.

Import Chart.
Local Open Scope float_scope.

(** The array that the CDE effect stores in [cdeValues]:
    [data.map((_, index) => index < 2 ? 0 : calculateCDE(data.slice(0, index + 1)))]. *)
Definition cdeSeries (data : list PricePoint) : list float :=
  Thresholds.mapi
    (fun _ index =>
       if (index <? 2)%nat then 0
       else CDE.calculateCDE (JS.slice 0 (index + 1) data))
    data.

(** A ticker message. *)
Definition isTicker (ev : Event) : bool :=
  match ev with
  | Message (Ticker _) _ => true
  | _ => false
  end.

(** The trigger that a ticker message would emit, one per ticker message
    in arrival order. *)
Definition tickerTriggers (evs : list Event) : list TriggerPoint :=
  flat_map
    (fun ev =>
       match ev with
       | Message (Ticker price) now => [{| trigger_t := now; value := price |}]
       | _ => []
       end)
    evs.

(** The test of the trigger check: the quote is usable and
    [Math.abs(chainlinkPrice - price) / price > staticThreshold]. *)
Definition fires (staticThreshold : float) (quote : option float) (price : float) : bool :=
  match quote with
  | Some q => JS.truthy q && JS.gt (JS.Math_abs (q - price) / price) staticThreshold
  | None => false
  end.

(** The outcome of that test for each ticker message, with the quote that
    is stored when the message arrives. *)
Fixpoint firedMask (staticThreshold : float) (evs : list Event) (quote : option float)
  : list bool :=
  match evs with
  | [] => []
  | Message (Ticker price) _ :: evs' =>
      fires staticThreshold quote price :: firedMask staticThreshold evs' quote
  | Message Other _ :: evs' => firedMask staticThreshold evs' quote
  | Quote price :: evs' => firedMask staticThreshold evs' (Some price)
  end.

(** The elements of [l] that [mask] selects, in the order of [l]. *)
Definition selectedBy {A} (mask : list bool) (l : list A) : list A :=
  map snd (filter fst (combine mask l)).

(** A quote that the handler uses: neither 0 nor NaN. *)
Definition usableQuote (ev : Event) : bool :=
  match ev with
  | Quote price => JS.truthy price
  | Message _ _ => false
  end.

(** The derived cells agree with the buffer. *)
Definition inSync (Math_pow : float -> float -> float) (st : State) : Prop :=
  cde st = CDE.calculateCDE (data st) /\
  adaptiveThresholds st = Thresholds.calculateAdaptiveThresholds Math_pow (data st) /\
  cdeValues st = cdeSeries (data st) /\
  currentCoinbasePrice st = option_map ref (JS.last_elem (data st)).

End Effects.

(** ** The simulator loop, iteration by iteration *)

Module SimulatorRun.

Import Simulator.

Section WithMath.

Variable Math_sin : float -> float.
Variable Math_random : nat -> float.
Variable o : Options.

(** The number of [Math.random()] calls of one iteration. *)
Definition perTick : nat := if useRandomWalk o then 2 else 1.

(** The state before iteration [k]. *)
Definition before (k : nat) : LoopState :=
  loop Math_sin Math_random o 0 k
    {| refPrices := []; prices := []; lastRef := basePrice o; draws := 0 |}.

(** What the loop keeps between iterations: before iteration [k] there
    are [k] points with timestamps [0 .. k-1], [refPrices] holds their
    reference prices, [lastRef] is the latest of them, and [Math.random]
    was called [k * perTick] times. *)
Definition inv (k : nat) (s : LoopState) : Prop :=
  length (prices s) = k /\
  map ref (prices s) = refPrices s /\
  map t (prices s) = map JS.of_nat (seq 0 k) /\
  draws s = (k * perTick)%nat /\
  lastRef s = match k with
              | O => basePrice o
              | S j => nth j (refPrices s) nan
              end.

End WithMath.

End SimulatorRun.

(** ** The simulator on numbers: any [duration] and any [oracleLag]

    [Simulator] takes the duration and the lag as tick counts.  Here they
    are numbers, as in the signature of [simulatePrices]: the counter [t]
    of the loop is a number that [t++] increments, the loop runs while
    [t < duration], and [refPrices[refIndex]] is read at a number. *)

Module NumericSimulator.

Local Open Scope float_scope.

Record OptionsArg := {
  arg_basePrice : option float;
  arg_useRandomWalk : option bool;
  arg_volatility : option float;
  arg_oracleLag : option float;
  arg_oracleNoise : option float;
  arg_drift : option float
}.

Record Options := {
  basePrice : float;
  useRandomWalk : bool;
  volatility : float;
  oracleLag : float;
  oracleNoise : float;
  drift : float
}.

(** [const { basePrice = 100, ... } = options || {}]. *)
Definition destructure (options : option OptionsArg) : Options :=
  match options with
  | Some o =>
      {| basePrice := Simulator.or_default (arg_basePrice o) 100;
         useRandomWalk := Simulator.or_default (arg_useRandomWalk o) false;
         volatility := Simulator.or_default (arg_volatility o) 0.02;
         oracleLag := Simulator.or_default (arg_oracleLag o) 0;
         oracleNoise := Simulator.or_default (arg_oracleNoise o) 0.5;
         drift := Simulator.or_default (arg_drift o) 0 |}
  | None =>
      {| basePrice := 100; useRandomWalk := false; volatility := 0.02;
         oracleLag := 0; oracleNoise := 0.5; drift := 0 |}
  end.

Record LoopState := {
  refPrices : list float;
  prices : list PricePoint;
  lastRef : float;
  draws : nat
}.

(** [arr[x]] for a number [x]: the element at index [k] when [x] is the
    integer [k] and [k < arr.length], and [undefined] otherwise (for a
    fraction, a negative number, NaN or an infinity). *)
Definition at_index {A} (arr : list A) (x : float) : option A :=
  match find (fun k => JS.of_nat k =? x) (seq 0 (length arr)) with
  | Some k => nth_error arr k
  | None => None
  end.

Section WithMath.

Variable Math_sin : float -> float.
Variable Math_random : nat -> float.

(** The reference price at the counter [t] and the number of draws so
    far. *)
Definition nextRef (o : Options) (t : float) (s : LoopState) : float * nat :=
  if useRandomWalk o
  then (lastRef s + (Math_random (draws s) - 0.5) * volatility o * basePrice o,
        S (draws s))
  else (basePrice o + 2 * Math_sin (t / 10) + drift o * t, draws s).

(** The loop body at the counter [t]; an [undefined] reference price
    makes the sum NaN. *)
Definition body (o : Options) (t : float) (s : LoopState) : LoopState :=
  let '(ref, d) := nextRef o t s in
  let refPrices' := refPrices s ++ [ref] in
  let refIndex := JS.Math_max 0 (t - oracleLag o) in
  let oracleBase :=
    match at_index refPrices' refIndex with
    | Some price => price
    | None => nan
    end in
  let oracle := oracleBase + (Math_random d - 0.5) * oracleNoise o in
  {| refPrices := refPrices';
     prices := prices s ++ [{| t := t; ref := ref; oracle := oracle |}];
     lastRef := ref;
     draws := S d |}.

(** [for (let t = 0; t < duration; t++)] from the counter [t], with
    [fuel] bounding the number of tests of [t < duration]: [None] when it
    runs out. *)
Fixpoint loop (o : Options) (duration t : float) (fuel : nat) (s : LoopState)
  : option LoopState :=
  match fuel with
  | O => None
  | S fuel' =>
      if t <? duration then loop o duration (t + 1) fuel' (body o t s) else Some s
  end.

Definition start (o : Options) : LoopState :=
  {| refPrices := []; prices := []; lastRef := basePrice o; draws := 0 |}.

Definition simulatePrices (duration : float) (options : option OptionsArg) (fuel : nat)
  : option (list PricePoint) :=
  let o := destructure options in
  option_map prices (loop o duration 0 fuel (start o)).

(** [n] iterations of the body from the counter [t], and the state
    before iteration [k] of a run. *)
Fixpoint steps (o : Options) (t : float) (n : nat) (s : LoopState) : LoopState :=
  match n with
  | O => s
  | S n' => steps o (t + 1) n' (body o t s)
  end.

Definition before (o : Options) (k : nat) : LoopState := steps o 0 k (start o).

End WithMath.

(** The number of [Math.random()] calls of one iteration. *)
Definition perTick (o : Options) : nat := if useRandomWalk o then 2 else 1.

End NumericSimulator.

(** ** The views of the component: domains, zoom and displayed series *)

Module View.

Import Chart.
Import String.
Local Open Scope float_scope.

(** The zoom cells of the first chart; [undefined] is [None]. *)
Record MainChart := {
  refAreaLeft : string;
  refAreaRight : string;
  left : option float;
  right : option float;
  top : option float;
  bottom : option float
}.

(** The zoom cells of the second chart. *)
Record SecondChart := {
  secondChartLeft : option float;
  secondChartRight : option float;
  secondChartTop : option float;
  secondChartBottom : option float
}.

Definition mainChart_initial : MainChart :=
  {| refAreaLeft := EmptyString; refAreaRight := EmptyString;
     left := None; right := None; top := None; bottom := None |}.

Definition secondChart_initial : SecondChart :=
  {| secondChartLeft := None; secondChartRight := None;
     secondChartTop := None; secondChartBottom := None |}.

(** [[leftNum, rightNum] = [rightNum, leftNum]] when [leftNum > rightNum]. *)
Definition ordered (leftNum rightNum : float) : float * float :=
  if JS.gt leftNum rightNum then (rightNum, leftNum) else (leftNum, rightNum).

(** [data.filter((item) => item.t >= leftNum && item.t <= rightNum)]. *)
Definition selectedData (data : list PricePoint) (leftNum rightNum : float)
  : list PricePoint :=
  filter (fun item => JS.ge (t item) leftNum && JS.le (t item) rightNum) data.

(** [Math.min(...selectedData.map((item) => Math.min(item.ref, item.oracle)))]
    and its counterpart. *)
Definition minValue (selected : list PricePoint) : float :=
  JS.Math_min_all (map (fun item => JS.Math_min (ref item) (oracle item)) selected).

Definition maxValue (selected : list PricePoint) : float :=
  JS.Math_max_all (map (fun item => JS.Math_max (ref item) (oracle item)) selected).

(** [data.map((item) => [item.ref, item.oracle]).flat()]. *)
Definition allPrices (data : list PricePoint) : list float :=
  List.concat (map (fun item => [ref item; oracle item]) data).

Section WithParseInt.

(** [parseInt] on the label of the chart. *)
Variable parseInt : string -> float.

(** [zoom], the mouse-up handler of the first chart. *)
Definition zoom (data : list PricePoint) (c : MainChart) : MainChart :=
  if String.eqb (refAreaLeft c) (refAreaRight c) || String.eqb (refAreaRight c) EmptyString
  then
    {| refAreaLeft := EmptyString; refAreaRight := EmptyString;
       left := left c; right := right c; top := top c; bottom := bottom c |}
  else
    let '(leftNum, rightNum) :=
      ordered (parseInt (refAreaLeft c)) (parseInt (refAreaRight c)) in
    let selected := selectedData data leftNum rightNum in
    {| refAreaLeft := EmptyString; refAreaRight := EmptyString;
       left := Some leftNum; right := Some rightNum;
       top := Some (maxValue selected); bottom := Some (minValue selected) |}.

End WithParseInt.

Definition getDomain (c : MainChart) : option (float * float) :=
  match left c, right c with
  | Some l, Some r => Some (l, r)
  | _, _ => None
  end.

(** The Y domain of a chart with zoom cells [bottom] and [top] and padding
    factor [factor] when they are not set. *)
Definition autoDomain (data : list PricePoint) (factor : float) : option (float * float) :=
  let allPrices := allPrices data in
  if (List.length allPrices =? 0)%nat then None
  else
    let min := JS.Math_min_all allPrices in
    let max := JS.Math_max_all allPrices in
    let padding := (max - min) * factor in
    Some (min - padding, max + padding).

Definition getYDomain (data : list PricePoint) (c : MainChart) : option (float * float) :=
  match bottom c, top c with
  | Some b, Some t => Some (b, t)
  | _, _ => autoDomain data 0.02
  end.

(** [zoomSecondChart], the mouse-up handler of the second chart. *)
Definition zoomSecondChart (data : list PricePoint) (c : SecondChart) : SecondChart :=
  match secondChartLeft c, secondChartRight c with
  | Some l, Some r =>
      let '(leftNum, rightNum) := ordered l r in
      let selected := selectedData data leftNum rightNum in
      {| secondChartLeft := Some leftNum; secondChartRight := Some rightNum;
         secondChartTop := Some (maxValue selected);
         secondChartBottom := Some (minValue selected) |}
  | _, _ => c
  end.

Definition getSecondChartDomain (c : SecondChart) : option (float * float) :=
  match secondChartLeft c, secondChartRight c with
  | Some l, Some r => Some (l, r)
  | _, _ => None
  end.

Definition getSecondChartYDomain (data : list PricePoint) (c : SecondChart)
  : option (float * float) :=
  match secondChartBottom c, secondChartTop c with
  | Some b, Some t => Some (b, t)
  | _, _ => autoDomain data 0.02
  end.

(** The window of height [range * scale] around the middle of [min] and
    [max], written to the Y cells of the second chart. *)
Definition rescale (min max range scale : float) (c : SecondChart) : SecondChart :=
  let newRange := range * scale in
  let center := (max + min) / 2 in
  {| secondChartLeft := secondChartLeft c; secondChartRight := secondChartRight c;
     secondChartTop := Some (center + newRange / 2);
     secondChartBottom := Some (center - newRange / 2) |}.

(** The two buttons of the CDE controls. *)
Definition cdeZoom (scale : float) (cdeValues : list float) (c : SecondChart) : SecondChart :=
  if (List.length cdeValues =? 0)%nat then c
  else
    let min := JS.Math_min_all cdeValues in
    let max := JS.Math_max_all cdeValues in
    rescale min max (max - min) scale c.

Definition cdeZoomIn := cdeZoom 0.8.
Definition cdeZoomOut := cdeZoom 1.2.

(** The zoom-in button of the second chart. *)
Definition secondChartZoomIn (c : SecondChart) : SecondChart :=
  match secondChartBottom c, secondChartTop c with
  | Some secondChartBottom, Some secondChartTop =>
      rescale secondChartBottom secondChartTop (secondChartTop - secondChartBottom) 0.8 c
  | _, _ => c
  end.

(** The zoom-out button of the second chart. *)
Definition secondChartZoomOut (data : list PricePoint) (c : SecondChart) : SecondChart :=
  match secondChartBottom c, secondChartTop c with
  | Some secondChartBottom, Some secondChartTop =>
      rescale secondChartBottom secondChartTop (secondChartTop - secondChartBottom) 1.2 c
  | _, _ =>
      match autoDomain data 0.1 with
      | None => c
      | Some (b, t) =>
          {| secondChartLeft := secondChartLeft c; secondChartRight := secondChartRight c;
             secondChartTop := Some t; secondChartBottom := Some b |}
      end
  end.

(** The two deviation read-outs. *)
Definition getDeviationPercentage (st : State) : float :=
  if negb (JS.truthy_opt (currentCoinbasePrice st)) || negb (JS.truthy_opt (chainlinkPrice st))
  then 0
  else
    match currentCoinbasePrice st, chainlinkPrice st with
    | Some currentCoinbasePrice, Some chainlinkPrice =>
        ((chainlinkPrice - currentCoinbasePrice) / currentCoinbasePrice) * 100
    | _, _ => 0
    end.

Definition getDeviationValue (st : State) : float :=
  if negb (JS.truthy_opt (currentCoinbasePrice st)) || negb (JS.truthy_opt (chainlinkPrice st))
  then 0
  else
    match currentCoinbasePrice st, chainlinkPrice st with
    | Some currentCoinbasePrice, Some chainlinkPrice => chainlinkPrice - currentCoinbasePrice
    | _, _ => 0
    end.

(** [getDeviationValue() > 0 ? "+" : ""]. *)
Definition deviationSign (st : State) : string :=
  if JS.gt (getDeviationValue st) 0 then "+"%string else EmptyString.

(** The series of the second chart:
    [data.map((point) => ({...point, oracle: adaptiveOraclePrice || point.oracle}))]. *)
Definition secondChartData (st : State) : list PricePoint :=
  map (fun point =>
         {| t := t point; ref := ref point;
            oracle := JS.or_else (adaptiveOraclePrice st) (oracle point) |})
      (data st).

(** [e?.activeLabel] as a condition: [None] when there is no event or no
    label, and the empty label is falsy. *)
Definition activeLabel (label : option string) : option string :=
  match label with
  | Some s => if String.eqb s EmptyString then None else Some s
  | None => None
  end.

(** The mouse-down and mouse-move handlers of the first chart. *)
Definition onMouseDown (label : option string) (c : MainChart) : MainChart :=
  match activeLabel label with
  | Some s =>
      {| refAreaLeft := s; refAreaRight := refAreaRight c;
         left := left c; right := right c; top := top c; bottom := bottom c |}
  | None => c
  end.

Definition onMouseMove (label : option string) (c : MainChart) : MainChart :=
  if String.eqb (refAreaLeft c) EmptyString then c
  else
    match activeLabel label with
    | Some s =>
        {| refAreaLeft := refAreaLeft c; refAreaRight := s;
           left := left c; right := right c; top := top c; bottom := bottom c |}
    | None => c
    end.

Section WithNumber.

(** [Number] on the label of the chart. *)
Variable Number : string -> float.

(** The mouse-down and mouse-move handlers of the second chart. *)
Definition onSecondChartMouseDown (label : option string) (c : SecondChart) : SecondChart :=
  match activeLabel label with
  | Some s =>
      {| secondChartLeft := Some (Number s); secondChartRight := secondChartRight c;
         secondChartTop := secondChartTop c; secondChartBottom := secondChartBottom c |}
  | None => c
  end.

Definition onSecondChartMouseMove (label : option string) (c : SecondChart) : SecondChart :=
  if JS.truthy_opt (secondChartLeft c) then
    match activeLabel label with
    | Some s =>
        {| secondChartLeft := secondChartLeft c; secondChartRight := Some (Number s);
           secondChartTop := secondChartTop c; secondChartBottom := secondChartBottom c |}
    | None => c
    end
  else c.

End WithNumber.

(** The series of the CDE chart:
    [data.map((point, index) => ({t: point.t, cde: cdeValues[index]}))];
    [None] is [undefined]. *)
Definition cdeChartData (st : State) : list (float * option float) :=
  Thresholds.mapi (fun point index => (t point, nth_error (cdeValues st) index)) (data st).

End View.

(** ** The binary64 format: values and rounding

    The notions used to reason about the primitive operations: the value
    of a float as an integer and what it means for an operation to round
    an exact value. *)

Module FloatSpec.

Local Open Scope Z_scope.

(** A shift record that has lost a non-zero bit. *)
Definition inexact (mrs : shr_record) : bool := shr_r mrs || shr_s mrs.

(** The exponent function of binary64. *)
Abbreviation fexp64 := (fexp prec emax).

(** The number of bits that rounding [m * 2^e] drops. *)
Definition rnd_shift (m e : Z) : Z := Z.max 0 (fexp64 (Zdigits2 m + e) - e).

(** The result of rounding, from its last mantissa and exponent. *)
Definition sf_of (s : bool) (m e : Z) : spec_float :=
  match m with
  | Z0 => S754_zero s
  | Zpos q => if e <=? 971 then S754_finite s q e else S754_infinity s
  | Zneg _ => S754_nan
  end.

(** A number (not NaN) whose sign bit is [s]. *)
Definition sign_of (s : bool) (x : spec_float) : Prop :=
  match x with
  | S754_zero s' | S754_infinity s' | S754_finite s' _ _ => s' = s
  | S754_nan => False
  end.

(** Values of finite floats as integers: [m * 2^e] scaled by [2^B]. *)
Definition B : Z := 2200.
Definition val (m e : Z) : Z := m * 2 ^ (e + B).
Definition canonical (m : positive) (e : Z) : Prop := fexp64 (Zpos (digits2_pos m) + e) = e.

(** What a rounded result is, against a bound [v] on the value. *)
Definition ge_val (s : bool) (v : Z) (x : spec_float) : Prop :=
  match x with
  | S754_infinity s' => s' = s
  | S754_finite s' q e => s' = s /\ - B <= e /\ v <= val (Zpos q) e
  | _ => False
  end.

Definition le_val (s : bool) (v : Z) (x : spec_float) : Prop :=
  match x with
  | S754_zero s' => s' = s
  | S754_finite s' q e => s' = s /\ - B <= e /\ val (Zpos q) e <= v
  | _ => False
  end.

(** The value of a float that is not NaN; the infinities sit beyond every
    finite value. *)
Definition INF : Z := 2 ^ (1024 + B).

Definition sgn (s : bool) (v : Z) : Z := if s then - v else v.

Definition xv (x : spec_float) : Z :=
  match x with
  | S754_zero _ => 0
  | S754_nan => 0
  | S754_infinity s => sgn s INF
  | S754_finite s m e => sgn s (val (Zpos m) e)
  end.

Definition sf_notnan (x : spec_float) : Prop :=
  match x with S754_nan => False | _ => True end.

Definition sf_finite (x : spec_float) : Prop :=
  match x with S754_zero _ | S754_finite _ _ _ => True | _ => False end.

(** Rounding is monotone against every finite float [r]. *)
Definition rounds_to (v : Z) (out : spec_float) : Prop :=
  sf_notnan out /\
  forall r, valid_binary r = true -> sf_finite r ->
    (xv r <= v -> xv r <= xv out) /\ (v <= xv r -> xv out <= xv r).

Definition FV (x : float) : Z := xv (Prim2SF x).

(** Zero or above: [0 <= x] holds. *)
Definition sf_nonneg (x : spec_float) : Prop :=
  match x with
  | S754_zero _ | S754_finite false _ _ | S754_infinity false => True
  | _ => False
  end.

End FloatSpec.

(** * Properties of binary64 arithmetic *)

Module FloatTheory.

Import FloatSpec.
Local Open Scope Z_scope.

(** ** Digits and shifts

    The number of binary digits of a mantissa, and what the right shifts
    of the rounding procedure compute. *)

Lemma digits2_pos_size p : digits2_pos p = Pos.size p.
Proof. induction p; simpl; congruence. Qed.

Lemma digits2_bounds p :
  2 ^ (Zpos (digits2_pos p) - 1) <= Zpos p < 2 ^ Zpos (digits2_pos p).
Proof.
  rewrite digits2_pos_size. split.
  - pose proof (Pos.size_le p) as H.
    assert (Hz : 2 ^ Zpos (Pos.size p) <= 2 * Zpos p).
    { change 2 with (Zpos 2) at 1. rewrite <- Pos2Z.inj_pow. 
      change (2 * Zpos p) with (Zpos (p~0)). apply Pos2Z.pos_le_pos. exact H. }
    replace (Zpos (Pos.size p)) with (Z.succ (Zpos (Pos.size p) - 1)) in Hz by lia.
    rewrite Z.pow_succ_r in Hz by lia. lia.
  - pose proof (Pos.size_gt p) as H.
    change 2 with (Zpos 2). rewrite <- Pos2Z.inj_pow. apply Pos2Z.pos_lt_pos. exact H.
Qed.

Lemma iter_pos_nat {A} (f : A -> A) p : forall x, iter_pos f p x = Nat.iter (Pos.to_nat p) f x.
Proof.
  induction p; intros x; cbn [iter_pos].
  - rewrite !IHp. rewrite Pos2Nat.inj_xI. rewrite <- Nat.iter_add.
    replace (S (2 * Pos.to_nat p))%nat with (S (Pos.to_nat p + Pos.to_nat p))%nat by lia.
    rewrite Nat.iter_succ_r. reflexivity.
  - rewrite !IHp. rewrite Pos2Nat.inj_xO. rewrite <- Nat.iter_add.
    f_equal. lia.
  - reflexivity.
Qed.

Lemma shr_1_m mrs : 0 <= shr_m mrs -> shr_m (shr_1 mrs) = shr_m mrs / 2.
Proof.
  destruct mrs as [m r s]; simpl. intros Hm.
  destruct m as [|p|p]; try lia; simpl.
  - reflexivity.
  - destruct p; simpl.
    + change (Zpos p~1) with (1 + 2 * Zpos p). rewrite Z.add_comm, Z.mul_comm, Z.div_add_l by lia.
      change (1 / 2) with 0. lia.
    + change (Zpos p~0) with (2 * Zpos p). rewrite Z.mul_comm, Z.div_mul by lia. reflexivity.
    + reflexivity.
Qed.

Lemma shr_1_inexact mrs : 0 <= shr_m mrs ->
  inexact (shr_1 mrs) = Z.odd (shr_m mrs) || inexact mrs.
Proof.
  destruct mrs as [m r s]; unfold inexact; simpl. intros Hm.
  destruct m as [|p|p]; try lia; simpl.
  - reflexivity.
  - destruct p; simpl; reflexivity.
Qed.

Lemma shr_iter_spec k : forall mrs, 0 <= shr_m mrs ->
  shr_m (Nat.iter k shr_1 mrs) = shr_m mrs / 2 ^ Z.of_nat k /\
  (inexact (Nat.iter k shr_1 mrs) = false <->
     (inexact mrs = false /\ shr_m mrs mod 2 ^ Z.of_nat k = 0)).
Proof.
  induction k; intros mrs Hm.
  - simpl. rewrite Z.div_1_r, Z.mod_1_r. tauto.
  - rewrite Nat2Z.inj_succ, Z.pow_succ_r by lia.
    rewrite Nat.iter_succ. destruct (IHk mrs Hm) as [IHm IHi].
    assert (Hp : 0 < 2 ^ Z.of_nat k) by (apply Z.pow_pos_nonneg; lia).
    assert (Hk : 0 <= shr_m (Nat.iter k shr_1 mrs)).
    { rewrite IHm. apply Z.div_pos; lia. }
    split.
    + rewrite shr_1_m by exact Hk. rewrite IHm, Z.div_div by lia.
      f_equal. lia.
    + rewrite shr_1_inexact by exact Hk. rewrite orb_false_iff, IHi, IHm.
      rewrite (Z.mul_comm 2), Z.rem_mul_r by lia.
      rewrite <- Z.negb_even, negb_false_iff.
      rewrite Z.even_spec. 
      pose proof (Z.mod_pos_bound (shr_m mrs) (2 ^ Z.of_nat k) Hp).
      pose proof (Z.mod_pos_bound (shr_m mrs / 2 ^ Z.of_nat k) 2 ltac:(lia)).
      split.
      * intros (He & Hi & Hmod). split; [exact Hi|]. rewrite Hmod.
        destruct He as [q Hq]. rewrite Hq. rewrite (Z.mul_comm 2 q), Z.mod_mul by lia. lia.
      * intros (Hi & Hmod). 
        assert (shr_m mrs mod 2 ^ Z.of_nat k = 0) by nia.
        assert ((shr_m mrs / 2 ^ Z.of_nat k) mod 2 = 0) by nia.
        repeat split; try assumption.
        exists (shr_m mrs / 2 ^ Z.of_nat k / 2). 
        rewrite (Z.div_mod (shr_m mrs / 2 ^ Z.of_nat k) 2) at 1 by lia. lia.
Qed.

(** ** The rounding procedure

    [binary_round_aux] truncates the mantissa to the exponent of the
    format, rounds to nearest even, and truncates once more when the
    rounding carried into a new digit. *)

Lemma fexp64_eq e : fexp64 e = Z.max (e - 53) (-1074).
Proof. reflexivity. Qed.

Lemma shr_spec mrs e n : 0 <= shr_m mrs ->
  snd (shr mrs e n) = e + Z.max 0 n /\
  shr_m (fst (shr mrs e n)) = shr_m mrs / 2 ^ Z.max 0 n /\
  (inexact (fst (shr mrs e n)) = false <->
     (inexact mrs = false /\ shr_m mrs mod 2 ^ Z.max 0 n = 0)).
Proof.
  intros Hm. destruct n as [|p|p]; cbn [shr fst snd].
  - change (Z.max 0 0) with 0. rewrite Z.add_0_r, Z.pow_0_r, Z.div_1_r, Z.mod_1_r. tauto.
  - rewrite Z.max_r by lia. rewrite iter_pos_nat.
    destruct (shr_iter_spec (Pos.to_nat p) mrs Hm) as [H1 H2].
    rewrite positive_nat_Z in H1, H2. tauto.
  - rewrite Z.max_l by lia. rewrite Z.add_0_r, Z.pow_0_r, Z.div_1_r, Z.mod_1_r. tauto.
Qed.

Lemma shr_record_of_loc_m m l : shr_m (shr_record_of_loc m l) = m.
Proof. destruct l as [|[]]; reflexivity. Qed.

Lemma shr_fexp_m m e l : 0 <= m ->
  snd (shr_fexp prec emax m e l) = e + rnd_shift m e /\
  shr_m (fst (shr_fexp prec emax m e l)) = m / 2 ^ rnd_shift m e.
Proof.
  intros Hm. unfold shr_fexp, rnd_shift.
  destruct (shr_spec (shr_record_of_loc m l) e (fexp64 (Zdigits2 m + e) - e)) as (H1 & H2 & _).
  { rewrite shr_record_of_loc_m. exact Hm. }
  rewrite shr_record_of_loc_m in H2. split; assumption.
Qed.

Lemma shr_fexp_exact m e : 0 <= m ->
  (inexact (fst (shr_fexp prec emax m e loc_Exact)) = false <-> m mod 2 ^ rnd_shift m e = 0).
Proof.
  intros Hm. unfold shr_fexp, rnd_shift.
  destruct (shr_spec (shr_record_of_loc m loc_Exact) e (fexp64 (Zdigits2 m + e) - e)) as (_ & _ & H3).
  { exact Hm. }
  cbn [shr_record_of_loc] in *. unfold inexact at 2 in H3. cbn [shr_r shr_s shr_m orb] in H3.
  tauto.
Qed.

Lemma round_nearest_even_bounds mrs :
  shr_m mrs <= round_nearest_even (shr_m mrs) (loc_of_shr_record mrs) <= shr_m mrs + 1 /\
  (inexact mrs = false -> round_nearest_even (shr_m mrs) (loc_of_shr_record mrs) = shr_m mrs).
Proof.
  destruct mrs as [m r s]. unfold inexact. cbn [shr_m shr_r shr_s].
  destruct r, s; cbn [loc_of_shr_record round_nearest_even orb];
    try destruct (Z.even m); split; try lia; try discriminate; reflexivity.
Qed.

Lemma bra_general s m e l : 0 <= m ->
  exists m2, m / 2 ^ rnd_shift m e <= m2 <= m / 2 ^ rnd_shift m e + 1 /\
    (l = loc_Exact -> m mod 2 ^ rnd_shift m e = 0 -> m2 = m / 2 ^ rnd_shift m e) /\
    binary_round_aux prec emax s m e l =
      sf_of s (m2 / 2 ^ rnd_shift m2 (e + rnd_shift m e))
              (e + rnd_shift m e + rnd_shift m2 (e + rnd_shift m e)).
Proof.
  intros Hm. unfold binary_round_aux.
  destruct (shr_fexp_m m e l Hm) as [He1 Hm1].
  destruct (shr_fexp prec emax m e l) as [mrs1 e1] eqn:E1. cbn [fst snd] in He1, Hm1.
  destruct (round_nearest_even_bounds mrs1) as [Hb Hx].
  set (m2 := round_nearest_even (shr_m mrs1) (loc_of_shr_record mrs1)) in *.
  assert (Hp : 0 < 2 ^ rnd_shift m e) by (apply Z.pow_pos_nonneg; unfold rnd_shift; lia).
  assert (H1 : 0 <= m / 2 ^ rnd_shift m e) by (apply Z.div_pos; lia).
  assert (Hm2 : 0 <= m2) by lia.
  destruct (shr_fexp_m m2 e1 loc_Exact Hm2) as [He2 Hm3].
  destruct (shr_fexp prec emax m2 e1 loc_Exact) as [mrs2 e2] eqn:E2. cbn [fst snd] in He2, Hm3.
  exists m2. split; [lia|]. split.
  - intros -> Hmod. rewrite <- Hm1. apply Hx.
    pose proof (shr_fexp_exact m e Hm) as Hex. rewrite E1 in Hex. cbn [fst] in Hex.
    apply Hex. exact Hmod.
  - subst e1. rewrite Hm3, He2. unfold sf_of. reflexivity.
Qed.

Lemma sf_of_sign s m e : 0 <= m -> sign_of s (sf_of s m e).
Proof.
  intros Hm. destruct m; cbn; try reflexivity; try lia.
  destruct (e <=? 971); reflexivity.
Qed.

Lemma bra_sign s m e l : 0 <= m -> sign_of s (binary_round_aux prec emax s m e l).
Proof.
  intros Hm. destruct (bra_general s m e l Hm) as (m2 & Hb & _ & ->).
  apply sf_of_sign. apply Z.div_pos.
  - assert (0 <= m / 2 ^ rnd_shift m e) by (apply Z.div_pos; [lia|apply Z.pow_pos_nonneg; unfold rnd_shift; lia]).
    lia.
  - apply Z.pow_pos_nonneg; unfold rnd_shift; lia.
Qed.

(** ** Values

    Powers of two, canonical mantissas and the order of values. *)

Lemma pow2_pos a : 0 <= a -> 0 < 2 ^ a.
Proof. intros. apply Z.pow_pos_nonneg; lia. Qed.

Lemma pow2_add a b : 0 <= a -> 0 <= b -> 2 ^ (a + b) = 2 ^ a * 2 ^ b.
Proof. intros. apply Z.pow_add_r; assumption. Qed.

Lemma pow2_le a b : 0 <= a <= b -> 2 ^ a <= 2 ^ b.
Proof. intros. apply Z.pow_le_mono_r; lia. Qed.

Lemma pow2_lt_inv a b : 0 <= b -> 2 ^ a < 2 ^ b -> a < b.
Proof. intros Hb H. apply (Z.pow_lt_mono_r_iff 2); lia. Qed.

Lemma canonical_ge m e : canonical m e -> -1074 <= e.
Proof. unfold canonical. rewrite fexp64_eq. lia. Qed.

Lemma canonical_digits m e : canonical m e -> Zpos (digits2_pos m) <= 53.
Proof. unfold canonical. rewrite fexp64_eq. lia. Qed.

Lemma canonical_normal m e : canonical m e -> -1074 < e -> Zpos (digits2_pos m) = 53.
Proof. unfold canonical. rewrite fexp64_eq. lia. Qed.

Lemma val_digits_lower p e : - B <= e ->
  2 ^ (Zpos (digits2_pos p) - 1 + e + B) <= val (Zpos p) e.
Proof.
  intros He. unfold val. pose proof (digits2_bounds p) as [Hl _].
  replace (Zpos (digits2_pos p) - 1 + e + B) with ((Zpos (digits2_pos p) - 1) + (e + B)) by lia.
  rewrite (pow2_add (Zpos (digits2_pos p) - 1) (e + B)) by lia. apply Z.mul_le_mono_nonneg_r; [|exact Hl].
  apply Z.lt_le_incl, pow2_pos. lia.
Qed.

Lemma val_digits_upper p e : - B <= e ->
  val (Zpos p) e < 2 ^ (Zpos (digits2_pos p) + e + B).
Proof.
  intros He. unfold val. pose proof (digits2_bounds p) as [_ Hu].
  replace (Zpos (digits2_pos p) + e + B) with (Zpos (digits2_pos p) + (e + B)) by lia.
  rewrite (pow2_add (Zpos (digits2_pos p)) (e + B)) by lia. apply Z.mul_lt_mono_pos_r; [|exact Hu].
  apply pow2_pos. lia.
Qed.

Lemma digits_mono_val p1 e1 p2 e2 : - B <= e1 -> - B <= e2 ->
  val (Zpos p1) e1 <= val (Zpos p2) e2 ->
  Zpos (digits2_pos p1) + e1 <= Zpos (digits2_pos p2) + e2.
Proof.
  intros H1 H2 Hv.
  pose proof (val_digits_lower p1 e1 H1). pose proof (val_digits_upper p2 e2 H2).
  assert (Hlt : 2 ^ (Zpos (digits2_pos p1) - 1 + e1 + B) < 2 ^ (Zpos (digits2_pos p2) + e2 + B)) by lia.
  apply pow2_lt_inv in Hlt; lia.
Qed.

Lemma val_shift m e n : - B <= e -> 0 <= n -> val m (e + n) = m * 2 ^ n * 2 ^ (e + B).
Proof.
  intros He Hn. unfold val. replace (e + n + B) with (n + (e + B)) by lia.
  rewrite pow2_add by lia. ring.
Qed.

Lemma val_pos p e : - B <= e -> 0 < val (Zpos p) e.
Proof. intros. unfold val. apply Z.mul_pos_pos; [lia|apply pow2_pos; lia]. Qed.

Lemma val_le_mono m1 m2 e : - B <= e -> m1 <= m2 -> val m1 e <= val m2 e.
Proof.
  intros He H. unfold val. apply Z.mul_le_mono_nonneg_r; [|exact H].
  apply Z.lt_le_incl, pow2_pos. lia.
Qed.

Lemma rnd_shift_nonneg m e : 0 <= rnd_shift m e.
Proof. unfold rnd_shift. lia. Qed.

(** Truncation to the grid of the format keeps a representable lower bound. *)
Lemma floor_keeps_lower mr er p e : canonical mr er -> - B <= e ->
  val (Zpos mr) er <= val (Zpos p) e ->
  val (Zpos mr) er <= val (Zpos p / 2 ^ rnd_shift (Zpos p) e) (e + rnd_shift (Zpos p) e).
Proof.
  intros Hc He Hv.
  pose proof (canonical_ge _ _ Hc) as Her.
  assert (HB : - B <= er) by (unfold B; lia).
  pose proof (digits_mono_val mr er p e HB He Hv) as Hd.
  unfold rnd_shift. cbn [Zdigits2].
  set (d := Zpos (digits2_pos p)) in *.
  destruct (Z.max_spec 0 (fexp64 (d + e) - e)) as [[Hn ->]|[Hn ->]].
  2:{ rewrite Z.pow_0_r, Z.div_1_r, Z.add_0_r. exact Hv. }
  set (n := fexp64 (d + e) - e) in *.
  assert (Hp : 0 < 2 ^ n) by (apply pow2_pos; lia).
  assert (Her1 : er <= e + n).
  { unfold n in *. unfold canonical in Hc. repeat rewrite fexp64_eq in *. lia. }
  destruct (Z.eq_dec er (e + n)) as [Heq|Hne].
  - rewrite Heq in *. apply val_le_mono; [lia|].
    rewrite val_shift in Hv by lia. unfold val in Hv.
    apply Z.mul_le_mono_pos_r in Hv; [|apply pow2_pos; lia].
    apply Z.div_le_lower_bound; lia.
  - assert (Hn53 : n = d - 53) by (unfold n in *; repeat rewrite fexp64_eq in *; lia).
    pose proof (canonical_digits _ _ Hc) as Hdr.
    pose proof (val_digits_upper mr er HB) as Hu.
    assert (Hq : 2 ^ 52 <= Zpos p / 2 ^ n).
    { apply Z.div_le_lower_bound; [lia|].
      pose proof (digits2_bounds p) as [Hl _]. fold d in Hl.
      replace (d - 1) with (n + 52) in Hl by lia.
      rewrite pow2_add in Hl by lia. lia. }
    apply (val_le_mono _ _ (e + n)) in Hq; [|lia].
    assert (Hle : 2 ^ (Zpos (digits2_pos mr) + er + B) <= val (2 ^ 52) (e + n)).
    { unfold val. rewrite <- pow2_add by lia. apply pow2_le. lia. }
    lia.
Qed.

(** Rounding up from a truncation stays below a representable upper bound. *)
Lemma round_keeps_upper mr er p e m2 : canonical mr er -> - B <= e ->
  val (Zpos p) e <= val (Zpos mr) er ->
  m2 <= Zpos p / 2 ^ rnd_shift (Zpos p) e + 1 ->
  (Zpos p mod 2 ^ rnd_shift (Zpos p) e = 0 -> m2 = Zpos p / 2 ^ rnd_shift (Zpos p) e) ->
  val m2 (e + rnd_shift (Zpos p) e) <= val (Zpos mr) er.
Proof.
  intros Hc He Hv Hm2 Hex.
  pose proof (canonical_ge _ _ Hc) as Her.
  assert (HB : - B <= er) by (unfold B; lia).
  pose proof (digits_mono_val p e mr er He HB Hv) as Hd.
  revert Hm2 Hex. unfold rnd_shift. cbn [Zdigits2].
  set (d := Zpos (digits2_pos p)) in *.
  destruct (Z.max_spec 0 (fexp64 (d + e) - e)) as [[Hn ->]|[Hn ->]].
  2:{ rewrite Z.pow_0_r, Z.div_1_r, Z.mod_1_r, Z.add_0_r. intros _ Hex.
      rewrite Hex by reflexivity. exact Hv. }
  set (n := fexp64 (d + e) - e) in *. intros Hm2 Hex.
  assert (Hp : 0 < 2 ^ n) by (apply pow2_pos; lia).
  assert (Her1 : e + n <= er).
  { unfold n in *. unfold canonical in Hc. repeat rewrite fexp64_eq in *. lia. }
  replace er with ((e + n) + (er - (e + n))) by lia.
  rewrite (val_shift (Zpos mr)) by lia.
  set (R := Zpos mr * 2 ^ (er - (e + n))).
  change (R * 2 ^ (e + n + B)) with (val R (e + n)).
  apply val_le_mono; [lia|].
  assert (HvR : val (Zpos p) e <= val R (e + n)).
  { unfold R, val at 2. rewrite <- (val_shift (Zpos mr)) by lia.
    replace (e + n + (er - (e + n))) with er by lia. exact Hv. }
  rewrite val_shift in HvR by lia. unfold val in HvR.
  apply Z.mul_le_mono_pos_r in HvR; [|apply pow2_pos; lia].
  pose proof (Z.div_mod (Zpos p) (2 ^ n) ltac:(lia)) as Hdm.
  pose proof (Z.mod_pos_bound (Zpos p) (2 ^ n) Hp) as Hmb.
  destruct (Z.eq_dec (Zpos p mod 2 ^ n) 0) as [Hz|Hnz].
  - rewrite (Hex Hz). apply Z.div_le_upper_bound; lia.
  - assert (Zpos p / 2 ^ n < R) by nia. lia.
Qed.

(** ** Rounding against a representable bound *)

Lemma val_floor_le m e n : - B <= e -> 0 <= n -> 0 <= m -> val (m / 2 ^ n) (e + n) <= val m e.
Proof.
  intros He Hn Hm. rewrite val_shift by lia. unfold val.
  apply Z.mul_le_mono_nonneg_r; [apply Z.lt_le_incl, pow2_pos; lia|].
  rewrite Z.mul_comm. apply Z.mul_div_le. apply pow2_pos; lia.
Qed.

Lemma bra_ge s p e mr er : canonical mr er -> - B <= e ->
  val (Zpos mr) er <= val (Zpos p) e ->
  ge_val s (val (Zpos mr) er) (binary_round_aux prec emax s (Zpos p) e loc_Exact).
Proof.
  intros Hc He Hv.
  destruct (bra_general s (Zpos p) e loc_Exact ltac:(lia)) as (m2 & Hb & _ & ->).
  pose proof (floor_keeps_lower mr er p e Hc He Hv) as H1.
  pose proof (rnd_shift_nonneg (Zpos p) e) as Hn.
  set (n := rnd_shift (Zpos p) e) in *.
  assert (HB : - B <= er) by (pose proof (canonical_ge _ _ Hc); unfold B; lia).
  pose proof (val_pos mr er HB) as Hr.
  assert (H2 : val (Zpos mr) er <= val m2 (e + n)).
  { etransitivity; [exact H1|]. apply val_le_mono; lia. }
  assert (Hm2 : 0 < m2).
  { destruct (Z.lt_ge_cases 0 m2) as [|Hneg]; [assumption|].
    assert (val m2 (e + n) <= 0); [|lia].
    unfold val. apply Z.mul_nonpos_nonneg; [lia|]. apply Z.lt_le_incl, pow2_pos. lia. }
  destruct m2 as [|p2|p2]; try lia.
  pose proof (floor_keeps_lower mr er p2 (e + n) Hc ltac:(lia) H2) as H3.
  pose proof (rnd_shift_nonneg (Zpos p2) (e + n)) as Hn2.
  set (n2 := rnd_shift (Zpos p2) (e + n)) in *.
  assert (Hm3 : 0 <= Zpos p2 / 2 ^ n2) by (apply Z.div_pos; [lia|apply pow2_pos; lia]).
  destruct (Zpos p2 / 2 ^ n2) as [|q|q] eqn:Eq; try lia.
  - unfold val in H3. lia.
  - cbn [sf_of]. destruct (e + n + n2 <=? 971); cbn [ge_val]; [|reflexivity].
    repeat split; [lia|exact H3].
Qed.

Lemma bra_le s p e mr er : canonical mr er -> er <= 971 -> - B <= e ->
  e <= fexp64 (Zpos (digits2_pos p) + e) ->
  val (Zpos p) e <= val (Zpos mr) er ->
  le_val s (val (Zpos mr) er) (binary_round_aux prec emax s (Zpos p) e loc_Exact).
Proof.
  intros Hc Hmax He Hpre Hv.
  destruct (bra_general s (Zpos p) e loc_Exact ltac:(lia)) as (m2 & Hb & Hex & ->).
  specialize (Hex eq_refl).
  pose proof (round_keeps_upper mr er p e m2 Hc He Hv ltac:(lia) Hex) as H1.
  pose proof (rnd_shift_nonneg (Zpos p) e) as Hn.
  assert (HB : - B <= er) by (pose proof (canonical_ge _ _ Hc); unfold B; lia).
  assert (Hn1 : e + rnd_shift (Zpos p) e <= er).
  { pose proof (digits_mono_val p e mr er He HB Hv) as Hd.
    unfold rnd_shift. cbn [Zdigits2]. unfold canonical in Hc.
    repeat rewrite fexp64_eq in *. lia. }
  set (n := rnd_shift (Zpos p) e) in *.
  assert (Hq1 : 0 <= Zpos p / 2 ^ n) by (apply Z.div_pos; [lia|apply pow2_pos; lia]).
  assert (Hm2 : 0 <= m2) by lia.
  pose proof (rnd_shift_nonneg m2 (e + n)) as Hn2.
  pose proof (val_floor_le m2 (e + n) (rnd_shift m2 (e + n)) ltac:(lia) Hn2 Hm2) as H2.
  assert (Hm3 : 0 <= m2 / 2 ^ rnd_shift m2 (e + n)) by (apply Z.div_pos; [lia|apply pow2_pos; lia]).
  destruct (m2 / 2 ^ rnd_shift m2 (e + n)) as [|q|q] eqn:Eq; try lia.
  - reflexivity.
  - assert (He3 : e + n + rnd_shift m2 (e + n) <= er).
    { destruct m2 as [|p2|p2]; try lia.
      - rewrite Z.div_0_l in Eq; [discriminate|]. apply Z.pow_nonzero; lia.
      - pose proof (digits_mono_val p2 (e + n) mr er ltac:(lia) HB H1) as Hd.
        unfold rnd_shift. cbn [Zdigits2]. unfold canonical in Hc.
        repeat rewrite fexp64_eq in *. lia. }
    cbn [sf_of]. replace (e + n + rnd_shift m2 (e + n) <=? 971) with true
      by (symmetry; apply Z.leb_le; lia).
    cbn [le_val]. repeat split; [lia|lia].
Qed.

(** ** Comparison

    On valid floats [SFcompare] is the comparison of the values. *)

Lemma compare_val m1 e1 m2 e2 : canonical m1 e1 -> canonical m2 e2 ->
  match e1 ?= e2 with
  | Lt => Lt
  | Gt => Gt
  | Eq => Pos.compare_cont Eq m1 m2
  end = (val (Zpos m1) e1 ?= val (Zpos m2) e2).
Proof.
  intros H1 H2.
  pose proof (canonical_ge _ _ H1) as G1. pose proof (canonical_ge _ _ H2) as G2.
  assert (B1 : - B <= e1) by (unfold B; lia). assert (B2 : - B <= e2) by (unfold B; lia).
  destruct (Z.compare_spec e1 e2) as [->|Hlt|Hgt].
  - unfold val. rewrite <- Zmult_compare_compat_r by (apply Z.lt_gt, pow2_pos; lia). reflexivity.
  - symmetry. apply Z.compare_lt_iff.
    pose proof (val_digits_upper m1 e1 B1). pose proof (val_digits_lower m2 e2 B2).
    pose proof (canonical_digits _ _ H1). pose proof (canonical_normal _ _ H2 ltac:(lia)) as E.
    rewrite E in *.
    assert (2 ^ (Zpos (digits2_pos m1) + e1 + B) <= 2 ^ (53 - 1 + e2 + B)) by (apply pow2_le; lia).
    lia.
  - symmetry. apply Z.compare_gt_iff.
    pose proof (val_digits_upper m2 e2 B2). pose proof (val_digits_lower m1 e1 B1).
    pose proof (canonical_digits _ _ H2). pose proof (canonical_normal _ _ H1 ltac:(lia)) as E.
    rewrite E in *.
    assert (2 ^ (Zpos (digits2_pos m2) + e2 + B) <= 2 ^ (53 - 1 + e1 + B)) by (apply pow2_le; lia).
    lia.
Qed.

Lemma bounded_canonical m e : bounded prec emax m e = true -> canonical m e /\ e <= 971.
Proof.
  unfold bounded, canonical_mantissa, canonical. intros H.
  apply andb_true_iff in H. destruct H as [H1 H2].
  apply Z.eqb_eq in H1. apply Z.leb_le in H2. split; [exact H1|exact H2].
Qed.

Lemma val_lt_INF m e : canonical m e -> e <= 971 -> 0 < val (Zpos m) e < INF.
Proof.
  intros Hc He. pose proof (canonical_ge _ _ Hc). pose proof (canonical_digits _ _ Hc).
  assert (HB : - B <= e) by (unfold B; lia).
  split; [apply val_pos; exact HB|].
  pose proof (val_digits_upper m e HB).
  assert (2 ^ (Zpos (digits2_pos m) + e + B) <= INF) by (unfold INF; apply pow2_le; unfold B; lia).
  lia.
Qed.

Lemma INF_pos : 0 < INF.
Proof. unfold INF. apply pow2_pos. unfold B. lia. Qed.

Ltac solve_cmp :=
  cbn [sgn]; f_equal; symmetry;
  first [ apply Z.compare_eq_iff; lia
        | apply Z.compare_lt_iff; lia
        | apply Z.compare_gt_iff; lia ].

Lemma SFcompare_xv x y : valid_binary x = true -> valid_binary y = true ->
  sf_notnan x -> sf_notnan y -> SFcompare x y = Some (xv x ?= xv y).
Proof.
  intros Vx Vy Nx Ny. pose proof INF_pos as HI.
  destruct x as [sx|sx| |sx mx ex], y as [sy|sy| |sy my ey]; try contradiction;
    cbn [SFcompare xv valid_binary] in *;
    try (apply bounded_canonical in Vx; destruct Vx as [Cx Bx];
         pose proof (val_lt_INF _ _ Cx Bx));
    try (apply bounded_canonical in Vy; destruct Vy as [Cy By];
         pose proof (val_lt_INF _ _ Cy By));
    try (destruct sx); try (destruct sy); try solve_cmp.
  - f_equal. cbn [sgn].
    rewrite Z.compare_opp, (Z.compare_antisym (val (Zpos mx) ex)), <- (compare_val _ _ _ _ Cx Cy).
    destruct (ex ?= ey); reflexivity.
  - f_equal. cbn [sgn]. apply compare_val; assumption.
Qed.

(** ** Alignment and the rounded operations *)

Lemma iter_xO_val m d : Zpos (Pos.iter xO m d) = Zpos m * 2 ^ Zpos d.
Proof.
  induction d using Pos.peano_ind.
  - cbn [Pos.iter]. rewrite Z.pow_1_r. lia.
  - rewrite Pos.iter_succ, Pos2Z.inj_succ, Z.pow_succ_r by lia.
    change (Zpos (Pos.iter xO m d)~0) with (2 * Zpos (Pos.iter xO m d)). rewrite IHd. ring.
Qed.

Lemma iter_xO_digits m d :
  Zpos (digits2_pos (Pos.iter xO m d)) = Zpos (digits2_pos m) + Zpos d.
Proof.
  induction d using Pos.peano_ind.
  - cbn [Pos.iter digits2_pos]. lia.
  - rewrite Pos.iter_succ. cbn [digits2_pos]. rewrite !Pos2Z.inj_succ, IHd. lia.
Qed.

Lemma shl_align_spec m e e' :
  snd (shl_align m e e') = Z.min e e' /\
  Zpos (fst (shl_align m e e')) = Zpos m * 2 ^ (e - Z.min e e') /\
  Zpos (digits2_pos (fst (shl_align m e e'))) = Zpos (digits2_pos m) + (e - Z.min e e').
Proof.
  unfold shl_align. destruct (e' - e) as [|d|d] eqn:Ed; cbn [fst snd].
  - rewrite Z.min_l by lia. rewrite Z.sub_diag, Z.pow_0_r. lia.
  - rewrite Z.min_l by lia. rewrite Z.sub_diag, Z.pow_0_r. lia.
  - rewrite Z.min_r by lia. replace (e - e') with (Zpos d) by lia.
    rewrite iter_xO_val, iter_xO_digits. lia.
Qed.

Lemma val_align m e e' : - B <= e' -> e' <= e -> val (m * 2 ^ (e - e')) e' = val m e.
Proof.
  intros H1 H2. unfold val. replace (e + B) with ((e - e') + (e' + B)) by lia.
  rewrite (pow2_add (e - e') (e' + B)) by lia. ring.
Qed.

Lemma sign_of_xv s x : sign_of s x -> if s then xv x <= 0 else 0 <= xv x.
Proof.
  pose proof INF_pos.
  destruct x as [s'|s'| |s' m e]; cbn [sign_of xv]; try contradiction; intros ->;
    destruct s; cbn [sgn]; try lia.
  all: assert (0 <= val (Zpos m) e) by
    (unfold val; apply Z.mul_nonneg_nonneg; [lia|apply Z.pow_nonneg; lia]); lia.
Qed.

Lemma bra_rounds s p e : - B <= e -> e <= fexp64 (Zpos (digits2_pos p) + e) ->
  rounds_to (sgn s (val (Zpos p) e)) (binary_round_aux prec emax s (Zpos p) e loc_Exact) /\
  sign_of s (binary_round_aux prec emax s (Zpos p) e loc_Exact).
Proof.
  intros He Hpre.
  pose proof (bra_sign s (Zpos p) e loc_Exact ltac:(lia)) as Hs.
  split; [|exact Hs]. split.
  { destruct (binary_round_aux prec emax s (Zpos p) e loc_Exact); cbn in *; tauto. }
  intros r Vr Fr. pose proof (val_pos p e He) as Hv. pose proof INF_pos as HI.
  pose proof (sign_of_xv s _ Hs) as Hx.
  destruct r as [sr|sr| |sr mr er]; try contradiction; cbn [xv valid_binary] in *.
  - destruct s; cbn [sgn] in *; lia.
  - apply bounded_canonical in Vr. destruct Vr as [Cr Br].
    pose proof (val_lt_INF _ _ Cr Br) as Hr.
    destruct s, sr; cbn [sgn] in *; split; intros Hle; try lia.
    + assert (Hle' : val (Zpos p) e <= val (Zpos mr) er) by lia.
      pose proof (bra_le true p e mr er Cr Br He Hpre Hle') as H.
      destruct (binary_round_aux prec emax true (Zpos p) e loc_Exact) as [s'|s'| |s' q e3];
        cbn [le_val xv] in *; try contradiction.
      * lia.
      * destruct H as (-> & _ & H). cbn [sgn]. lia.
    + assert (Hle' : val (Zpos mr) er <= val (Zpos p) e) by lia.
      pose proof (bra_ge true p e mr er Cr He Hle') as H.
      destruct (binary_round_aux prec emax true (Zpos p) e loc_Exact) as [s'|s'| |s' q e3];
        cbn [ge_val xv] in *; try contradiction.
      * subst s'. cbn [sgn]. lia.
      * destruct H as (-> & _ & H). cbn [sgn]. lia.
    + pose proof (bra_ge false p e mr er Cr He Hle) as H.
      destruct (binary_round_aux prec emax false (Zpos p) e loc_Exact) as [s'|s'| |s' q e3];
        cbn [ge_val xv] in *; try contradiction.
      * subst s'. cbn [sgn]. lia.
      * destruct H as (-> & _ & H). cbn [sgn]. lia.
    + pose proof (bra_le false p e mr er Cr Br He Hpre Hle) as H.
      destruct (binary_round_aux prec emax false (Zpos p) e loc_Exact) as [s'|s'| |s' q e3];
        cbn [le_val xv] in *; try contradiction.
      * lia.
      * destruct H as (-> & _ & H). cbn [sgn]. lia.
Qed.

Lemma binary_round_rounds s m e : -1074 <= e ->
  rounds_to (sgn s (val (Zpos m) e)) (binary_round prec emax s m e) /\
  sign_of s (binary_round prec emax s m e).
Proof.
  intros He. unfold binary_round.
  pose proof (shl_align_spec m e (fexp64 (Zpos (digits2_pos m) + e))) as (H1 & H2 & H3).
  destruct (shl_align m e (fexp64 (Zpos (digits2_pos m) + e))) as [mz ez].
  cbn [fst snd] in *.
  assert (Hez : -1074 <= ez) by (rewrite H1, fexp64_eq; lia).
  assert (HB : - B <= ez) by (unfold B; lia).
  assert (Hval : val (Zpos mz) ez = val (Zpos m) e).
  { rewrite H2, H1. apply val_align; [rewrite <- H1; exact HB|lia]. }
  rewrite <- Hval. apply bra_rounds; [exact HB|].
  rewrite H3, H1. repeat rewrite fexp64_eq. lia.
Qed.

Lemma binary_normalize_rounds M e : -1074 <= e ->
  rounds_to (val M e) (binary_normalize prec emax M e false).
Proof.
  intros He. destruct M as [|p|p]; cbn [binary_normalize].
  - unfold val. rewrite Z.mul_0_l. split; [exact I|]. intros r _ _. cbn [xv]. lia.
  - apply (binary_round_rounds false p e He).
  - replace (val (Zneg p) e) with (sgn true (val (Zpos p) e)).
    + apply (binary_round_rounds true p e He).
    + cbn [sgn]. unfold val. rewrite <- Z.mul_opp_l. reflexivity.
Qed.

Lemma rounds_to_exact x : sf_notnan x -> rounds_to (xv x) x.
Proof. intros H. split; [exact H|]. intros r _ _. lia. Qed.

Lemma val_add a b e : val (a + b) e = val a e + val b e.
Proof. unfold val. ring. Qed.

Lemma val_cond_Zopp s a e : val (cond_Zopp s a) e = sgn s (val a e).
Proof. destruct s; cbn [cond_Zopp sgn]; unfold val; ring. Qed.

Lemma val_opp a e : val (- a) e = - val a e.
Proof. unfold val. ring. Qed.

Lemma aligned_val mx ex ez : - B <= ez -> ez <= ex ->
  val (Zpos (fst (shl_align mx ex ez))) ez = val (Zpos mx) ex.
Proof.
  intros H1 H2. destruct (shl_align_spec mx ex ez) as (_ & H & _).
  rewrite H, Z.min_r by lia. apply val_align; assumption.
Qed.

Lemma SFadd_rounds x y : valid_binary x = true -> valid_binary y = true ->
  sf_finite x -> sf_finite y -> rounds_to (xv x + xv y) (SFadd prec emax x y).
Proof.
  intros Vx Vy Fx Fy.
  destruct x as [sx|sx| |sx mx ex], y as [sy|sy| |sy my ey]; try contradiction.
  - cbn [xv]. destruct sx, sy; cbn [SFadd]; split; try exact I; intros r _ _; cbn [xv]; lia.
  - cbn [SFadd xv]. rewrite Z.add_0_l. apply (rounds_to_exact (S754_finite sy my ey)). exact I.
  - cbn [SFadd xv]. rewrite Z.add_0_r. apply (rounds_to_exact (S754_finite sx mx ex)). exact I.
  - cbn [valid_binary] in *. apply bounded_canonical in Vx, Vy.
    destruct Vx as [Cx _], Vy as [Cy _].
    pose proof (canonical_ge _ _ Cx). pose proof (canonical_ge _ _ Cy).
    cbn [SFadd xv].
    assert (HB : - B <= Z.min ex ey) by (unfold B; lia).
    rewrite <- (aligned_val mx ex (Z.min ex ey)) by lia.
    rewrite <- (aligned_val my ey (Z.min ex ey)) by lia.
    rewrite <- !val_cond_Zopp, <- val_add.
    apply binary_normalize_rounds. lia.
Qed.

Lemma SFsub_rounds x y : valid_binary x = true -> valid_binary y = true ->
  sf_finite x -> sf_finite y -> rounds_to (xv x - xv y) (SFsub prec emax x y).
Proof.
  intros Vx Vy Fx Fy.
  destruct x as [sx|sx| |sx mx ex], y as [sy|sy| |sy my ey]; try contradiction.
  - cbn [xv]. destruct sx, sy; cbn [SFsub]; split; try exact I; intros r _ _; cbn [xv]; lia.
  - cbn [SFsub xv]. split; [exact I|]. intros r _ _. cbn [xv].
    destruct sy; cbn [sgn negb]; lia.
  - cbn [SFsub xv]. rewrite Z.sub_0_r. apply (rounds_to_exact (S754_finite sx mx ex)). exact I.
  - cbn [valid_binary] in *. apply bounded_canonical in Vx, Vy.
    destruct Vx as [Cx _], Vy as [Cy _].
    pose proof (canonical_ge _ _ Cx). pose proof (canonical_ge _ _ Cy).
    cbn [SFsub xv].
    assert (HB : - B <= Z.min ex ey) by (unfold B; lia).
    rewrite <- (aligned_val mx ex (Z.min ex ey)) by lia.
    rewrite <- (aligned_val my ey (Z.min ex ey)) by lia.
    rewrite <- !val_cond_Zopp. unfold Z.sub at 1. rewrite <- val_opp, <- val_add.
    apply binary_normalize_rounds. lia.
Qed.

Lemma digits_mul_lower mx my :
  Zpos (digits2_pos mx) + Zpos (digits2_pos my) - 1 <= Zpos (digits2_pos (mx * my)).
Proof.
  pose proof (digits2_bounds mx) as [Hx _]. pose proof (digits2_bounds my) as [Hy _].
  pose proof (digits2_bounds (mx * my)) as [_ Hu].
  rewrite Pos2Z.inj_mul in Hu.
  assert (H : 2 ^ (Zpos (digits2_pos mx) - 1) * 2 ^ (Zpos (digits2_pos my) - 1)
              <= Zpos mx * Zpos my).
  { apply Z.mul_le_mono_nonneg; try assumption; apply Z.pow_nonneg; lia. }
  rewrite <- pow2_add in H by lia.
  assert (Hlt : 2 ^ (Zpos (digits2_pos mx) - 1 + (Zpos (digits2_pos my) - 1))
                < 2 ^ Zpos (digits2_pos (mx * my))) by lia.
  apply pow2_lt_inv in Hlt; lia.
Qed.

Lemma sgn_xorb sx sy a b : sgn (xorb sx sy) (a * b) = sgn sx a * sgn sy b.
Proof. destruct sx, sy; cbn [xorb sgn]; ring. Qed.

Lemma SFmul_rounds x y V : valid_binary x = true -> valid_binary y = true ->
  sf_finite x -> sf_finite y -> V * 2 ^ B = xv x * xv y ->
  rounds_to V (SFmul prec emax x y).
Proof.
  intros Vx Vy Fx Fy HV.
  assert (HB0 : 0 < 2 ^ B) by (apply pow2_pos; unfold B; lia).
  destruct x as [sx|sx| |sx mx ex], y as [sy|sy| |sy my ey]; try contradiction;
    cbn [SFmul xv] in *.
  1-3: assert (V = 0) by nia; subst V; split; [exact I|]; intros r _ _; cbn [xv]; lia.
  cbn [valid_binary] in *. apply bounded_canonical in Vx, Vy.
  destruct Vx as [Cx _], Vy as [Cy _].
  pose proof (canonical_ge _ _ Cx). pose proof (canonical_ge _ _ Cy).
  assert (HV' : V = sgn (xorb sx sy) (val (Zpos (mx * my)) (ex + ey))).
  { apply (Z.mul_cancel_r _ _ (2 ^ B)); [lia|]. rewrite HV.
    rewrite <- sgn_xorb.
    assert (E : val (Zpos (mx * my)) (ex + ey) * 2 ^ B = val (Zpos mx) ex * val (Zpos my) ey).
    { unfold val. rewrite Pos2Z.inj_mul.
      replace (ex + ey + B) with ((ex + B) + ey) by lia.
      transitivity (Zpos mx * Zpos my * (2 ^ (ex + B + ey) * 2 ^ B)); [ring|].
      rewrite <- pow2_add by (unfold B in *; lia).
      replace (ex + B + ey + B) with ((ex + B) + (ey + B)) by lia.
      rewrite pow2_add by (unfold B; lia). ring. }
    destruct (xorb sx sy); cbn [sgn]; rewrite <- E; ring. }
  rewrite HV'. apply bra_rounds.
  - unfold B. lia.
  - pose proof (digits_mul_lower mx my).
    pose proof (canonical_digits _ _ Cx). pose proof (canonical_digits _ _ Cy).
    unfold canonical in *. repeat rewrite fexp64_eq in *. lia.
Qed.

(** ** Primitive floats through their specification *)

Local Open Scope float_scope.

Lemma is_nan_spec x : is_nan x = false <-> sf_notnan (Prim2SF x).
Proof.
  unfold is_nan. rewrite eqb_spec. unfold SFeqb.
  pose proof (Prim2SF_valid x) as V.
  destruct (Prim2SF x) as [s|s| |s m e] eqn:E; cbn [sf_notnan].
  1,2,4: rewrite SFcompare_xv by (try exact V; exact I); rewrite Z.compare_refl; cbn; tauto.
  cbn. split; [discriminate|contradiction].
Qed.

Lemma is_finite_spec x : is_finite x = true <-> sf_finite (Prim2SF x).
Proof.
  unfold is_finite, is_nan, is_infinity. rewrite !eqb_spec, abs_spec.
  change (Prim2SF infinity) with (S754_infinity false).
  pose proof (Prim2SF_valid x) as V. unfold SFeqb.
  destruct (Prim2SF x) as [s|s| |s m e] eqn:E; cbn [sf_finite SFabs].
  - cbn. tauto.
  - destruct s; cbn; (split; [discriminate|contradiction]).
  - cbn. split; [discriminate|contradiction].
  - rewrite (SFcompare_xv (S754_finite s m e) (S754_finite s m e)) by (try exact V; exact I).
    rewrite Z.compare_refl. cbn. tauto.
Qed.

Lemma is_finite_notnan x : is_finite x = true -> is_nan x = false.
Proof.
  rewrite is_finite_spec, is_nan_spec. destruct (Prim2SF x); cbn; tauto.
Qed.

Lemma leb_spec_FV x y : is_nan x = false -> is_nan y = false ->
  (x <=? y) = (FV x <=? FV y)%Z.
Proof.
  rewrite !is_nan_spec. intros Nx Ny. rewrite leb_spec. unfold SFleb, FV.
  rewrite SFcompare_xv by (try apply Prim2SF_valid; assumption).
  unfold Z.leb. destruct (xv (Prim2SF x) ?= xv (Prim2SF y))%Z; reflexivity.
Qed.

Lemma ltb_spec_FV x y : is_nan x = false -> is_nan y = false ->
  (x <? y) = (FV x <? FV y)%Z.
Proof.
  rewrite !is_nan_spec. intros Nx Ny. rewrite ltb_spec. unfold SFltb, FV.
  rewrite SFcompare_xv by (try apply Prim2SF_valid; assumption).
  unfold Z.ltb. destruct (xv (Prim2SF x) ?= xv (Prim2SF y))%Z; reflexivity.
Qed.

Lemma leb_true_inv x y : (x <=? y) = true ->
  is_nan x = false /\ is_nan y = false /\ (FV x <= FV y)%Z.
Proof.
  intros H.
  assert (N : is_nan x = false /\ is_nan y = false).
  { rewrite !is_nan_spec. rewrite leb_spec in H. unfold SFleb in H.
    destruct (Prim2SF x), (Prim2SF y); cbn in *; try discriminate; tauto. }
  destruct N as [Nx Ny]. rewrite (leb_spec_FV x y Nx Ny) in H.
  apply Z.leb_le in H. tauto.
Qed.

Lemma leb_true_intro x y : is_nan x = false -> is_nan y = false ->
  (FV x <= FV y)%Z -> (x <=? y) = true.
Proof. intros Nx Ny H. rewrite (leb_spec_FV x y Nx Ny). apply Z.leb_le. exact H. Qed.

Lemma FV_zero : FV 0 = 0%Z.
Proof. reflexivity. Qed.

(** Rounded operations on finite floats. *)
Lemma add_rounds x y : is_finite x = true -> is_finite y = true ->
  rounds_to (FV x + FV y) (Prim2SF (x + y)).
Proof.
  rewrite !is_finite_spec. intros Fx Fy. rewrite add_spec.
  apply SFadd_rounds; try apply Prim2SF_valid; assumption.
Qed.

Lemma sub_rounds x y : is_finite x = true -> is_finite y = true ->
  rounds_to (FV x - FV y) (Prim2SF (x - y)).
Proof.
  rewrite !is_finite_spec. intros Fx Fy. rewrite sub_spec.
  apply SFsub_rounds; try apply Prim2SF_valid; assumption.
Qed.

Lemma mul_rounds x y V : is_finite x = true -> is_finite y = true ->
  (V * 2 ^ B = FV x * FV y)%Z -> rounds_to V (Prim2SF (x * y)).
Proof.
  rewrite !is_finite_spec. intros Fx Fy HV. rewrite mul_spec.
  apply SFmul_rounds; try apply Prim2SF_valid; assumption.
Qed.

Lemma rounds_notnan v z : rounds_to v (Prim2SF z) -> is_nan z = false.
Proof. intros [H _]. apply is_nan_spec. exact H. Qed.

Lemma rounds_ge v z r : rounds_to v (Prim2SF z) -> is_finite r = true ->
  (FV r <= v)%Z -> (FV r <= FV z)%Z.
Proof.
  intros [_ H] Fr Hle. apply is_finite_spec in Fr.
  apply (H (Prim2SF r) (Prim2SF_valid r) Fr). exact Hle.
Qed.

Lemma rounds_le v z r : rounds_to v (Prim2SF z) -> is_finite r = true ->
  (v <= FV r)%Z -> (FV z <= FV r)%Z.
Proof.
  intros [_ H] Fr Hle. apply is_finite_spec in Fr.
  apply (H (Prim2SF r) (Prim2SF_valid r) Fr). exact Hle.
Qed.

Lemma FV_lt_INF x : is_finite x = true -> (- INF < FV x < INF)%Z.
Proof.
  rewrite is_finite_spec. unfold FV. pose proof (Prim2SF_valid x) as V. pose proof INF_pos.
  destruct (Prim2SF x) as [s|s| |s m e]; cbn [sf_finite xv]; try contradiction; intros _.
  - lia.
  - cbn [valid_binary] in V. apply bounded_canonical in V. destruct V as [C Bd].
    pose proof (val_lt_INF _ _ C Bd). destruct s; cbn [sgn]; lia.
Qed.

Lemma finite_of_bounds z : is_nan z = false -> (- INF < FV z < INF)%Z -> is_finite z = true.
Proof.
  rewrite is_nan_spec, is_finite_spec. unfold FV.
  destruct (Prim2SF z) as [s|s| |s m e]; cbn [sf_notnan sf_finite xv]; try tauto.
  destruct s; cbn [sgn]; lia.
Qed.


End FloatTheory.

(** * Facts about the operations that the engine uses *)

Module FloatFacts.

Import FloatSpec FloatTheory.
Local Open Scope float_scope.

Lemma nonneg_spec x : (0 <=? x) = true <-> sf_nonneg (Prim2SF x).
Proof.
  rewrite leb_spec. change (Prim2SF 0) with (S754_zero false). unfold SFleb.
  destruct (Prim2SF x) as [s|s| |s m e]; cbn; try destruct s; cbn; split;
    try tauto; try discriminate.
Qed.

Lemma nonneg_FV x : (0 <=? x) = true -> is_nan x = false /\ (0 <= FV x)%Z.
Proof. intros H. apply leb_true_inv in H. rewrite FV_zero in H. tauto. Qed.

Lemma nonneg_intro x : is_nan x = false -> (0 <= FV x)%Z -> (0 <=? x) = true.
Proof. intros N H. apply leb_true_intro; [reflexivity|exact N|exact H]. Qed.

Lemma sign_nonneg x : sign_of false x -> sf_nonneg x.
Proof. destruct x as [s|s| |s m e]; cbn; try tauto; intros ->; exact I. Qed.

(** [Math.abs]. *)
Lemma abs_nonneg x : is_nan x = false -> (0 <=? abs x) = true.
Proof.
  rewrite is_nan_spec, nonneg_spec, abs_spec.
  destruct (Prim2SF x); cbn; tauto.
Qed.

Lemma abs_finite x : is_finite x = true -> is_finite (abs x) = true.
Proof.
  rewrite !is_finite_spec, abs_spec. destruct (Prim2SF x); cbn; tauto.
Qed.

(** A finite difference has finite operands. *)
Lemma sub_finite_inv x y : is_finite (x - y) = true ->
  is_finite x = true /\ is_finite y = true.
Proof.
  rewrite !is_finite_spec, sub_spec. unfold SF64sub.
  destruct (Prim2SF x) as [sx|sx| |sx mx ex], (Prim2SF y) as [sy|sy| |sy my ey];
    cbn; try tauto; try (destruct sx, sy; cbn; tauto).
Qed.

Lemma sub_nonneg x y : is_finite x = true -> is_finite y = true ->
  (y <=? x) = true -> (0 <=? x - y) = true.
Proof.
  intros Fx Fy Hle. apply leb_true_inv in Hle. destruct Hle as (_ & _ & Hle).
  pose proof (sub_rounds x y Fx Fy) as R.
  apply nonneg_intro; [exact (rounds_notnan _ _ R)|].
  rewrite <- FV_zero. apply (rounds_ge _ _ 0 R); [reflexivity|]. rewrite FV_zero. lia.
Qed.

Lemma pow2B_pos : (0 < 2 ^ B)%Z.
Proof. apply pow2_pos. unfold B. lia. Qed.

(** The exact product of two finite floats, on the scale of [FV]. *)
Lemma FV_mul_exact x y : is_finite x = true -> is_finite y = true ->
  ((FV x * FV y / 2 ^ B) * 2 ^ B = FV x * FV y)%Z.
Proof.
  intros Fx Fy. pose proof pow2B_pos as HB.
  unfold FV. rewrite !is_finite_spec in *.
  pose proof (Prim2SF_valid x) as Vx. pose proof (Prim2SF_valid y) as Vy.
  destruct (Prim2SF x) as [sx|sx| |sx mx ex], (Prim2SF y) as [sy|sy| |sy my ey];
    try contradiction; cbn [xv]; try (rewrite ?Z.mul_0_l, ?Z.mul_0_r; reflexivity).
  cbn [valid_binary] in *. apply bounded_canonical in Vx, Vy.
  destruct Vx as [Cx _], Vy as [Cy _].
  pose proof (canonical_ge _ _ Cx). pose proof (canonical_ge _ _ Cy).
  rewrite <- sgn_xorb.
  assert (E : (val (Zpos mx) ex * val (Zpos my) ey
               = Zpos mx * Zpos my * 2 ^ (ex + ey + B) * 2 ^ B)%Z).
  { unfold val. replace (ex + ey + B)%Z with ((ex + B) + ey)%Z by lia.
    transitivity (Zpos mx * Zpos my * (2 ^ (ex + B) * 2 ^ (ey + B)))%Z; [ring|].
    rewrite <- pow2_add by (unfold B; lia).
    replace (ex + B + (ey + B))%Z with ((ex + B + ey) + B)%Z by lia.
    rewrite (pow2_add (ex + B + ey) B) by (unfold B in *; lia). ring. }
  rewrite E. destruct (xorb sx sy); cbn [sgn].
  - rewrite <- Z.mul_opp_l, Z.div_mul by lia. reflexivity.
  - rewrite Z.div_mul by lia. reflexivity.
Qed.

Lemma mul_finite_rounds x y : is_finite x = true -> is_finite y = true ->
  rounds_to (FV x * FV y / 2 ^ B) (Prim2SF (x * y)).
Proof. intros Fx Fy. apply mul_rounds; try assumption. apply FV_mul_exact; assumption. Qed.

Lemma mul_nonneg x y : is_finite x = true -> is_finite y = true ->
  (0 <=? x) = true -> (0 <=? y) = true -> (0 <=? x * y) = true.
Proof.
  intros Fx Fy Hx Hy. apply nonneg_FV in Hx, Hy. destruct Hx as [_ Hx], Hy as [_ Hy].
  pose proof (mul_finite_rounds x y Fx Fy) as R.
  apply nonneg_intro; [exact (rounds_notnan _ _ R)|].
  rewrite <- FV_zero. apply (rounds_ge _ _ 0 R); [reflexivity|]. rewrite FV_zero.
  apply Z.div_pos; [|exact pow2B_pos]. apply Z.mul_nonneg_nonneg; assumption.
Qed.

(** Division of a number that is zero or above by a positive finite one. *)
Lemma div_nonneg x y : (0 <=? x) = true -> is_finite y = true -> (0 <? y) = true ->
  (0 <=? x / y) = true.
Proof.
  rewrite !nonneg_spec, is_finite_spec, ltb_spec, div_spec.
  change (Prim2SF 0) with (S754_zero false). unfold SFltb, SF64div.
  destruct (Prim2SF x) as [sx|sx| |sx mx ex], (Prim2SF y) as [sy|sy| |sy my ey];
    cbn [sf_nonneg sf_finite SFcompare SFdiv]; try tauto; try discriminate;
    try (destruct sy; cbn; try discriminate; tauto);
    try (destruct sx, sy; cbn; try discriminate; tauto).
  destruct sx; [tauto|]. destruct sy; [discriminate|]. intros _ _ _.
  destruct (SFdiv_core_binary prec emax (Zpos mx) ex (Zpos my) ey) as [[mz ez] lz] eqn:E.
  apply sign_nonneg. cbn [xorb]. apply bra_sign.
  unfold SFdiv_core_binary in E.
  set (m' := match (ex - ey - _)%Z with Z0 => Zpos mx | Zpos _ => _ | Zneg _ => 0%Z end) in E.
  assert (Hm' : (0 <= m')%Z).
  { unfold m'. destruct (ex - ey - _)%Z; try lia. apply Z.shiftl_nonneg. lia. }
  pose proof (Z.div_pos m' (Zpos my) Hm' ltac:(lia)) as Hq.
  unfold Z.div in Hq. destruct (Z.div_eucl m' (Zpos my)) as [q r].
  inversion E; subst. exact Hq.
Qed.

(** [Math.sqrt] returns NaN or a number that is zero or above. *)
Lemma sqrt_nonneg x : is_nan (sqrt x) = false -> (0 <=? sqrt x) = true.
Proof.
  rewrite is_nan_spec, nonneg_spec, sqrt_spec. unfold SF64sqrt.
  destruct (Prim2SF x) as [s|s| |s m e]; cbn [SFsqrt sf_notnan sf_nonneg]; try tauto;
    destruct s; cbn [sf_notnan sf_nonneg]; try tauto.
  intros _.
  destruct (SFsqrt_core_binary prec emax (Zpos m) e) as [[mz ez] lz] eqn:E.
  apply sign_nonneg, bra_sign.
  unfold SFsqrt_core_binary in E.
  set (m' := match (e - _)%Z with Z0 => Zpos m | Zpos _ => _ | Zneg _ => 0%Z end) in E.
  pose proof (Z.sqrtrem_sqrt m') as Hs. pose proof (Z.sqrt_nonneg m') as Hq.
  destruct (Z.sqrtrem m') as [q r]. cbn [fst] in Hs.
  inversion E; subst. exact Hq.
Qed.

(** Sums of numbers that are zero or above. *)
Lemma add_nonneg x y : (0 <=? x) = true -> (0 <=? y) = true -> (0 <=? x + y) = true.
Proof.
  intros Hx Hy.
  destruct (is_finite x) eqn:Fx; [destruct (is_finite y) eqn:Fy|].
  - apply nonneg_FV in Hx, Hy. destruct Hx as [_ Hx], Hy as [_ Hy].
    pose proof (add_rounds x y Fx Fy) as R.
    apply nonneg_intro; [exact (rounds_notnan _ _ R)|].
    rewrite <- FV_zero. apply (rounds_ge _ _ 0 R); [reflexivity|]. rewrite FV_zero. lia.
  - assert (Fy' : ~ sf_finite (Prim2SF y)) by (rewrite <- is_finite_spec, Fy; discriminate).
    revert Hx Hy Fy'. rewrite !nonneg_spec, add_spec. unfold SF64add.
    destruct (Prim2SF x) as [sx|sx| |sx mx ex], (Prim2SF y) as [sy|sy| |sy my ey];
      cbn [sf_nonneg sf_finite SFadd]; try tauto;
      try (destruct sx, sy; cbn; tauto); try (destruct sy; cbn; tauto).
  - assert (Fx' : ~ sf_finite (Prim2SF x)) by (rewrite <- is_finite_spec, Fx; discriminate).
    revert Hx Hy Fx'. rewrite !nonneg_spec, add_spec. unfold SF64add.
    destruct (Prim2SF x) as [sx|sx| |sx mx ex], (Prim2SF y) as [sy|sy| |sy my ey];
      cbn [sf_nonneg sf_finite SFadd]; try tauto;
      try (destruct sx, sy; cbn; tauto); try (destruct sx; cbn; tauto).
Qed.

(** Exact zeros. *)
Lemma sub_self x : is_finite x = true -> x - x = 0.
Proof.
  rewrite is_finite_spec. intros F. apply Prim2SF_inj. rewrite sub_spec.
  change (Prim2SF 0) with (S754_zero false). unfold SF64sub.
  destruct (Prim2SF x) as [s|s| |s m e]; try contradiction; cbn [SFsub].
  - destruct s; reflexivity.
  - rewrite Z.sub_diag. reflexivity.
Qed.

Lemma abs_mul_zero x : is_finite x = true -> abs x * 0 = 0.
Proof.
  rewrite is_finite_spec. intros F. apply Prim2SF_inj. rewrite mul_spec, abs_spec.
  change (Prim2SF 0) with (S754_zero false). unfold SF64mul.
  destruct (Prim2SF x) as [s|s| |s m e]; try contradiction; reflexivity.
Qed.

(** [Math.min]. *)
Lemma Math_min_notnan a b : is_nan a = false -> is_nan b = false ->
  is_nan (JS.Math_min a b) = false.
Proof.
  intros Na Nb. unfold JS.Math_min. rewrite Na, Nb. cbn [orb].
  destruct (a <? b); [exact Na|]. destruct (b <? a); [exact Nb|].
  destruct (get_sign a); assumption.
Qed.

Lemma Math_min_FV a b : is_nan a = false -> is_nan b = false ->
  FV (JS.Math_min a b) = Z.min (FV a) (FV b).
Proof.
  intros Na Nb. unfold JS.Math_min. rewrite Na, Nb. cbn [orb].
  rewrite (ltb_spec_FV a b Na Nb), (ltb_spec_FV b a Nb Na).
  destruct (Z.ltb_spec (FV a) (FV b)); [lia|].
  destruct (Z.ltb_spec (FV b) (FV a)); [lia|].
  destruct (get_sign a); lia.
Qed.

(** The float 1 on the scale of [FV]. *)
Lemma FV_one : FV 1 = (2 ^ B)%Z.
Proof.
  unfold FV. change (Prim2SF 1) with (S754_finite false 4503599627370496 (-52)).
  cbn [xv sgn]. unfold val. change (Zpos 4503599627370496) with (2 ^ 52)%Z.
  rewrite <- pow2_add by (unfold B; lia). f_equal; lia.
Qed.

Lemma FV_two : FV 2 = (2 * 2 ^ B)%Z.
Proof.
  unfold FV. change (Prim2SF 2) with (S754_finite false 4503599627370496 (-51)).
  cbn [xv sgn]. unfold val. change (Zpos 4503599627370496) with (2 ^ 52)%Z.
  rewrite <- pow2_add by (unfold B; lia).
  replace (52 + (-51 + B))%Z with (Z.succ B) by lia.
  rewrite Z.pow_succ_r by (unfold B; lia). reflexivity.
Qed.

(** Scaling a number that is zero or above by a factor on either side of 1. *)
Lemma mul_ge_self x c : is_finite x = true -> (0 <=? x) = true ->
  is_finite c = true -> (1 <=? c) = true -> (x <=? x * c) = true.
Proof.
  intros Fx Hx Fc Hc. apply nonneg_FV in Hx. destruct Hx as [Nx Hx].
  apply leb_true_inv in Hc. destruct Hc as (_ & _ & Hc). rewrite FV_one in Hc.
  pose proof (mul_finite_rounds x c Fx Fc) as R. pose proof pow2B_pos as HB.
  apply leb_true_intro; [exact Nx|exact (rounds_notnan _ _ R)|].
  apply (rounds_ge _ _ x R Fx). apply Z.div_le_lower_bound; [exact HB|]. nia.
Qed.

Lemma mul_le_self x c : is_finite x = true -> (0 <=? x) = true ->
  is_finite c = true -> (0 <=? c) = true -> (c <=? 1) = true -> (x * c <=? x) = true.
Proof.
  intros Fx Hx Fc Hc0 Hc. apply nonneg_FV in Hx, Hc0.
  destruct Hx as [Nx Hx], Hc0 as [_ Hc0].
  apply leb_true_inv in Hc. destruct Hc as (_ & _ & Hc). rewrite FV_one in Hc.
  pose proof (mul_finite_rounds x c Fx Fc) as R. pose proof pow2B_pos as HB.
  apply leb_true_intro; [exact (rounds_notnan _ _ R)|exact Nx|].
  apply (rounds_le _ _ x R Fx). apply Z.div_le_upper_bound; [exact HB|]. nia.
Qed.

Lemma bounded_finite f lo hi : is_finite lo = true -> is_finite hi = true ->
  (lo <=? f) = true -> (f <=? hi) = true -> is_finite f = true.
Proof.
  intros Flo Fhi H1 H2. apply leb_true_inv in H1, H2.
  destruct H1 as (_ & Nf & H1), H2 as (_ & _ & H2).
  pose proof (FV_lt_INF lo Flo). pose proof (FV_lt_INF hi Fhi).
  apply finite_of_bounds; [exact Nf|lia].
Qed.

Lemma one_plus f : (0 <=? f) = true -> (f <=? 1) = true ->
  is_finite (1 + f) = true /\ (1 <=? 1 + f) = true.
Proof.
  intros H0 H1.
  assert (Ff : is_finite f = true) by (apply (bounded_finite f 0 1); trivial).
  apply nonneg_FV in H0. destruct H0 as [_ H0].
  apply leb_true_inv in H1. destruct H1 as (_ & _ & H1).
  pose proof (add_rounds 1 f eq_refl Ff) as R.
  pose proof (rounds_notnan _ _ R) as N.
  assert (Hge : (FV 1 <= FV (1 + f))%Z) by (apply (rounds_ge _ _ 1 R); [reflexivity|lia]).
  assert (Hle : (FV (1 + f) <= FV 2)%Z).
  { apply (rounds_le _ _ 2 R); [reflexivity|]. rewrite FV_two. rewrite FV_one in *. lia. }
  split.
  - apply (bounded_finite _ 1 2); try reflexivity; apply leb_true_intro; trivial.
  - apply leb_true_intro; trivial.
Qed.

Lemma one_minus f : (0 <=? f) = true -> (f <=? 1) = true ->
  is_finite (1 - f) = true /\ (0 <=? 1 - f) = true /\ (1 - f <=? 1) = true.
Proof.
  intros H0 H1.
  assert (Ff : is_finite f = true) by (apply (bounded_finite f 0 1); trivial).
  apply nonneg_FV in H0. destruct H0 as [_ H0].
  apply leb_true_inv in H1. destruct H1 as (_ & _ & H1).
  pose proof (sub_rounds 1 f eq_refl Ff) as R.
  pose proof (rounds_notnan _ _ R) as N.
  assert (Hge : (FV 0 <= FV (1 - f))%Z) by (apply (rounds_ge _ _ 0 R); [reflexivity|rewrite FV_zero; lia]).
  assert (Hle : (FV (1 - f) <= FV 1)%Z) by (apply (rounds_le _ _ 1 R); [reflexivity|lia]).
  assert (L0 : (0 <=? 1 - f) = true) by (apply leb_true_intro; trivial).
  assert (L1 : (1 - f <=? 1) = true) by (apply leb_true_intro; trivial).
  split; [|split]; trivial.
  apply (bounded_finite _ 0 1); trivial.
Qed.

Lemma leb_trans x y z : (x <=? y) = true -> (y <=? z) = true -> (x <=? z) = true.
Proof.
  intros H1 H2. apply leb_true_inv in H1, H2.
  destruct H1 as (Nx & _ & H1), H2 as (_ & Nz & H2).
  apply leb_true_intro; trivial. lia.
Qed.

(** The band [x * (1 - f)], [x * (1 + f)] around a number that is zero or
    above, for a factor between 0 and 1. *)
Lemma band_ordered x f : is_finite x = true -> (0 <=? x) = true ->
  (0 <=? f) = true -> (f <=? 1) = true -> (x * (1 - f) <=? x * (1 + f)) = true.
Proof.
  intros Fx Hx H0 H1.
  destruct (one_plus f H0 H1) as [Fp Hp].
  destruct (one_minus f H0 H1) as (Fm & Hm0 & Hm1).
  apply (leb_trans _ x).
  - apply mul_le_self; assumption.
  - apply mul_ge_self; assumption.
Qed.

Lemma Math_min_le_left a b : is_nan (JS.Math_min a b) = false ->
  (JS.Math_min a b <=? a) = true.
Proof.
  intros N.
  destruct (is_nan a) eqn:Na; [unfold JS.Math_min in N; rewrite Na in N; discriminate|].
  destruct (is_nan b) eqn:Nb;
    [unfold JS.Math_min in N; rewrite Na, Nb in N; discriminate|].
  apply leb_true_intro; [exact N|exact Na|]. rewrite Math_min_FV by assumption. lia.
Qed.

(** Loop counters and array lengths as numbers. *)
Lemma of_nat_spec k :
  sf_finite (Prim2SF (JS.of_nat k)) /\ sign_of false (Prim2SF (JS.of_nat k)).
Proof.
  unfold JS.of_nat. rewrite of_uint63_spec.
  set (M := Uint63.to_Z (Uint63.of_Z (Z.of_nat k))).
  assert (HM : (0 <= M < 2 ^ 63)%Z) by (apply Uint63.to_Z_bounded).
  assert (Hs : sign_of false (binary_normalize prec emax M 0 false)).
  { destruct M as [|p|p]; cbn [binary_normalize]; try lia; [reflexivity|].
    apply (binary_round_rounds false p 0). lia. }
  split; [|exact Hs].
  pose proof (binary_normalize_rounds M 0 ltac:(lia)) as [Hn Hr].
  specialize (Hr (S754_finite false 4503599627370496 11) eq_refl I).
  destruct Hr as [_ Hle].
  assert (Hv : (val M 0 <= xv (S754_finite false 4503599627370496 11))%Z).
  { cbn [xv sgn]. unfold val. change (Zpos 4503599627370496) with (2 ^ 52)%Z.
    rewrite <- pow2_add by (unfold B; lia).
    replace (52 + (11 + B))%Z with (63 + (0 + B))%Z by lia.
    rewrite (pow2_add 63 (0 + B)) by (unfold B; lia).
    apply Z.mul_le_mono_nonneg_r; [apply Z.pow_nonneg|]; lia. }
  specialize (Hle Hv).
  pose proof (val_lt_INF 4503599627370496 11 eq_refl ltac:(lia)) as HI.
  cbn [xv sgn] in Hle.
  destruct (binary_normalize prec emax M 0 false) as [s|s| |s m e]; cbn in *; try tauto.
  subst s. cbn [sgn] in Hle. lia.
Qed.

Lemma zero_mul_of_nat k : 0 * JS.of_nat k = 0.
Proof.
  apply Prim2SF_inj. rewrite mul_spec. change (Prim2SF 0) with (S754_zero false).
  destruct (of_nat_spec k) as [Hf Hs]. unfold SF64mul.
  destruct (Prim2SF (JS.of_nat k)) as [s|s| |s m e]; cbn in *; try contradiction;
    subst s; reflexivity.
Qed.

(** Exact sums do not underflow: a rounded non-zero integer is not zero. *)
Lemma binary_round_nonzero s p e : (-1074 <= e)%Z ->
  forall s', binary_round prec emax s p e <> S754_zero s'.
Proof.
  intros He s' E.
  destruct (binary_round_rounds s p e He) as [[_ Hr] _]. rewrite E in Hr. cbn [xv] in Hr.
  assert (HB : (- B <= e)%Z) by (unfold B; lia).
  assert (Hv : (val 1 (-1074) <= val (Zpos p) e)%Z).
  { unfold val.
    apply Z.mul_le_mono_nonneg;
      [lia|lia|apply Z.pow_nonneg; lia|apply pow2_le; unfold B; lia]. }
  assert (Hp : (0 < val 1 (-1074))%Z) by (apply (val_pos 1); unfold B; lia).
  specialize (Hr (S754_finite s 1 (-1074)) eq_refl I). cbn [xv] in Hr.
  destruct s; cbn [sgn] in Hr; lia.
Qed.

Lemma add_neg_zero_inv x y :
  Prim2SF (x + y) = S754_zero true -> Prim2SF x = S754_zero true.
Proof.
  rewrite add_spec. unfold SF64add.
  pose proof (Prim2SF_valid x) as Vx. pose proof (Prim2SF_valid y) as Vy.
  destruct (Prim2SF x) as [sx|sx| |sx mx ex], (Prim2SF y) as [sy|sy| |sy my ey];
    cbn [SFadd]; try discriminate; try (destruct sx, sy; discriminate || tauto).
  cbn [valid_binary] in *. apply bounded_canonical in Vx, Vy.
  destruct Vx as [Cx _], Vy as [Cy _].
  pose proof (canonical_ge _ _ Cx). pose proof (canonical_ge _ _ Cy).
  intros E. exfalso. revert E.
  destruct (cond_Zopp sx _ + cond_Zopp sy _)%Z; cbn [binary_normalize];
    [discriminate| |]; apply binary_round_nonzero; lia.
Qed.

Lemma add_zero_r x : Prim2SF x <> S754_zero true -> x + 0 = x.
Proof.
  intros H. apply Prim2SF_inj. rewrite add_spec. change (Prim2SF 0) with (S754_zero false).
  unfold SF64add. destruct (Prim2SF x) as [s|s| |s m e]; try reflexivity.
  destruct s; [congruence|reflexivity].
Qed.

(** Numbers that are not below zero: zero or above, or NaN. *)
Lemma is_nan_true_spec x : is_nan x = true <-> Prim2SF x = S754_nan.
Proof.
  split.
  - intros H. destruct (Prim2SF x) eqn:E; try reflexivity;
      assert (N : is_nan x = false) by (apply is_nan_spec; rewrite E; exact I);
      congruence.
  - intros E. destruct (is_nan x) eqn:N; [reflexivity|].
    apply is_nan_spec in N. rewrite E in N. contradiction.
Qed.

Lemma not_below_zero_spec x :
  (x <? 0) = false <-> Prim2SF x = S754_nan \/ sf_nonneg (Prim2SF x).
Proof.
  rewrite ltb_spec. change (Prim2SF 0) with (S754_zero false). unfold SFltb.
  destruct (Prim2SF x) as [s|s| |s m e]; cbn; try destruct s; cbn; split;
    try tauto; try discriminate; intros [H|H]; try discriminate; contradiction.
Qed.

Lemma nonneg_not_below x : (0 <=? x) = true -> (x <? 0) = false.
Proof. rewrite nonneg_spec, not_below_zero_spec. tauto. Qed.

Lemma abs_not_below x : (abs x <? 0) = false.
Proof.
  rewrite not_below_zero_spec, abs_spec. destruct (Prim2SF x); cbn; tauto.
Qed.

Lemma sub_ordered_not_below x y : (y <=? x) = true -> (x - y <? 0) = false.
Proof.
  intros Hle.
  destruct (is_finite x) eqn:Fx; [destruct (is_finite y) eqn:Fy|].
  - apply nonneg_not_below, sub_nonneg; assumption.
  - assert (Fy' : ~ sf_finite (Prim2SF y)) by (rewrite <- is_finite_spec, Fy; discriminate).
    revert Hle Fy'. rewrite not_below_zero_spec, leb_spec, sub_spec.
    unfold SFleb, SF64sub.
    destruct (Prim2SF x) as [sx|sx| |sx mx ex], (Prim2SF y) as [sy|sy| |sy my ey];
      cbn [sf_nonneg sf_finite SFsub SFcompare]; try tauto; try discriminate;
      try (destruct sx, sy; cbn; try discriminate; tauto);
      try (destruct sy; cbn; try discriminate; tauto).
  - assert (Fx' : ~ sf_finite (Prim2SF x)) by (rewrite <- is_finite_spec, Fx; discriminate).
    revert Hle Fx'. rewrite not_below_zero_spec, leb_spec, sub_spec.
    unfold SFleb, SF64sub.
    destruct (Prim2SF x) as [sx|sx| |sx mx ex], (Prim2SF y) as [sy|sy| |sy my ey];
      cbn [sf_nonneg sf_finite SFsub SFcompare]; try tauto; try discriminate;
      try (destruct sx, sy; cbn; try discriminate; tauto);
      try (destruct sx; cbn; try discriminate; tauto).
Qed.

Lemma mul_not_below x y : (x <? 0) = false -> (y <? 0) = false -> (x * y <? 0) = false.
Proof.
  rewrite !not_below_zero_spec, mul_spec. unfold SF64mul.
  destruct (Prim2SF x) as [sx|sx| |sx mx ex], (Prim2SF y) as [sy|sy| |sy my ey];
    cbn [sf_nonneg SFmul]; intros [Hx|Hx] [Hy|Hy]; try discriminate; try tauto;
    try (destruct sx; try contradiction); try (destruct sy; try contradiction);
    cbn [xorb sf_nonneg]; try tauto.
  right. apply sign_nonneg, bra_sign. lia.
Qed.

Lemma div_pos_not_below x y : (x <? 0) = false -> is_finite y = true -> (0 <? y) = true ->
  (x / y <? 0) = false.
Proof.
  intros Hx Fy Hy. destruct (is_nan x) eqn:N.
  - apply is_nan_true_spec in N. apply not_below_zero_spec. left.
    rewrite div_spec, N. reflexivity.
  - apply nonneg_not_below, div_nonneg; try assumption.
    apply not_below_zero_spec in Hx. apply nonneg_spec.
    apply is_nan_spec in N. destruct Hx as [Hx|Hx]; [rewrite Hx in N; contradiction|exact Hx].
Qed.

Lemma add_not_below x y : (x <? 0) = false -> (y <? 0) = false -> (x + y <? 0) = false.
Proof.
  intros Hx Hy.
  destruct (is_nan x) eqn:Nx.
  { apply is_nan_true_spec in Nx. apply not_below_zero_spec. left.
    rewrite add_spec, Nx. reflexivity. }
  destruct (is_nan y) eqn:Ny.
  { apply is_nan_true_spec in Ny. apply not_below_zero_spec. left.
    rewrite add_spec, Ny. unfold SF64add. destruct (Prim2SF x); reflexivity. }
  apply nonneg_not_below, add_nonneg; apply nonneg_spec.
  - apply not_below_zero_spec in Hx. apply is_nan_spec in Nx.
    destruct Hx as [Hx|Hx]; [rewrite Hx in Nx; contradiction|exact Hx].
  - apply not_below_zero_spec in Hy. apply is_nan_spec in Ny.
    destruct Hy as [Hy|Hy]; [rewrite Hy in Ny; contradiction|exact Hy].
Qed.

(** A difference [x - x], and a product with it. *)
Lemma sub_self_cases x : x - x = 0 \/ is_nan (x - x) = true.
Proof.
  destruct (is_finite x) eqn:F; [left; apply sub_self; exact F|right].
  assert (F' : ~ sf_finite (Prim2SF x)) by (rewrite <- is_finite_spec, F; discriminate).
  apply is_nan_true_spec. rewrite sub_spec. unfold SF64sub.
  destruct (Prim2SF x) as [s|s| |s m e]; cbn in *; try tauto. destruct s; reflexivity.
Qed.

Lemma abs_mul_zero_cases x : abs x * 0 = 0 \/ is_nan (abs x * 0) = true.
Proof.
  destruct (is_finite x) eqn:F; [left; apply abs_mul_zero; exact F|right].
  assert (F' : ~ sf_finite (Prim2SF x)) by (rewrite <- is_finite_spec, F; discriminate).
  apply is_nan_true_spec. rewrite mul_spec, abs_spec. unfold SF64mul.
  change (Prim2SF 0) with (S754_zero false).
  destruct (Prim2SF x) as [s|s| |s m e]; cbn in *; tauto.
Qed.

Lemma nan_mul_r x y : is_nan y = true -> is_nan (x * y) = true.
Proof.
  rewrite !is_nan_true_spec, mul_spec. intros ->. unfold SF64mul.
  destruct (Prim2SF x); reflexivity.
Qed.

Lemma nan_div_l x y : is_nan x = true -> is_nan (x / y) = true.
Proof. rewrite !is_nan_true_spec, div_spec. intros ->. reflexivity. Qed.

Lemma nan_abs x : is_nan x = true -> is_nan (abs x) = true.
Proof. rewrite !is_nan_true_spec, abs_spec. intros ->. reflexivity. Qed.

Lemma Math_min_not_above a b : (a <? JS.Math_min a b) = false.
Proof.
  destruct (is_nan (JS.Math_min a b)) eqn:N.
  - apply is_nan_true_spec in N. rewrite ltb_spec, N. unfold SFltb.
    destruct (Prim2SF a); reflexivity.
  - pose proof (Math_min_le_left a b N) as H. apply leb_true_inv in H.
    destruct H as (N1 & N2 & H). rewrite (ltb_spec_FV _ _ N2 N1).
    apply Z.ltb_ge. exact H.
Qed.

End FloatFacts.

(** * The tick buffer *)

Module BufferProps.

Import Chart.

Lemma slice_last_short {A} (n : nat) (l : list A) :
  (length l <= n)%nat -> JS.slice_last n l = l.
Proof.
  intros H. unfold JS.slice_last. replace (length l - n)%nat with 0%nat by lia. reflexivity.
Qed.

Lemma appendPoint_slice point prevData :
  appendPoint point prevData = JS.slice_last 1000 (prevData ++ [point]).
Proof.
  unfold appendPoint. destruct (Nat.ltb_spec 1000 (length (prevData ++ [point]))) as [H|H].
  - reflexivity.
  - symmetry. apply slice_last_short. exact H.
Qed.

Lemma slice_last_length {A} (n : nat) (l : list A) :
  length (JS.slice_last n l) = Nat.min n (length l).
Proof. unfold JS.slice_last. rewrite length_skipn. lia. Qed.

Lemma slice_last_app {A} (n : nat) (l1 l2 : list A) :
  (n <= length l2)%nat -> JS.slice_last n (l1 ++ l2) = JS.slice_last n l2.
Proof.
  intros H. unfold JS.slice_last. rewrite skipn_app, length_app.
  rewrite skipn_all2 by lia. cbn [app]. f_equal. lia.
Qed.

(** Trimming before an append does not change what is kept. *)
Lemma slice_last_absorb {A} (n : nat) (l : list A) (x : A) :
  (1 <= n)%nat -> JS.slice_last n (JS.slice_last n l ++ [x]) = JS.slice_last n (l ++ [x]).
Proof.
  intros Hn. unfold JS.slice_last at 1 3.
  rewrite !length_app, slice_last_length. cbn [length].
  unfold JS.slice_last. rewrite !skipn_app, skipn_skipn, !length_skipn.
  destruct (Nat.le_gt_cases (length l) n) as [Hle|Hgt].
  - replace (length l - n)%nat with 0%nat by lia. cbn [skipn].
    f_equal; f_equal; lia.
  - f_equal; [f_equal; lia|f_equal; lia].
Qed.

Lemma appendAll_slice points : forall buffer, points <> [] ->
  appendAll points buffer = JS.slice_last 1000 (buffer ++ points).
Proof.
  unfold appendAll.
  induction points as [|p points IH] using rev_ind; intros buffer Hne; [congruence|].
  rewrite fold_left_app. cbn [fold_left]. rewrite appendPoint_slice.
  destruct points as [|q points'].
  - reflexivity.
  - rewrite IH by discriminate. rewrite slice_last_absorb by lia.
    rewrite app_assoc. reflexivity.
Qed.

(** C5. After more than 1000 points have been appended, the buffer holds
    exactly 1000 points: the last 1000 appended ones, in arrival order. *)
Theorem buffer_keeps_last_1000 (points buffer : list PricePoint) :
  (1000 < length points)%nat ->
  length (appendAll points buffer) = 1000%nat /\
  appendAll points buffer = skipn (length points - 1000) points.
Proof.
  intros Hk.
  assert (Hne : points <> []) by (destruct points; [cbn in Hk; lia|discriminate]).
  rewrite (appendAll_slice points buffer Hne), slice_last_app by lia.
  split.
  - rewrite slice_last_length. lia.
  - reflexivity.
Qed.

Lemma buffer_keeps_last_1000_witness :
  let points :=
    map (fun k => {| t := JS.of_nat k; ref := 100; oracle := 100 |}%float) (seq 0 1001) in
  (1000 < length points)%nat /\
  length (appendAll points []) = 1000%nat /\
  appendAll points [] = skipn (length points - 1000) points.
Proof.
  intros points.
  assert (H : (1000 < length points)%nat).
  { unfold points. rewrite length_map, length_seq. lia. }
  split; [exact H|]. exact (buffer_keeps_last_1000 points [] H).
Defined.

(** Each ticker message appends its point to the buffer in this way. *)
Lemma handler_appends params price now st :
  data (handleWebSocketMessage params (Ticker price) now st)
  = appendPoint (tickPoint (chainlinkPrice st) now price) (data st).
Proof. reflexivity. Qed.

(** A run of the component appends the points of its ticker messages, one
    by one, in arrival order. *)
Lemma run_appends Math_pow params evs : forall st,
  data (run Math_pow params evs st)
  = appendAll (appendedPoints evs (chainlinkPrice st)) (data st).
Proof.
  unfold run, appendAll.
  induction evs as [|ev evs IH]; intros st; [reflexivity|].
  cbn [fold_left]. rewrite IH.
  destruct ev as [[price|] now|price]; reflexivity.
Qed.

End BufferProps.

(** * Alignment of the adaptive band series *)

Module SeriesProps.

Import Thresholds.

Lemma mapi_from_length {A B} (f : A -> nat -> B) (l : list A) :
  forall i, length (mapi_from f i l) = length l.
Proof. induction l as [|x l IH]; intros i; cbn; [reflexivity|]. rewrite IH. reflexivity. Qed.

Lemma mapi_from_nth_error {A B} (f : A -> nat -> B) (l : list A) :
  forall i k, nth_error (mapi_from f i l) k = option_map (fun x => f x (i + k)%nat) (nth_error l k).
Proof.
  induction l as [|x l IH]; intros i k.
  - destruct k; reflexivity.
  - destruct k; cbn [mapi_from nth_error option_map].
    + rewrite Nat.add_0_r. reflexivity.
    + rewrite IH. replace (S i + k)%nat with (i + S k)%nat by lia. reflexivity.
Qed.

Lemma adaptive_nth_error Math_pow prices k : (2 <= length prices)%nat ->
  nth_error (calculateAdaptiveThresholds Math_pow prices) k
  = option_map (fun point => threshold_at Math_pow prices point k) (nth_error prices k).
Proof.
  intros H. unfold calculateAdaptiveThresholds.
  destruct (Nat.ltb_spec (length prices) 2) as [Hlt|_]; [lia|].
  unfold mapi. rewrite mapi_from_nth_error. reflexivity.
Qed.

(** C4, as the code has it.  For a sequence of at least two points the
    adaptive band series has one band per point, and the band at index 0 is
    [{upper: oracle*1.005, lower: oracle*0.995}] of the first point; for a
    sequence of fewer than two points (so for a one-point sequence) the
    series is empty. *)
Theorem adaptive_series_aligned Math_pow (prices : list PricePoint) :
  ((2 <= length prices)%nat ->
     length (calculateAdaptiveThresholds Math_pow prices) = length prices /\
     forall first, nth_error prices 0 = Some first ->
       nth_error (calculateAdaptiveThresholds Math_pow prices) 0
       = Some {| upper := (oracle first * 1.005)%float;
                 lower := (oracle first * 0.995)%float |}) /\
  ((length prices < 2)%nat -> calculateAdaptiveThresholds Math_pow prices = []).
Proof.
  split.
  - intros H. split.
    + unfold calculateAdaptiveThresholds.
      destruct (Nat.ltb_spec (length prices) 2) as [Hlt|_]; [lia|].
      apply mapi_from_length.
    + intros first Hfirst. rewrite adaptive_nth_error by exact H.
      rewrite Hfirst. reflexivity.
  - intros H. unfold calculateAdaptiveThresholds.
    destruct (Nat.ltb_spec (length prices) 2) as [_|Hge]; [reflexivity|lia].
Qed.

(** C4, as stated, fails: a one-point sequence yields no band at all. *)
Lemma adaptive_series_one_point :
  let prices := [{| t := 0; ref := 100; oracle := 100 |}]%float in
  prices <> [] /\
  length (calculateAdaptiveThresholds pow_square prices) <> length prices.
Proof. split; [discriminate|]. cbn. discriminate. Qed.

Lemma adaptive_series_aligned_witness :
  let prices := [{| t := 0; ref := 100; oracle := 100 |};
                 {| t := 1000; ref := 101; oracle := 100 |}]%float in
  (2 <= length prices)%nat /\
  length (calculateAdaptiveThresholds pow_square prices) = length prices.
Proof.
  intros prices. split; [cbn; lia|].
  apply (adaptive_series_aligned pow_square prices). cbn. lia.
Defined.

End SeriesProps.

(** * Tick ingestion: the oracle fallback and the trigger check *)

Module IngestProps.

Import Chart.
Local Open Scope float_scope.

(** The point that a ticker message leaves at the end of the buffer. *)
Lemma slice_last_last {A} (n : nat) (l : list A) (x : A) :
  (1 <= n)%nat -> JS.last_elem (JS.slice_last n (l ++ [x])) = Some x.
Proof.
  intros Hn. unfold JS.last_elem, JS.slice_last.
  rewrite length_skipn, length_app. cbn [length].
  rewrite nth_error_skipn.
  replace (length l + 1 - n + (length l + 1 - (length l + 1 - n) - 1))%nat
    with (length l) by lia.
  rewrite nth_error_app2 by lia. rewrite Nat.sub_diag. reflexivity.
Qed.

Lemma latest_after_tick params price now st :
  JS.last_elem (data (handleWebSocketMessage params (Ticker price) now st))
  = Some (tickPoint (chainlinkPrice st) now price).
Proof.
  cbn [handleWebSocketMessage data]. rewrite BufferProps.appendPoint_slice.
  apply slice_last_last. lia.
Qed.

Lemma app_one_neq {A} (l : list A) (x : A) : l ++ [x] <> l.
Proof.
  intros H. apply (f_equal (@length A)) in H. rewrite length_app in H. cbn in H. lia.
Qed.

(** C6, as the code has it.  On a ticker message with price [p], when the
    stored quote [q] is available and is a non-zero number (it passes
    [if (chainlinkPrice)]), the point [{t: now, value: p}] is appended to
    the trigger list if and only if [|q - p| / p > staticThreshold], and
    the list is unchanged otherwise; the list is unchanged when the quote
    is null, zero or NaN.  With [staticThreshold = 0.02] and [p = 100], a
    quote of 103 appends exactly one point of value 100 and a quote of 101
    appends none. *)
Theorem trigger_emission (params : Params) (price now : float) (st : State) :
  let st' := handleWebSocketMessage params (Ticker price) now st in
  (forall q, chainlinkPrice st = Some q -> JS.truthy q = true ->
     let deviation := JS.Math_abs (q - price) / price in
     staticPoints st'
     = (if JS.gt deviation (staticThreshold params)
        then staticPoints st ++ [{| trigger_t := now; value := price |}]
        else staticPoints st) /\
     (staticPoints st' = staticPoints st ++ [{| trigger_t := now; value := price |}]
      <-> JS.gt deviation (staticThreshold params) = true) /\
     (staticPoints st' = staticPoints st
      <-> JS.gt deviation (staticThreshold params) = false)) /\
  (JS.truthy_opt (chainlinkPrice st) = false -> staticPoints st' = staticPoints st) /\
  (staticThreshold params = 0.02 -> price = 100 ->
     (chainlinkPrice st = Some 103 ->
        staticPoints st' = staticPoints st ++ [{| trigger_t := now; value := 100 |}]) /\
     (chainlinkPrice st = Some 101 -> staticPoints st' = staticPoints st)).
Proof.
  cbn zeta. cbn [handleWebSocketMessage staticPoints]. unfold checkTrigger.
  split; [|split].
  - intros q Hq Ht. rewrite Hq, Ht.
    destruct (JS.gt (JS.Math_abs (q - price) / price) (staticThreshold params)).
    + split; [reflexivity|]. split; [tauto|].
      split; [intros H; exfalso; exact (app_one_neq _ _ H)|discriminate].
    + split; [reflexivity|]. split; [|tauto].
      split; [intros H; exfalso; exact (app_one_neq _ _ (eq_sym H))|discriminate].
  - destruct (chainlinkPrice st) as [q|]; cbn [JS.truthy_opt]; [|reflexivity].
    intros ->. reflexivity.
  - intros Hthr ->. rewrite Hthr. split; intros ->; reflexivity.
Qed.

Lemma trigger_emission_witness :
  let st := setChainlinkPrice 103 initial in
  let st' := handleWebSocketMessage default_params (Ticker 100) 5 st in
  staticPoints st' = [{| trigger_t := 5; value := 100 |}] /\
  (staticPoints st' = staticPoints st ++ [{| trigger_t := 5; value := 100 |}]
   <-> JS.gt (JS.Math_abs (103 - 100) / 100) 0.02 = true).
Proof.
  intros st st'.
  destruct (trigger_emission default_params 100 5 st) as (Hq & _ & Hex).
  split.
  - apply Hex; reflexivity.
  - apply (Hq 103); reflexivity.
Defined.

(** C6, as stated, fails: a stored quote of 0 is available, the deviation
    of the tick from it exceeds the threshold, and no point is appended. *)
Lemma zero_quote_no_trigger :
  let st := setChainlinkPrice 0 initial in
  let st' := handleWebSocketMessage default_params (Ticker 100) 5 st in
  chainlinkPrice st = Some 0 /\
  JS.gt (JS.Math_abs (0 - 100) / 100) (staticThreshold default_params) = true /\
  staticPoints st' = staticPoints st.
Proof. vm_compute. repeat split. Qed.

(** C10, as the code has it.  When the stored quote is null or equal to 0,
    the point appended for a ticker message has [oracle] equal to [ref], the
    tick price, in the same way for a quote of 0 as for no quote; its
    deviation [|ref - oracle|] is 0 for a finite tick price, and 0 or NaN in
    general. *)
Theorem fallback_to_tick_price (params : Params) (price now : float) (st : State) :
  chainlinkPrice st = None \/
    (exists q, chainlinkPrice st = Some q /\ is_zero q = true) ->
  exists point,
    JS.last_elem (data (handleWebSocketMessage params (Ticker price) now st)) = Some point /\
    ref point = price /\ oracle point = ref point /\
    (is_finite price = true -> JS.Math_abs (ref point - oracle point) = 0) /\
    (JS.Math_abs (ref point - oracle point) = 0 \/
     is_nan (JS.Math_abs (ref point - oracle point)) = true).
Proof.
  intros H. exists (tickPoint (chainlinkPrice st) now price).
  split; [apply latest_after_tick|]. split; [reflexivity|].
  assert (E : oracle (tickPoint (chainlinkPrice st) now price) = price).
  { destruct H as [->|(q & -> & Hq)]; [reflexivity|].
    cbn [tickPoint oracle JS.or_else]. unfold JS.truthy. rewrite Hq.
    rewrite orb_true_r. reflexivity. }
  split; [exact E|]. rewrite E. cbn [tickPoint ref]. unfold JS.Math_abs. split.
  - intros Hf. rewrite (FloatFacts.sub_self _ Hf). reflexivity.
  - destruct (FloatFacts.sub_self_cases price) as [E0|N].
    + left. rewrite E0. reflexivity.
    + right. apply FloatFacts.nan_abs. exact N.
Qed.

Lemma fallback_to_tick_price_witness :
  let st := setChainlinkPrice 0 initial in
  (chainlinkPrice st = None \/ (exists q, chainlinkPrice st = Some q /\ is_zero q = true)) /\
  exists point,
    JS.last_elem (data (handleWebSocketMessage default_params (Ticker 100) 5 st)) = Some point /\
    ref point = 100 /\ oracle point = ref point /\
    (is_finite 100 = true -> JS.Math_abs (ref point - oracle point) = 0) /\
    (JS.Math_abs (ref point - oracle point) = 0 \/
     is_nan (JS.Math_abs (ref point - oracle point)) = true).
Proof.
  intros st.
  assert (H : chainlinkPrice st = None \/
              (exists q, chainlinkPrice st = Some q /\ is_zero q = true)).
  { right. exists 0. split; reflexivity. }
  split; [exact H|]. exact (fallback_to_tick_price default_params 100 5 st H).
Defined.

(** C10, as stated, fails: for an infinite tick price (and no quote) the
    deviation [|ref - oracle|] of the appended point is NaN, not 0. *)
Lemma infinite_price_deviation :
  let st' := handleWebSocketMessage default_params (Ticker infinity) 5 initial in
  chainlinkPrice initial = None /\
  option_map (fun point => is_nan (JS.Math_abs (ref point - oracle point)))
    (JS.last_elem (data st')) = Some true.
Proof. vm_compute. split; reflexivity. Qed.

End IngestProps.

(** * The CDE engine *)

Module CDEProps.

Import CDE FloatFacts.
Local Open Scope float_scope.

Lemma term_area p i :
  term p i = area (nth (i - 1) p undefined_point) (nth i p undefined_point).
Proof. reflexivity. Qed.

Lemma cde_loop_sum prices n : forall i acc,
  cde_loop prices i n acc = fold_left (fun acc i => acc + term prices i) (seq i n) acc.
Proof.
  induction n as [|n IH]; intros i acc; cbn [cde_loop seq fold_left].
  - reflexivity.
  - rewrite IH. reflexivity.
Qed.

Lemma cde_loop_pairs rest : forall pre prev acc,
  cde_loop (pre ++ prev :: rest) (S (length pre)) (length rest) acc
  = cde_pairs prev rest acc.
Proof.
  induction rest as [|curr rest IH]; intros pre prev acc; cbn [length cde_loop cde_pairs].
  - reflexivity.
  - replace (S (length pre) - 1)%nat with (length pre) by lia.
    rewrite (app_nth2 pre (prev :: curr :: rest)) by lia. rewrite Nat.sub_diag. cbn [nth].
    rewrite (app_nth2 pre (prev :: curr :: rest)) by lia.
    replace (S (length pre) - length pre)%nat with 1%nat by lia. cbn [nth].
    specialize (IH (pre ++ [prev]) curr (acc + area prev curr)).
    rewrite <- app_assoc, length_app in IH. cbn [app length] in IH.
    rewrite Nat.add_1_r in IH. exact IH.
Qed.

Lemma calculateCDE_pairs first rest :
  calculateCDE (first :: rest) = cde_pairs first rest 0.
Proof.
  unfold calculateCDE. cbn [length].
  destruct rest as [|second rest]; [reflexivity|].
  cbn [Nat.ltb Nat.leb Nat.sub].
  exact (cde_loop_pairs (second :: rest) [] first 0).
Qed.

(** The area of a pair with equal timestamps. *)
Lemma area_equal_timestamps prev curr :
  t curr = t prev -> is_finite (t curr) = true ->
  is_finite (ref curr - oracle curr) = true -> area prev curr = 0.
Proof.
  intros Ht Ft Fd. unfold area, JS.Math_abs. rewrite <- Ht.
  rewrite (sub_self _ Ft), (abs_mul_zero _ Fd). reflexivity.
Qed.

Lemma area_equal_timestamps_cases prev curr :
  t curr = t prev -> area prev curr = 0 \/ is_nan (area prev curr) = true.
Proof.
  intros Ht. unfold area, JS.Math_abs. rewrite <- Ht.
  destruct (sub_self_cases (t curr)) as [E|N].
  - rewrite E. destruct (abs_mul_zero_cases (ref curr - oracle curr)) as [E'|N'].
    + rewrite E'. left. reflexivity.
    + right. apply nan_div_l. exact N'.
  - right. apply nan_div_l, nan_mul_r. exact N.
Qed.

(** C1, as the code has it.  [calculateCDE] returns the sum over
    [i = 1 .. n-1] of [|p[i].ref - p[i].oracle| * (p[i].t - p[i-1].t) / 1000],
    and it returns 0 when [n < 2].  The term of a pair of consecutive points
    with equal timestamps is exactly 0 when the timestamp and the deviation
    [p[i].ref - p[i].oracle] are finite numbers; it is 0 or NaN in general. *)
Theorem calculateCDE_sum (p : list PricePoint) :
  calculateCDE p = cde_sum p /\
  ((length p < 2)%nat -> calculateCDE p = 0) /\
  (forall i, (1 <= i < length p)%nat ->
     t (nth i p undefined_point) = t (nth (i - 1) p undefined_point) ->
     (is_finite (t (nth i p undefined_point)) = true ->
      is_finite (ref (nth i p undefined_point) - oracle (nth i p undefined_point)) = true ->
      term p i = 0) /\
     (term p i = 0 \/ is_nan (term p i) = true)).
Proof.
  split; [|split].
  - unfold calculateCDE, cde_sum.
    destruct (Nat.ltb_spec (length p) 2) as [H|H].
    + replace (length p - 1)%nat with 0%nat by lia. reflexivity.
    + apply cde_loop_sum.
  - intros H. unfold calculateCDE.
    destruct (Nat.ltb_spec (length p) 2) as [_|H']; [reflexivity|lia].
  - intros i _ Ht. rewrite term_area. split.
    + intros Ft Fd. apply area_equal_timestamps; assumption.
    + apply area_equal_timestamps_cases. exact Ht.
Qed.

Lemma calculateCDE_sum_witness :
  let p := [{| t := 0; ref := 100; oracle := 101 |};
            {| t := 1000; ref := 100; oracle := 103 |};
            {| t := 1000; ref := 100; oracle := 104 |};
            {| t := 3000; ref := 100; oracle := 99 |}] in
  calculateCDE p = cde_sum p /\ calculateCDE p = 5 /\ term p 2 = 0.
Proof.
  intros p. destruct (calculateCDE_sum p) as (Hsum & _ & Hzero).
  split; [exact Hsum|]. split; [reflexivity|].
  apply (Hzero 2%nat); [cbn; lia|reflexivity|reflexivity|reflexivity].
Defined.

(** C1, as stated, fails: with equal timestamps and an infinite deviation
    the term is NaN, and so is the sum. *)
Lemma equal_timestamps_nan_term :
  let p := [{| t := 0; ref := 100; oracle := 100 |};
            {| t := 0; ref := infinity; oracle := 100 |}] in
  t (nth 1 p undefined_point) = t (nth 0 p undefined_point) /\
  is_nan (term p 1) = true /\ is_nan (calculateCDE p) = true.
Proof. vm_compute. repeat split. Qed.

(** The pairs of a sequence that meets [nondecreasing] and [finite_steps]
    add areas that are zero or above. *)
Lemma area_nonneg prev curr :
  (t prev <=? t curr) = true -> is_finite (t curr - t prev) = true ->
  is_finite (ref curr - oracle curr) = true -> (0 <=? area prev curr) = true.
Proof.
  intros Hle Ft Fd. unfold area, JS.Math_abs.
  destruct (sub_finite_inv _ _ Ft) as [Fc Fp].
  apply div_nonneg; [|reflexivity|reflexivity].
  apply mul_nonneg.
  - apply abs_finite. exact Fd.
  - exact Ft.
  - apply abs_nonneg. apply FloatTheory.is_finite_notnan. exact Fd.
  - apply sub_nonneg; assumption.
Qed.

Lemma cde_pairs_nonneg rest : forall prev acc,
  nondecreasing (prev :: rest) = true -> finite_steps (prev :: rest) = true ->
  (0 <=? acc) = true -> (0 <=? cde_pairs prev rest acc) = true.
Proof.
  induction rest as [|curr rest IH]; intros prev acc Hs Hf Hacc; cbn [cde_pairs].
  - exact Hacc.
  - cbn [nondecreasing finite_steps] in Hs, Hf.
    apply andb_true_iff in Hs. destruct Hs as [Hle Hs].
    apply andb_true_iff in Hf. destruct Hf as [Hf1 Hf].
    apply andb_true_iff in Hf1. destruct Hf1 as [Ft Fd].
    apply IH; try assumption.
    apply add_nonneg; [exact Hacc|]. apply area_nonneg; assumption.
Qed.

Lemma area_not_below prev curr :
  (t prev <=? t curr) = true -> (area prev curr <? 0) = false.
Proof.
  intros Hle. unfold area, JS.Math_abs.
  apply div_pos_not_below; [|reflexivity|reflexivity].
  apply mul_not_below; [apply abs_not_below|apply sub_ordered_not_below; exact Hle].
Qed.

Lemma cde_pairs_not_below rest : forall prev acc,
  nondecreasing (prev :: rest) = true ->
  (acc <? 0) = false -> (cde_pairs prev rest acc <? 0) = false.
Proof.
  induction rest as [|curr rest IH]; intros prev acc Hs Hacc; cbn [cde_pairs].
  - exact Hacc.
  - cbn [nondecreasing] in Hs. apply andb_true_iff in Hs. destruct Hs as [Hle Hs].
    apply IH; [exact Hs|]. apply add_not_below; [exact Hacc|].
    apply area_not_below. exact Hle.
Qed.

(** C8, as the code has it.  For a sequence whose timestamps do not
    decrease, [calculateCDE] never returns a value below 0; it returns a
    value greater than or equal to 0 when every elapsed time [t[i] - t[i-1]]
    and every deviation [ref[i] - oracle[i]] is a finite number (the result
    can be NaN otherwise). *)
Theorem calculateCDE_nonneg (p : list PricePoint) :
  nondecreasing p = true ->
  (calculateCDE p <? 0) = false /\
  (finite_steps p = true -> (0 <=? calculateCDE p) = true).
Proof.
  intros Hs. destruct p as [|first rest]; [split; reflexivity|].
  rewrite calculateCDE_pairs. split.
  - apply cde_pairs_not_below; [exact Hs|reflexivity].
  - intros Hf. apply cde_pairs_nonneg; try assumption. reflexivity.
Qed.

Lemma calculateCDE_nonneg_witness :
  let p := [{| t := 0; ref := 100; oracle := 101 |};
            {| t := 1000; ref := 100; oracle := 103 |};
            {| t := 1000; ref := 100; oracle := 104 |};
            {| t := 3000; ref := 100; oracle := 99 |}] in
  nondecreasing p = true /\ finite_steps p = true /\
  (calculateCDE p <? 0) = false /\ (0 <=? calculateCDE p) = true.
Proof.
  intros p. split; [reflexivity|]. split; [reflexivity|].
  destruct (calculateCDE_nonneg p eq_refl) as [Hnot Hge].
  split; [exact Hnot|]. apply Hge. reflexivity.
Defined.

(** C8, as stated, fails: a NaN price makes the result NaN, which is not
    greater than or equal to 0. *)
Lemma nondecreasing_nan_cde :
  let p := [{| t := 0; ref := 100; oracle := 100 |};
            {| t := 1000; ref := nan; oracle := 100 |}] in
  nondecreasing p = true /\ (0 <=? calculateCDE p) = false.
Proof. vm_compute. split; reflexivity. Qed.

End CDEProps.

(** * The threshold engine *)

Module ThresholdProps.

Import Thresholds FloatSpec FloatTheory FloatFacts.
Local Open Scope float_scope.

Lemma zero_spec x : is_zero x = true <-> exists s, Prim2SF x = S754_zero s.
Proof.
  unfold is_zero. rewrite eqb_spec. unfold SFeqb. change (Prim2SF zero) with (S754_zero false).
  destruct (Prim2SF x) as [s|s| |s m e]; cbn [SFcompare].
  - split; [intros _; exists s; reflexivity|reflexivity].
  - split; [destruct s; discriminate|intros (s' & H); discriminate].
  - split; [discriminate|intros (s' & H); discriminate].
  - split; [destruct s; discriminate|intros (s' & H); discriminate].
Qed.

Lemma Math_min_nan_r a b : is_nan b = true -> JS.Math_min a b = nan.
Proof. intros H. unfold JS.Math_min. rewrite H, orb_true_r. reflexivity. Qed.

(** The quotient decides: the factor is in range exactly when the quotient
    is a number that is not negative. *)
Lemma Math_min_cap_range r :
  ((0 <=? JS.Math_min 0.01 r) = true /\ (JS.Math_min 0.01 r <=? 0.01) = true)
  <-> (0 <=? r) = true.
Proof.
  split.
  - intros [H0 _]. apply nonneg_FV in H0. destruct H0 as [N H0].
    destruct (is_nan r) eqn:Nr.
    + rewrite (Math_min_nan_r _ _ Nr) in N. discriminate.
    + rewrite (Math_min_FV 0.01 r eq_refl Nr) in H0.
      apply nonneg_intro; [exact Nr|lia].
  - intros Hr. pose proof (nonneg_FV _ Hr) as [Nr Hr0].
    assert (N : is_nan (JS.Math_min 0.01 r) = false)
      by (apply Math_min_notnan; [reflexivity|exact Nr]).
    split.
    + apply nonneg_intro; [exact N|]. rewrite Math_min_FV by (trivial; reflexivity).
      assert (H001 : (0 <= FV 0.01%float)%Z) by (apply nonneg_FV; reflexivity). lia.
    + apply Math_min_le_left. exact N.
Qed.

(** A number that is not zero over [+0] is [Infinity] when it is positive. *)
Lemma div_pos_zero x : (0 <=? x) = true -> is_zero x = false -> x / 0 = infinity.
Proof.
  intros Hx Hz. apply Prim2SF_inj. rewrite div_spec.
  apply nonneg_spec in Hx.
  assert (Hnz : forall s, Prim2SF x <> S754_zero s).
  { intros s E. assert (is_zero x = true) by (apply zero_spec; exists s; exact E). congruence. }
  change (Prim2SF 0) with (S754_zero false). change (Prim2SF infinity) with (S754_infinity false).
  destruct (Prim2SF x) as [s|s| |s m e]; cbn [sf_nonneg] in Hx.
  - exfalso. exact (Hnz s eq_refl).
  - destruct s; [tauto|reflexivity].
  - tauto.
  - destruct s; [tauto|reflexivity].
Qed.

Lemma div_zero_zero x y : is_zero x = true -> is_zero y = true -> is_nan (x / y) = true.
Proof.
  intros Hx Hy. apply zero_spec in Hx, Hy. destruct Hx as (sx & Ex), Hy as (sy & Ey).
  apply is_nan_true_spec. rewrite div_spec, Ex, Ey. reflexivity.
Qed.

Lemma Math_min_negative r : (r <? 0) = true -> JS.Math_min 0.01 r = r.
Proof.
  intros H.
  assert (Nr : is_nan r = false).
  { destruct (is_nan r) eqn:E; [|reflexivity]. apply is_nan_true_spec in E.
    rewrite ltb_spec, E in H. discriminate. }
  rewrite (ltb_spec_FV r 0 Nr eq_refl), FV_zero in H. apply Z.ltb_lt in H.
  assert (H001 : (0 <= FV 0.01%float)%Z) by (apply nonneg_FV; reflexivity).
  unfold JS.Math_min. rewrite Nr. cbn [is_nan orb].
  change (is_nan 0.01) with false. cbn [orb].
  rewrite (ltb_spec_FV 0.01 r eq_refl Nr), (ltb_spec_FV r 0.01 Nr eq_refl).
  destruct (Z.ltb_spec (FV 0.01%float) (FV r)); [lia|].
  destruct (Z.ltb_spec (FV r) (FV 0.01%float)); [reflexivity|lia].
Qed.

(** C2, as the code has it.  The volatility factor
    [Math.min(0.01, stdDev / mean)] never exceeds 0.01, and it lies in the
    closed interval [0, 0.01] exactly when the quotient [stdDev / mean] is
    a number that is not negative.  This is so whenever the standard
    deviation is a number and the rolling mean is a positive finite
    number; and it is so when the rolling mean is [+0] and the standard
    deviation is a number other than zero: the factor is then the maximum
    0.01.  It is not so when the rolling mean and the standard deviation
    are both zero: the factor is then NaN; nor when the quotient is
    negative: the factor is then the quotient itself. *)
Theorem volatilityFactor_range Math_pow (prices : list PricePoint) (index : nat) :
  JS.gt (volatilityFactor Math_pow prices index) 0.01 = false /\
  ((JS.ge (volatilityFactor Math_pow prices index) 0 = true /\
    JS.ge 0.01 (volatilityFactor Math_pow prices index) = true)
   <-> JS.ge (stdDev Math_pow prices index / mean prices index) 0 = true) /\
  (is_nan (stdDev Math_pow prices index) = false ->
   is_finite (mean prices index) = true -> (0 <? mean prices index) = true ->
   JS.ge (volatilityFactor Math_pow prices index) 0 = true /\
   JS.ge 0.01 (volatilityFactor Math_pow prices index) = true) /\
  (mean prices index = 0 ->
   is_nan (stdDev Math_pow prices index) = false ->
   is_zero (stdDev Math_pow prices index) = false ->
   volatilityFactor Math_pow prices index = 0.01) /\
  (is_zero (mean prices index) = true -> is_zero (stdDev Math_pow prices index) = true ->
   is_nan (volatilityFactor Math_pow prices index) = true) /\
  ((stdDev Math_pow prices index / mean prices index <? 0) = true ->
   volatilityFactor Math_pow prices index = stdDev Math_pow prices index / mean prices index).
Proof.
  unfold JS.gt, JS.ge, volatilityFactor.
  split; [apply Math_min_not_above|].
  split; [apply Math_min_cap_range|].
  split; [|split; [|split]].
  - intros Hsd Hfin Hpos. apply Math_min_cap_range.
    apply div_nonneg; [|exact Hfin|exact Hpos]. apply sqrt_nonneg. exact Hsd.
  - intros Hmu Hsd Hnz. rewrite Hmu, div_pos_zero; [reflexivity| |exact Hnz].
    apply sqrt_nonneg. exact Hsd.
  - intros Hmu Hsd. rewrite Math_min_nan_r; [reflexivity|].
    apply div_zero_zero; assumption.
  - apply Math_min_negative.
Qed.

Lemma volatilityFactor_range_witness :
  let prices := [{| t := 0; ref := 100; oracle := 100 |};
                 {| t := 1000; ref := 101; oracle := 102 |}] in
  let balanced := [{| t := 0; ref := -1; oracle := -1 |};
                   {| t := 1000; ref := 1; oracle := 1 |}] in
  (JS.ge (volatilityFactor pow_square prices 1) 0 = true /\
   JS.ge 0.01 (volatilityFactor pow_square prices 1) = true) /\
  mean balanced 1 = 0 /\ volatilityFactor pow_square balanced 1 = 0.01.
Proof.
  intros prices balanced.
  destruct (volatilityFactor_range pow_square prices 1) as (_ & _ & Hpos & _).
  destruct (volatilityFactor_range pow_square balanced 1) as (_ & _ & _ & Hzero & _).
  split; [apply Hpos; reflexivity|].
  split; [reflexivity|apply Hzero; reflexivity].
Defined.

(** C2, as stated, fails: on the window of two zero prices the mean is 0
    and the factor is NaN (no fallback to 0.01), and on the window of the
    prices -100 and -102 the factor is negative. *)
Lemma volatilityFactor_degenerate :
  let zeros := [{| t := 0; ref := 0; oracle := 0 |};
                {| t := 1000; ref := 0; oracle := 0 |}] in
  let negative := [{| t := 0; ref := -100; oracle := -100 |};
                   {| t := 1000; ref := -102; oracle := -102 |}] in
  (mean zeros 1 =? 0) = true /\
  is_nan (volatilityFactor pow_square zeros 1) = true /\
  (0 <=? volatilityFactor pow_square zeros 1) = false /\
  (volatilityFactor pow_square negative 1 <? 0) = true.
Proof. vm_compute. repeat split. Qed.

Lemma volatilityFactor_le_one Math_pow prices index :
  (0 <=? volatilityFactor Math_pow prices index) = true ->
  (volatilityFactor Math_pow prices index <=? 1) = true.
Proof.
  intros H. apply (leb_trans _ 0.01); [|reflexivity].
  apply Math_min_le_left. apply nonneg_FV in H. tauto.
Qed.

(** C3, as the code has it.  A band computed around an oracle price that
    is a finite number greater than or equal to 0 satisfies
    [upper >= lower]: the static band of the latest point, the adaptive band
    at index 0, and the adaptive band at an index [i >= 1] whose volatility
    factor is greater than or equal to 0. *)
Theorem bands_ordered Math_pow (prices : list PricePoint) :
  (forall latest, JS.last_elem prices = Some latest ->
     is_finite (oracle latest) = true -> (0 <=? oracle latest) = true ->
     JS.ge (upper (getThresholds prices)) (lower (getThresholds prices)) = true) /\
  (prices = [] ->
     JS.ge (upper (getThresholds prices)) (lower (getThresholds prices)) = true) /\
  (forall index point band,
     nth_error prices index = Some point ->
     nth_error (calculateAdaptiveThresholds Math_pow prices) index = Some band ->
     is_finite (oracle point) = true -> (0 <=? oracle point) = true ->
     (index <> 0%nat -> (0 <=? volatilityFactor Math_pow prices index) = true) ->
     JS.ge (upper band) (lower band) = true).
Proof.
  unfold JS.ge. split; [|split].
  - intros latest Hl Hf H0. unfold getThresholds. rewrite Hl. cbn [upper lower].
    apply band_ordered; trivial.
  - intros ->. reflexivity.
  - intros index point band Hp Hb Hf H0 Hvf.
    destruct (Nat.ltb_spec (length prices) 2) as [Hlt|Hge].
    + unfold calculateAdaptiveThresholds in Hb.
      destruct (Nat.ltb_spec (length prices) 2) as [_|Hge]; [|lia].
      destruct index; discriminate.
    + rewrite SeriesProps.adaptive_nth_error in Hb by exact Hge.
      rewrite Hp in Hb. cbn [option_map] in Hb. inversion Hb; subst band; clear Hb.
      unfold threshold_at. destruct (Nat.eqb_spec index 0) as [->|Hne]; cbn [upper lower].
      * apply (leb_trans _ (oracle point)).
        -- apply mul_le_self; trivial.
        -- apply mul_ge_self; trivial.
      * specialize (Hvf Hne).
        apply band_ordered; trivial. apply volatilityFactor_le_one. exact Hvf.
Qed.

Lemma bands_ordered_witness :
  let prices := [{| t := 0; ref := 100; oracle := 100 |};
                 {| t := 1000; ref := 101; oracle := 102 |}] in
  JS.ge (upper (getThresholds prices)) (lower (getThresholds prices)) = true /\
  forall band, nth_error (calculateAdaptiveThresholds pow_square prices) 1 = Some band ->
    JS.ge (upper band) (lower band) = true.
Proof.
  intros prices. destruct (bands_ordered pow_square prices) as (Hstatic & _ & Hadaptive).
  split.
  - apply (Hstatic {| t := 1000; ref := 101; oracle := 102 |}); reflexivity.
  - intros band Hband.
    apply (Hadaptive 1%nat {| t := 1000; ref := 101; oracle := 102 |} band);
      trivial; reflexivity.
Defined.

(** C3, as stated, fails: around a negative oracle price the static band
    and the adaptive band at index 0 have [upper < lower]. *)
Lemma negative_oracle_band :
  let prices := [{| t := 0; ref := -100; oracle := -100 |};
                 {| t := 1000; ref := -100; oracle := -100 |}] in
  JS.ge (upper (getThresholds prices)) (lower (getThresholds prices)) = false /\
  option_map (fun band => JS.ge (upper band) (lower band))
    (nth_error (calculateAdaptiveThresholds pow_square prices) 0) = Some false.
Proof. vm_compute. split; reflexivity. Qed.

End ThresholdProps.

(** * The adaptive oracle selector *)

Module SelectorProps.

Import Chart Thresholds.
Local Open Scope float_scope.

(** C7, as the code has it.  After a ticker message, with [latest] the
    latest point, [band] the adaptive band of the latest index and a stored
    quote [q] that is available and is a non-zero number, the published
    value is [latest.ref] when
    [|latest.ref - q| / q > |band.upper - band.lower| / (2 * q)] and [q]
    otherwise; when the quote is null (or zero, or NaN) the published value
    is unchanged. *)
Theorem adaptive_oracle_selection Math_pow (params : Params) (price now : float) (st : State) :
  let st' := tick Math_pow params (Ticker price) now st in
  (forall q latest band,
     chainlinkPrice st = Some q -> JS.truthy q = true ->
     JS.last_elem (data st') = Some latest ->
     JS.last_elem (calculateAdaptiveThresholds Math_pow (data st')) = Some band ->
     let deviation := JS.Math_abs (ref latest - q) / q in
     let thresholdDeviation := JS.Math_abs (upper band - lower band) / (2 * q) in
     adaptiveOraclePrice st'
     = Some (if JS.gt deviation thresholdDeviation then ref latest else q)) /\
  (JS.truthy_opt (chainlinkPrice st) = false ->
     adaptiveOraclePrice st' = adaptiveOraclePrice st).
Proof.
  cbn zeta. unfold tick, settle.
  set (h := handleWebSocketMessage params (Ticker price) now st).
  assert (Hq : chainlinkPrice h = chainlinkPrice st) by reflexivity.
  assert (Ha : adaptiveOraclePrice h = adaptiveOraclePrice st) by reflexivity.
  cbn [rerunOracleEffect commitEffects adaptiveOraclePrice data chainlinkPrice
       adaptiveThresholds].
  rewrite Hq, Ha. split.
  - intros q latest band Hc Ht Hl Hb. unfold adaptiveOracleDecision at 1.
    rewrite Hl, Hb, Hc, Ht.
    destruct (JS.gt _ _); reflexivity.
  - intros Hf. unfold adaptiveOracleDecision.
    destruct (JS.last_elem (data h)); [|reflexivity].
    destruct (chainlinkPrice st) as [q|]; [|reflexivity].
    cbn [JS.truthy_opt] in Hf. rewrite Hf. reflexivity.
Qed.

Lemma adaptive_oracle_selection_witness :
  let st := run pow_square default_params
              [Quote 100; Message (Ticker 100) 0] initial in
  let st' := tick pow_square default_params (Ticker 103) 1000 st in
  let quiet := tick pow_square default_params (Ticker 103) 1000 initial in
  adaptiveOraclePrice st' = Some 103 /\
  adaptiveOraclePrice quiet = adaptiveOraclePrice initial.
Proof.
  intros st st' quiet. split.
  - destruct (adaptive_oracle_selection pow_square default_params 103 1000 st) as [H _].
    exact (H 100 {| t := 1000; ref := 103; oracle := 100 |}
             {| upper := 100; lower := 100 |} eq_refl eq_refl eq_refl eq_refl).
  - destruct (adaptive_oracle_selection pow_square default_params 103 1000 initial)
      as [_ H].
    apply H. reflexivity.
Defined.

(** C7, as stated, fails: the code compares the deviation with the absolute
    width of the band.  After a tick at -300 without a quote, a quote of
    100 and a tick at 101, the band of the latest index has
    [upper < lower]; [|latest.ref - q| / q] exceeds
    [(band.upper - band.lower) / (2 * q)], and the published value is the
    quote, not [latest.ref].  And with a stored quote of 0 no decision is
    made: the published value stays null. *)
Lemma reversed_band_selection :
  let st' := run pow_square default_params
               [Message (Ticker (-300)) 0; Quote 100; Message (Ticker 101) 1000] initial in
  let latest := {| t := 1000; ref := 101; oracle := 100 |} in
  let band := {| upper := -100; lower := 300 |} in
  let zero := run pow_square default_params
                [Message (Ticker 100) 0; Quote 0; Message (Ticker 101) 1000] initial in
  (JS.last_elem (data st') = Some latest /\
   JS.last_elem (calculateAdaptiveThresholds pow_square (data st')) = Some band /\
   chainlinkPrice st' = Some 100 /\
   JS.gt (JS.Math_abs (ref latest - 100) / 100) ((upper band - lower band) / (2 * 100)) = true /\
   adaptiveOraclePrice st' = Some 100 /\
   adaptiveOraclePrice st' <> Some (ref latest)) /\
  (chainlinkPrice zero = Some 0 /\
   length (calculateAdaptiveThresholds pow_square (data zero)) = 2%nat /\
   adaptiveOraclePrice zero = None).
Proof. vm_compute. repeat split. discriminate. Qed.

End SelectorProps.

(** * The price path simulator *)

Module SimulatorProps.

Import Simulator FloatFacts.
Local Open Scope float_scope.

Section NonRandom.

Variable Math_sin : float -> float.
Variable Math_random : nat -> float.
Variable o : Options.
Hypothesis deterministic : useRandomWalk o = false.

Lemma nextRef_sinusoid k s :
  fst (nextRef Math_sin Math_random o k s) = sinusoid Math_sin o k.
Proof. unfold nextRef. rewrite deterministic. reflexivity. Qed.

Lemma body_prices k s :
  map (fun p => (t p, ref p)) (prices (body Math_sin Math_random o k s))
  = map (fun p => (t p, ref p)) (prices s) ++ [(JS.of_nat k, sinusoid Math_sin o k)].
Proof.
  unfold body. pose proof (nextRef_sinusoid k s) as H.
  destruct (nextRef Math_sin Math_random o k s) as [r d]. cbn [fst] in H. subst r.
  cbn [prices]. rewrite map_app. reflexivity.
Qed.

Lemma loop_prices n : forall k s,
  map (fun p => (t p, ref p)) (prices (loop Math_sin Math_random o k n s))
  = map (fun p => (t p, ref p)) (prices s)
    ++ map (fun j => (JS.of_nat j, sinusoid Math_sin o j)) (seq k n).
Proof.
  induction n as [|n IH]; intros k s; cbn [loop seq map].
  - rewrite app_nil_r. reflexivity.
  - rewrite IH, body_prices, <- app_assoc. reflexivity.
Qed.

Lemma loop_nth duration k : (k < duration)%nat ->
  exists point,
    nth_error (prices (loop Math_sin Math_random o 0 duration
                         {| refPrices := []; prices := [];
                            lastRef := basePrice o; draws := 0 |})) k = Some point /\
    t point = JS.of_nat k /\ ref point = sinusoid Math_sin o k.
Proof.
  intros Hk.
  pose proof (loop_prices duration 0
                {| refPrices := []; prices := []; lastRef := basePrice o; draws := 0 |}) as H.
  cbn [prices map app] in H.
  apply (f_equal (fun l => nth_error l k)) in H.
  rewrite !nth_error_map in H.
  rewrite (nth_error_nth' _ 0%nat) in H by (rewrite length_seq; exact Hk).
  rewrite seq_nth in H by exact Hk. cbn [option_map Nat.add] in H.
  destruct (nth_error _ k) as [point|]; [|discriminate].
  exists point. cbn [option_map] in H. inversion H. repeat split.
Qed.

End NonRandom.

Lemma base_100_not_neg_zero y : Prim2SF (100 + y) <> S754_zero true.
Proof. intros E. apply add_neg_zero_inv in E. discriminate. Qed.

(** C9.  In the deterministic branch ([useRandomWalk = false]), for every
    duration and every [t] in [0 .. duration-1], the generated point at
    index [t] has reference price [basePrice + 2*sin(t/10) + drift*t]; with
    [basePrice = 100] and [drift = 0] it is [100 + 2*sin(t/10)]. *)
Theorem simulator_reference_price Math_sin Math_random (duration : nat)
    (options : option OptionsArg) (k : nat) :
  let o := destructure options in
  useRandomWalk o = false -> (k < duration)%nat ->
  exists point,
    nth_error (simulatePrices Math_sin Math_random duration options) k = Some point /\
    t point = JS.of_nat k /\
    ref point = basePrice o + 2 * Math_sin (JS.of_nat k / 10) + drift o * JS.of_nat k /\
    (basePrice o = 100 -> drift o = 0 ->
       ref point = 100 + 2 * Math_sin (JS.of_nat k / 10)).
Proof.
  intros o Hs Hk.
  destruct (loop_nth Math_sin Math_random o Hs duration k Hk) as (point & Hn & Ht & Hr).
  exists point. repeat split; try assumption.
  intros Hb Hd. rewrite Hr. unfold sinusoid. rewrite Hb, Hd, zero_mul_of_nat.
  apply add_zero_r. apply base_100_not_neg_zero.
Qed.

Lemma simulator_reference_price_witness :
  let o := destructure None in
  useRandomWalk o = false /\ (3 < 5)%nat /\
  exists point,
    nth_error (simulatePrices (fun x => x) (fun _ => 0.5) 5 None) 3 = Some point /\
    t point = JS.of_nat 3 /\
    ref point = basePrice o + 2 * (JS.of_nat 3 / 10) + drift o * JS.of_nat 3 /\
    (basePrice o = 100 -> drift o = 0 -> ref point = 100 + 2 * (JS.of_nat 3 / 10)).
Proof.
  intros o. split; [reflexivity|]. split; [lia|].
  apply (simulator_reference_price (fun x => x) (fun _ => 0.5) 5 None 3);
    [reflexivity|lia].
Defined.

End SimulatorProps.

(** * More facts on numbers: differences, minima and maxima *)

Module NumberFacts.

Import FloatSpec FloatTheory FloatFacts.
Local Open Scope float_scope.

Lemma ltb_true_notnan x y : (x <? y) = true -> is_nan x = false /\ is_nan y = false.
Proof.
  rewrite ltb_spec, !is_nan_spec. unfold SFltb.
  destruct (Prim2SF x), (Prim2SF y); cbn; try discriminate; tauto.
Qed.

Lemma ltb_asym x y : (x <? y) = true -> (y <? x) = false.
Proof.
  intros H. destruct (ltb_true_notnan x y H) as [Nx Ny].
  rewrite (ltb_spec_FV x y Nx Ny) in H. rewrite (ltb_spec_FV y x Ny Nx). lia.
Qed.

Lemma ltb_leb x y : (x <? y) = true -> (x <=? y) = true.
Proof.
  intros H. destruct (ltb_true_notnan x y H) as [Nx Ny].
  rewrite (ltb_spec_FV x y Nx Ny) in H. rewrite (leb_spec_FV x y Nx Ny). lia.
Qed.

Lemma leb_total x y : is_nan x = false -> is_nan y = false ->
  (y <? x) = false -> (x <=? y) = true.
Proof.
  intros Nx Ny. rewrite (ltb_spec_FV y x Ny Nx), (leb_spec_FV x y Nx Ny). lia.
Qed.

(** Every finite number is a multiple of the smallest positive one. *)
Lemma FV_grid x : is_finite x = true -> exists a, FV x = (a * 2 ^ (B - 1074))%Z.
Proof.
  intros Fx. apply is_finite_spec in Fx. pose proof (Prim2SF_valid x) as V.
  unfold FV. destruct (Prim2SF x) as [s|s| |s m e]; cbn [sf_finite] in Fx; try tauto.
  - exists 0%Z. reflexivity.
  - cbn [SpecFloat.valid_binary] in V. apply bounded_canonical in V.
    destruct V as [C _]. unfold canonical in C. rewrite fexp64_eq in C.
    assert (He : (-1074 <= e)%Z) by lia.
    exists (sgn s (Z.pos m * 2 ^ (e + 1074)))%Z. cbn [xv]. unfold val.
    replace (e + B)%Z with ((e + 1074) + (B - 1074))%Z by lia.
    rewrite Z.pow_add_r by (unfold B; lia).
    destruct s; cbn [sgn]; lia.
Qed.

Lemma FV_tiny : FV 0x1p-1074 = (2 ^ (B - 1074))%Z.
Proof. vm_compute. reflexivity. Qed.

(** A difference is positive exactly when the minuend is the larger
    number: there is no underflow to zero. *)
Lemma sub_pos_iff x y : (0 <? x - y) = (y <? x).
Proof.
  destruct (is_finite x) eqn:Fx; [destruct (is_finite y) eqn:Fy|].
  - pose proof (sub_rounds x y Fx Fy) as R.
    pose proof (rounds_notnan _ _ R) as N.
    rewrite (ltb_spec_FV 0 (x - y) eq_refl N).
    rewrite (ltb_spec_FV y x (is_finite_notnan _ Fy) (is_finite_notnan _ Fx)).
    rewrite FV_zero.
    destruct (Z.ltb_spec (FV y) (FV x)) as [Hlt|Hle].
    + destruct (FV_grid x Fx) as (a & Ha), (FV_grid y Fy) as (b & Hb).
      assert (Hp : (0 < 2 ^ (B - 1074))%Z) by (apply Z.pow_pos_nonneg; unfold B; lia).
      assert (Hge : (FV 0x1p-1074 <= FV x - FV y)%Z).
      { rewrite FV_tiny. rewrite Ha, Hb in Hlt |- *.
        set (P := (2 ^ (B - 1074))%Z) in *. clearbody P.
        assert (b < a)%Z by nia. nia. }
      pose proof (rounds_ge _ _ 0x1p-1074 R eq_refl Hge) as G. rewrite FV_tiny in G.
      apply Z.ltb_lt. lia.
    + assert (Hl : (FV x - FV y <= FV 0)%Z) by (rewrite FV_zero; lia).
      pose proof (rounds_le _ _ 0 R eq_refl Hl) as G. rewrite FV_zero in G.
      apply Z.ltb_ge. exact G.
  - assert (Fy' : ~ sf_finite (Prim2SF y)) by (rewrite <- is_finite_spec, Fy; discriminate).
    revert Fy'. rewrite !ltb_spec, sub_spec. unfold SFltb, SF64sub.
    destruct (Prim2SF x) as [sx|sx| |sx mx ex], (Prim2SF y) as [sy|sy| |sy my ey];
      cbn [sf_finite]; try tauto; intros _;
      try (destruct sx, sy; reflexivity); try (destruct sy; reflexivity).
  - assert (Fx' : ~ sf_finite (Prim2SF x)) by (rewrite <- is_finite_spec, Fx; discriminate).
    revert Fx'. rewrite !ltb_spec, sub_spec. unfold SFltb, SF64sub.
    destruct (Prim2SF x) as [sx|sx| |sx mx ex], (Prim2SF y) as [sy|sy| |sy my ey];
      cbn [sf_finite]; try tauto; intros _;
      try (destruct sx, sy; reflexivity); try (destruct sx; reflexivity).
Qed.

Lemma Math_max_notnan a b : is_nan a = false -> is_nan b = false ->
  is_nan (JS.Math_max a b) = false.
Proof.
  intros Na Nb. unfold JS.Math_max. rewrite Na, Nb. cbn [orb].
  destruct (b <? a); [exact Na|]. destruct (a <? b); [exact Nb|].
  destruct (get_sign a); assumption.
Qed.

Lemma Math_max_FV a b : is_nan a = false -> is_nan b = false ->
  FV (JS.Math_max a b) = Z.max (FV a) (FV b).
Proof.
  intros Na Nb. unfold JS.Math_max. rewrite Na, Nb. cbn [orb].
  rewrite (ltb_spec_FV a b Na Nb), (ltb_spec_FV b a Nb Na).
  destruct (Z.ltb_spec (FV b) (FV a)); [lia|].
  destruct (Z.ltb_spec (FV a) (FV b)); [lia|].
  destruct (get_sign a); lia.
Qed.

Lemma Math_min_nan_l b : JS.Math_min nan b = nan.
Proof. reflexivity. Qed.

Lemma Math_max_nan_l b : JS.Math_max nan b = nan.
Proof. reflexivity. Qed.

Lemma Math_min_nan a b : is_nan a = true \/ is_nan b = true -> JS.Math_min a b = nan.
Proof.
  intros H. unfold JS.Math_min.
  destruct (is_nan a), (is_nan b); cbn [orb]; try reflexivity.
  destruct H; discriminate.
Qed.

Lemma Math_max_nan a b : is_nan a = true \/ is_nan b = true -> JS.Math_max a b = nan.
Proof.
  intros H. unfold JS.Math_max.
  destruct (is_nan a), (is_nan b); cbn [orb]; try reflexivity.
  destruct H; discriminate.
Qed.

(** The result of a binary minimum or maximum is one of its arguments. *)
Lemma Math_min_choice a b : is_nan a = false -> is_nan b = false ->
  JS.Math_min a b = a \/ JS.Math_min a b = b.
Proof.
  intros Na Nb. unfold JS.Math_min. rewrite Na, Nb. cbn [orb].
  destruct (a <? b); [tauto|]. destruct (b <? a); [tauto|]. destruct (get_sign a); tauto.
Qed.

Lemma Math_max_choice a b : is_nan a = false -> is_nan b = false ->
  JS.Math_max a b = a \/ JS.Math_max a b = b.
Proof.
  intros Na Nb. unfold JS.Math_max. rewrite Na, Nb. cbn [orb].
  destruct (b <? a); [tauto|]. destruct (a <? b); [tauto|]. destruct (get_sign a); tauto.
Qed.

(** [Math.min(...xs)], argument by argument. *)
Lemma fold_min_spec xs : forall acc,
  is_nan acc = false -> Forall (fun x => is_nan x = false) xs ->
  is_nan (fold_left JS.Math_min xs acc) = false /\
  (FV (fold_left JS.Math_min xs acc) <= FV acc)%Z /\
  Forall (fun x => (FV (fold_left JS.Math_min xs acc) <= FV x)%Z) xs /\
  (fold_left JS.Math_min xs acc = acc \/ In (fold_left JS.Math_min xs acc) xs).
Proof.
  induction xs as [|x xs IH]; intros acc Na Hxs; cbn [fold_left].
  - repeat split; [exact Na|lia|constructor|left; reflexivity].
  - inversion Hxs as [|? ? Nx Hxs']; subst.
    destruct (IH (JS.Math_min acc x) (Math_min_notnan _ _ Na Nx) Hxs') as (N & L & F & M).
    rewrite (Math_min_FV _ _ Na Nx) in L.
    repeat split; [exact N|lia| |].
    + constructor; [lia|exact F].
    + destruct M as [M|M]; [|right; right; exact M].
      rewrite M. destruct (Math_min_choice acc x Na Nx) as [E|E]; rewrite E.
      * left; reflexivity.
      * right; left; reflexivity.
Qed.

Lemma fold_max_spec xs : forall acc,
  is_nan acc = false -> Forall (fun x => is_nan x = false) xs ->
  is_nan (fold_left JS.Math_max xs acc) = false /\
  (FV acc <= FV (fold_left JS.Math_max xs acc))%Z /\
  Forall (fun x => (FV x <= FV (fold_left JS.Math_max xs acc))%Z) xs /\
  (fold_left JS.Math_max xs acc = acc \/ In (fold_left JS.Math_max xs acc) xs).
Proof.
  induction xs as [|x xs IH]; intros acc Na Hxs; cbn [fold_left].
  - repeat split; [exact Na|lia|constructor|left; reflexivity].
  - inversion Hxs as [|? ? Nx Hxs']; subst.
    destruct (IH (JS.Math_max acc x) (Math_max_notnan _ _ Na Nx) Hxs') as (N & L & F & M).
    rewrite (Math_max_FV _ _ Na Nx) in L.
    repeat split; [exact N|lia| |].
    + constructor; [lia|exact F].
    + destruct M as [M|M]; [|right; right; exact M].
      rewrite M. destruct (Math_max_choice acc x Na Nx) as [E|E]; rewrite E.
      * left; reflexivity.
      * right; left; reflexivity.
Qed.

Lemma fold_min_nan xs : fold_left JS.Math_min xs nan = nan.
Proof. induction xs as [|x xs IH]; [reflexivity|exact IH]. Qed.

Lemma fold_max_nan xs : fold_left JS.Math_max xs nan = nan.
Proof. induction xs as [|x xs IH]; [reflexivity|exact IH]. Qed.

(** One NaN argument makes the result NaN. *)
Lemma Math_min_all_nan xs : Exists (fun x => is_nan x = true) xs ->
  JS.Math_min_all xs = nan.
Proof.
  unfold JS.Math_min_all. generalize infinity.
  induction xs as [|x xs IH]; intros acc H; inversion H; subst; cbn [fold_left].
  - rewrite Math_min_nan by tauto. apply fold_min_nan.
  - apply IH. assumption.
Qed.

Lemma Math_max_all_nan xs : Exists (fun x => is_nan x = true) xs ->
  JS.Math_max_all xs = nan.
Proof.
  unfold JS.Math_max_all. generalize neg_infinity.
  induction xs as [|x xs IH]; intros acc H; inversion H; subst; cbn [fold_left].
  - rewrite Math_max_nan by tauto. apply fold_max_nan.
  - apply IH. assumption.
Qed.

Lemma Forall_finite_notnan xs :
  Forall (fun x => is_finite x = true) xs -> Forall (fun x => is_nan x = false) xs.
Proof. apply Forall_impl. intros x. apply is_finite_notnan. Qed.

(** On numbers, [Math.min(...xs)] is a lower bound of [xs] and
    [Math.max(...xs)] an upper bound. *)
Lemma Math_min_all_le xs : Forall (fun x => is_nan x = false) xs ->
  is_nan (JS.Math_min_all xs) = false /\
  Forall (fun x => (JS.Math_min_all xs <=? x) = true) xs.
Proof.
  intros H. destruct (fold_min_spec xs infinity eq_refl H) as (N & L & F & M).
  fold (JS.Math_min_all xs) in *. split; [exact N|].
  rewrite Forall_forall in *. intros x Hx.
  apply leb_true_intro; [exact N|exact (H x Hx)|exact (F x Hx)].
Qed.

Lemma Math_max_all_ge xs : Forall (fun x => is_nan x = false) xs ->
  is_nan (JS.Math_max_all xs) = false /\
  Forall (fun x => (x <=? JS.Math_max_all xs) = true) xs.
Proof.
  intros H. destruct (fold_max_spec xs neg_infinity eq_refl H) as (N & L & F & M).
  fold (JS.Math_max_all xs) in *. split; [exact N|].
  rewrite Forall_forall in *. intros x Hx.
  apply leb_true_intro; [exact (H x Hx)|exact N|exact (F x Hx)].
Qed.

(** They are finite on a non-empty list of finite numbers. *)
Lemma Math_min_all_finite xs : xs <> [] -> Forall (fun x => is_finite x = true) xs ->
  is_finite (JS.Math_min_all xs) = true.
Proof.
  intros Hne H.
  destruct (fold_min_spec xs infinity eq_refl (Forall_finite_notnan xs H)) as (N & L & F & M).
  fold (JS.Math_min_all xs) in *. destruct M as [M|M].
  - destruct xs as [|x xs]; [congruence|]. exfalso.
    inversion F as [|? ? Fx _]; subst. inversion H as [|? ? Hx _]; subst.
    rewrite M in Fx. pose proof (FV_lt_INF x Hx) as Bx.
    change (FV infinity) with INF in Fx. lia.
  - rewrite Forall_forall in H. exact (H _ M).
Qed.

Lemma Math_max_all_finite xs : xs <> [] -> Forall (fun x => is_finite x = true) xs ->
  is_finite (JS.Math_max_all xs) = true.
Proof.
  intros Hne H.
  destruct (fold_max_spec xs neg_infinity eq_refl (Forall_finite_notnan xs H)) as (N & L & F & M).
  fold (JS.Math_max_all xs) in *. destruct M as [M|M].
  - destruct xs as [|x xs]; [congruence|]. exfalso.
    inversion F as [|? ? Fx _]; subst. inversion H as [|? ? Hx _]; subst.
    rewrite M in Fx. pose proof (FV_lt_INF x Hx) as Bx.
    change (FV neg_infinity) with (- INF)%Z in Fx. lia.
  - rewrite Forall_forall in H. exact (H _ M).
Qed.

(** Subtracting or adding a number that is not negative. *)
Lemma sub_le_self x y : is_finite x = true -> (0 <=? y) = true -> (x - y <=? x) = true.
Proof.
  intros Fx Hy. destruct (is_finite y) eqn:Fy.
  - apply nonneg_FV in Hy. destruct Hy as [_ Hy].
    pose proof (sub_rounds x y Fx Fy) as R.
    apply leb_true_intro; [exact (rounds_notnan _ _ R)|exact (is_finite_notnan _ Fx)|].
    apply (rounds_le _ _ x R Fx). lia.
  - assert (Fy' : ~ sf_finite (Prim2SF y)) by (rewrite <- is_finite_spec, Fy; discriminate).
    apply is_finite_spec in Fx.
    revert Hy Fy' Fx. rewrite nonneg_spec, leb_spec, sub_spec. unfold SFleb, SF64sub.
    destruct (Prim2SF x) as [sx|sx| |sx mx ex], (Prim2SF y) as [sy|sy| |sy my ey];
      cbn [sf_nonneg sf_finite SFsub SFcompare]; try tauto;
      destruct sy; cbn; try tauto; destruct sx; reflexivity.
Qed.

Lemma add_ge_self x y : is_finite x = true -> (0 <=? y) = true -> (x <=? x + y) = true.
Proof.
  intros Fx Hy. destruct (is_finite y) eqn:Fy.
  - apply nonneg_FV in Hy. destruct Hy as [_ Hy].
    pose proof (add_rounds x y Fx Fy) as R.
    apply leb_true_intro; [exact (is_finite_notnan _ Fx)|exact (rounds_notnan _ _ R)|].
    apply (rounds_ge _ _ x R Fx). lia.
  - assert (Fy' : ~ sf_finite (Prim2SF y)) by (rewrite <- is_finite_spec, Fy; discriminate).
    apply is_finite_spec in Fx.
    revert Hy Fy' Fx. rewrite nonneg_spec, leb_spec, add_spec. unfold SFleb, SF64add.
    destruct (Prim2SF x) as [sx|sx| |sx mx ex], (Prim2SF y) as [sy|sy| |sy my ey];
      cbn [sf_nonneg sf_finite SFadd SFcompare]; try tauto;
      destruct sy; cbn; try tauto; destruct sx; reflexivity.
Qed.

Lemma add_ge_self_nonneg x y : (0 <=? x) = true -> (0 <=? y) = true ->
  (x <=? x + y) = true.
Proof.
  intros Hx Hy. destruct (is_finite x) eqn:Fx; [apply add_ge_self; assumption|].
  assert (Fx' : ~ sf_finite (Prim2SF x)) by (rewrite <- is_finite_spec, Fx; discriminate).
  revert Hx Hy Fx'. rewrite !nonneg_spec, leb_spec, add_spec. unfold SFleb, SF64add.
  destruct (Prim2SF x) as [sx|sx| |sx mx ex], (Prim2SF y) as [sy|sy| |sy my ey];
    cbn [sf_nonneg sf_finite SFadd SFcompare]; try tauto;
    destruct sx; cbn; try tauto; destruct sy; cbn; tauto || reflexivity.
Qed.

(** A product with a positive finite constant. *)
Lemma mul_pos_nonneg x c : (0 <=? x) = true -> is_finite c = true -> (0 <? c) = true ->
  (0 <=? x * c) = true.
Proof.
  intros Hx Fc Hc. destruct (is_finite x) eqn:Fx.
  - apply mul_nonneg; try assumption. apply ltb_leb. exact Hc.
  - assert (Fx' : ~ sf_finite (Prim2SF x)) by (rewrite <- is_finite_spec, Fx; discriminate).
    apply is_finite_spec in Fc.
    revert Hx Hc Fc Fx'. rewrite !nonneg_spec, ltb_spec, mul_spec. unfold SFltb, SF64mul.
    change (Prim2SF 0) with (S754_zero false).
    destruct (Prim2SF x) as [sx|sx| |sx mx ex], (Prim2SF c) as [sc|sc| |sc mc ec];
      cbn [sf_nonneg sf_finite SFmul SFcompare]; try tauto;
      destruct sx; cbn; try tauto; destruct sc; cbn; tauto || discriminate.
Qed.

End NumberFacts.

(** * The simulator in both modes: length, lag and random walk *)

Module SimulatorLoop.

Import Simulator SimulatorRun.
Local Open Scope float_scope.

Section Loop.

Variable Math_sin : float -> float.
Variable Math_random : nat -> float.
Variable o : Options.

Lemma inv_start :
  inv o 0 {| refPrices := []; prices := []; lastRef := basePrice o; draws := 0 |}.
Proof. repeat split. Qed.

Lemma body_refPrices k s :
  refPrices (body Math_sin Math_random o k s)
  = refPrices s ++ [fst (nextRef Math_sin Math_random o k s)].
Proof. unfold body. destruct (nextRef _ _ _ _ _) as [r d]. reflexivity. Qed.

Lemma body_prices_app k s :
  exists point,
    prices (body Math_sin Math_random o k s) = prices s ++ [point] /\
    t point = JS.of_nat k /\
    ref point = fst (nextRef Math_sin Math_random o k s) /\
    oracle point
    = nth (Z.to_nat (Z.max 0 (Z.of_nat k - oracleLag o)))
          (refPrices s ++ [fst (nextRef Math_sin Math_random o k s)]) nan
      + (Math_random (snd (nextRef Math_sin Math_random o k s)) - 0.5) * oracleNoise o.
Proof.
  unfold body. destruct (nextRef _ _ _ _ _) as [r d]. cbn [fst snd prices].
  eexists. split; [reflexivity|]. repeat split.
Qed.

Lemma body_inv k s : inv o k s -> inv o (S k) (body Math_sin Math_random o k s).
Proof.
  intros (Hl & Hr & Ht & Hd & _).
  destruct (body_prices_app k s) as (point & Hp & Hpt & Hpr & _).
  pose proof (body_refPrices k s) as Hrp.
  assert (Hlr : length (refPrices s) = k) by (rewrite <- Hr, length_map; exact Hl).
  unfold inv. rewrite Hp, Hrp. repeat split.
  - rewrite length_app, Hl. cbn. lia.
  - rewrite map_app, Hr. cbn [map]. rewrite Hpr. reflexivity.
  - rewrite map_app, Ht, seq_S, map_app. cbn [map Nat.add]. rewrite Hpt. reflexivity.
  - unfold body, nextRef, perTick in *. destruct (useRandomWalk o); cbn [draws]; lia.
  - rewrite app_nth2 by lia. rewrite Hlr, Nat.sub_diag. cbn [nth].
    unfold body, nextRef. destruct (useRandomWalk o); reflexivity.
Qed.

Lemma loop_inv n : forall k s,
  inv o k s -> inv o (k + n) (loop Math_sin Math_random o k n s).
Proof.
  induction n as [|n IH]; intros k s H; cbn [loop].
  - rewrite Nat.add_0_r. exact H.
  - replace (k + S n)%nat with (S k + n)%nat by lia. apply IH, body_inv, H.
Qed.

Lemma loop_split n m : forall k s,
  loop Math_sin Math_random o k (n + m) s
  = loop Math_sin Math_random o (k + n) m (loop Math_sin Math_random o k n s).
Proof.
  induction n as [|n IH]; intros k s; cbn [loop Nat.add].
  - rewrite Nat.add_0_r. reflexivity.
  - rewrite IH. replace (S k + n)%nat with (k + S n)%nat by lia. reflexivity.
Qed.

Lemma loop_prefix n : forall k s,
  exists more,
    prices (loop Math_sin Math_random o k n s) = prices s ++ more /\
    refPrices (loop Math_sin Math_random o k n s) = refPrices s ++ map ref more.
Proof.
  induction n as [|n IH]; intros k s; cbn [loop].
  - exists []. rewrite !app_nil_r. split; reflexivity.
  - destruct (IH (S k) (body Math_sin Math_random o k s)) as (more & Hp & Hr).
    destruct (body_prices_app k s) as (point & Hb & _ & Hpr & _).
    exists (point :: more). rewrite Hp, Hr, Hb, body_refPrices, <- !app_assoc.
    cbn [app map]. rewrite Hpr. split; reflexivity.
Qed.

Lemma before_inv k : inv o k (before Math_sin Math_random o k).
Proof. exact (loop_inv k 0 _ inv_start). Qed.

Lemma before_split k n :
  before Math_sin Math_random o (k + n)
  = loop Math_sin Math_random o k n (before Math_sin Math_random o k).
Proof. unfold before. rewrite loop_split. reflexivity. Qed.

Lemma before_prefix duration k : (k <= duration)%nat ->
  exists more,
    prices (before Math_sin Math_random o duration)
    = prices (before Math_sin Math_random o k) ++ more.
Proof.
  intros Hk. replace duration with (k + (duration - k))%nat by lia.
  rewrite before_split.
  destruct (loop_prefix (duration - k) k (before Math_sin Math_random o k)) as (more & Hp & _).
  exists more. exact Hp.
Qed.

(** The point of iteration [k] is the one that its body appends; no later
    iteration touches it. *)
Lemma point_at duration k : (k < duration)%nat ->
  exists point,
    nth_error (prices (before Math_sin Math_random o duration)) k = Some point /\
    prices (before Math_sin Math_random o (S k))
    = prices (before Math_sin Math_random o k) ++ [point] /\
    t point = JS.of_nat k /\
    ref point = fst (nextRef Math_sin Math_random o k (before Math_sin Math_random o k)) /\
    oracle point
    = nth (Z.to_nat (Z.max 0 (Z.of_nat k - oracleLag o)))
          (refPrices (before Math_sin Math_random o (S k))) nan
      + (Math_random (snd (nextRef Math_sin Math_random o k
                             (before Math_sin Math_random o k))) - 0.5)
        * oracleNoise o.
Proof.
  intros Hk.
  destruct (before_prefix duration (S k) Hk) as (more & Hm).
  assert (E : before Math_sin Math_random o (S k)
              = body Math_sin Math_random o k (before Math_sin Math_random o k)).
  { replace (S k) with (k + 1)%nat by lia. rewrite before_split. reflexivity. }
  destruct (body_prices_app k (before Math_sin Math_random o k))
    as (point & Hb & Ht & Hr & Ho).
  exists point. rewrite Hm, E, Hb, body_refPrices. repeat split; try assumption.
  rewrite <- app_assoc, nth_error_app2.
  - rewrite (proj1 (before_inv k)), Nat.sub_diag. reflexivity.
  - rewrite (proj1 (before_inv k)). lia.
Qed.

(** The reference price recorded at index [i] is the one of the [i]-th
    point of the result. *)
Lemma refPrices_nth duration k i : (k <= duration)%nat -> (i < k)%nat ->
  exists base,
    nth_error (prices (before Math_sin Math_random o duration)) i = Some base /\
    nth i (refPrices (before Math_sin Math_random o k)) nan = ref base.
Proof.
  intros Hk Hi.
  destruct (before_prefix duration k Hk) as (more & Hm).
  destruct (before_inv k) as (Hl & Hr & _).
  destruct (nth_error (prices (before Math_sin Math_random o k)) i) as [base|] eqn:Hn.
  - exists base. rewrite Hm, nth_error_app1 by lia. split; [exact Hn|].
    rewrite <- Hr. apply nth_error_nth. rewrite nth_error_map, Hn. reflexivity.
  - apply nth_error_None in Hn. lia.
Qed.

Lemma draw_index k :
  snd (nextRef Math_sin Math_random o k (before Math_sin Math_random o k))
  = if useRandomWalk o then (2 * k + 1)%nat else k.
Proof.
  destruct (before_inv k) as (_ & _ & _ & Hd & _).
  unfold nextRef, perTick in *. destruct (useRandomWalk o); cbn [snd]; lia.
Qed.

End Loop.

Lemma nan_add_l x y : is_nan x = true -> is_nan (x + y) = true.
Proof.
  rewrite !FloatFacts.is_nan_true_spec, add_spec. intros E. rewrite E. reflexivity.
Qed.




(** X4.  In random-walk mode the reference price of tick [k] is the previous
    reference price ([basePrice] at tick 0) plus the step
    [(Math.random() - 0.5) * volatility * basePrice], whose draw is the
    [(2k)]-th one. *)
Theorem random_walk_step Math_sin Math_random (duration : nat)
    (options : option OptionsArg) (k : nat) :
  let o := destructure options in
  useRandomWalk o = true -> (k < duration)%nat ->
  exists point,
    nth_error (simulatePrices Math_sin Math_random duration options) k = Some point /\
    ref point
    = match k with
      | O => basePrice o
      | S j => match nth_error (simulatePrices Math_sin Math_random duration options) j with
               | Some previous => ref previous
               | None => nan
               end
      end
      + (Math_random (2 * k)%nat - 0.5) * volatility o * basePrice o.
Proof.
  intros o Hrw Hk.
  destruct (point_at Math_sin Math_random o duration k Hk)
    as (point & Hn & _ & _ & Hr & _).
  exists point. split; [exact Hn|]. rewrite Hr.
  destruct (before_inv Math_sin Math_random o k) as (_ & _ & _ & Hd & Hlast).
  unfold nextRef, perTick in *. rewrite Hrw in *. cbn [fst]. rewrite Hd, Hlast.
  replace (k * 2)%nat with (2 * k)%nat by lia.
  destruct k as [|j]; [reflexivity|].
  destruct (refPrices_nth Math_sin Math_random o duration (S j) j ltac:(lia) ltac:(lia))
    as (base & Hb & Hrb).
  unfold simulatePrices. fold o. fold (before Math_sin Math_random o duration).
  rewrite Hb, Hrb. reflexivity.
Qed.

Lemma random_walk_step_witness :
  let options := Some {| arg_basePrice := Some 50; arg_useRandomWalk := Some true;
                         arg_volatility := None; arg_oracleLag := None;
                         arg_oracleNoise := None; arg_drift := None |} in
  let Math_random := fun n : nat => if Nat.even n then 0.75 else 0.25 in
  exists point,
    nth_error (simulatePrices (fun x => x) Math_random 4 options) 2 = Some point /\
    ref point
    = match nth_error (simulatePrices (fun x => x) Math_random 4 options) 1 with
      | Some previous => ref previous
      | None => nan
      end + (0.75 - 0.5) * 0.02 * 50.
Proof.
  intros options Math_random.
  exact (random_walk_step (fun x => x) Math_random 4 options 2 eq_refl ltac:(lia)).
Defined.

End SimulatorLoop.

(** * Runs of the component: what every reachable state satisfies *)

Module RunProps.

Import Chart Effects.
Local Open Scope float_scope.

Lemma run_cons Math_pow params ev evs st :
  run Math_pow params (ev :: evs) st = run Math_pow params evs (step Math_pow params ev st).
Proof. reflexivity. Qed.

Lemma run_snoc Math_pow params evs ev st :
  run Math_pow params (evs ++ [ev]) st = step Math_pow params ev (run Math_pow params evs st).
Proof. unfold run. rewrite fold_left_app. reflexivity. Qed.

Lemma last_elem_snoc {A} (l : list A) (x : A) : JS.last_elem (l ++ [x]) = Some x.
Proof.
  unfold JS.last_elem. rewrite length_app. cbn [length].
  rewrite nth_error_app2 by lia.
  replace (length l + 1 - 1 - length l)%nat with 0%nat by lia. reflexivity.
Qed.

Lemma last_elem_appendPoint point prevData :
  JS.last_elem (appendPoint point prevData) = Some point.
Proof.
  rewrite BufferProps.appendPoint_slice. unfold JS.slice_last.
  set (l := (prevData ++ [point])%list).
  assert (E : skipn (length l - 1000) l
              = skipn (length l - 1000) prevData ++ [point]).
  { unfold l. rewrite skipn_app, length_app. cbn [length].
    destruct (Nat.le_gt_cases (length prevData + 1) 1000) as [H|H].
    - replace (length prevData + 1 - 1000)%nat with 0%nat by lia. reflexivity.
    - replace (length prevData + 1 - 1000 - length prevData)%nat with 0%nat by lia.
      reflexivity. }
  rewrite E. apply last_elem_snoc.
Qed.

Lemma step_inSync Math_pow params ev st :
  inSync Math_pow st -> inSync Math_pow (step Math_pow params ev st).
Proof.
  intros (Hc & Ha & Hv & Hp).
  destruct ev as [[price|] now|price];
    unfold inSync, step, tick, settle, rerunOracleEffect, commitEffects,
      handleWebSocketMessage, setChainlinkPrice;
    cbn [data cde adaptiveThresholds cdeValues currentCoinbasePrice].
  - repeat split. rewrite last_elem_appendPoint. reflexivity.
  - repeat split; assumption.
  - repeat split; assumption.
Qed.

Lemma run_inSync Math_pow params evs : forall st,
  inSync Math_pow st -> inSync Math_pow (run Math_pow params evs st).
Proof.
  induction evs as [|ev evs IH]; intros st H; [exact H|].
  rewrite run_cons. apply IH, step_inSync, H.
Qed.

(** X5.  After any sequence of feed messages and quotes, the derived cells
    agree with the buffer: [cde] is the CDE of the buffer, the adaptive
    bands and the CDE series are those of the buffer, and
    [currentCoinbasePrice] is the reference price of the latest point
    ([null] while the buffer is empty). *)
Theorem derived_cells_in_sync Math_pow (params : Params) (evs : list Event) :
  let st := run Math_pow params evs initial in
  cde st = CDE.calculateCDE (data st) /\
  adaptiveThresholds st = Thresholds.calculateAdaptiveThresholds Math_pow (data st) /\
  cdeValues st = cdeSeries (data st) /\
  currentCoinbasePrice st = option_map ref (JS.last_elem (data st)).
Proof. intros st. apply (run_inSync Math_pow params evs initial). repeat split. Qed.

Lemma appendedPoints_length evs : forall quote,
  length (appendedPoints evs quote) = length (filter isTicker evs).
Proof.
  induction evs as [|[[price|] now|price] evs IH]; intros quote; cbn; auto.
Qed.

Lemma appendAll_length points : forall buffer, (length buffer <= 1000)%nat ->
  length (appendAll points buffer) = Nat.min 1000 (length buffer + length points).
Proof.
  intros buffer Hb. destruct points as [|p points].
  - unfold appendAll. cbn [fold_left length]. lia.
  - rewrite BufferProps.appendAll_slice by discriminate.
    rewrite BufferProps.slice_last_length, length_app. reflexivity.
Qed.

(** X6.  The buffer is the window of the last 1000 points of the feed: after
    a run it holds, in arrival order, the points of the latest
    [min(1000, n)] of the [n] ticker messages, each with the oracle price
    that the quote stored at its arrival gave it.  Other messages add no
    point, and a quote changes no point that is already in the buffer. *)
Theorem buffer_window_of_feed Math_pow (params : Params) (evs : list Event) :
  data (run Math_pow params evs initial) = JS.slice_last 1000 (appendedPoints evs None) /\
  length (data (run Math_pow params evs initial))
  = Nat.min 1000 (length (filter isTicker evs)).
Proof.
  rewrite BufferProps.run_appends. cbn [initial data chainlinkPrice]. split.
  - destruct (appendedPoints evs None) as [|point points] eqn:E; [reflexivity|].
    rewrite BufferProps.appendAll_slice by discriminate. reflexivity.
  - rewrite appendAll_length by (cbn [length]; lia).
    rewrite appendedPoints_length. reflexivity.
Qed.

Lemma checkTrigger_fires staticThreshold quote timestamp price prev :
  checkTrigger staticThreshold quote timestamp price prev
  = if fires staticThreshold quote price
    then prev ++ [{| trigger_t := timestamp; value := price |}]
    else prev.
Proof.
  unfold checkTrigger, fires. destruct quote as [q|]; [|reflexivity].
  destruct (JS.truthy q); [|reflexivity]. cbn [andb]. reflexivity.
Qed.

(** X7.  The trigger list is append-only and is never trimmed.  A run keeps
    the triggers it started with and appends, in arrival order, the
    trigger of each ticker message whose check fires with the quote stored
    at its arrival: at most one per ticker message, carrying the timestamp
    and the price of that message.  Other messages and quotes append
    none. *)
Theorem triggers_append_only Math_pow (params : Params) (evs : list Event) (st : State) :
  length (firedMask (staticThreshold params) evs (chainlinkPrice st))
  = length (tickerTriggers evs) /\
  staticPoints (run Math_pow params evs st)
  = staticPoints st
    ++ selectedBy (firedMask (staticThreshold params) evs (chainlinkPrice st))
         (tickerTriggers evs).
Proof.
  revert st. induction evs as [|ev evs IH]; intros st.
  - split; [reflexivity|]. unfold selectedBy. cbn. rewrite app_nil_r. reflexivity.
  - rewrite run_cons. destruct (IH (step Math_pow params ev st)) as [L E].
    destruct ev as [[price|] now|price].
    + assert (S : staticPoints (step Math_pow params (Message (Ticker price) now) st)
                  = checkTrigger (staticThreshold params) (chainlinkPrice st) now price
                      (staticPoints st)) by reflexivity.
      assert (Q : chainlinkPrice (step Math_pow params (Message (Ticker price) now) st)
                  = chainlinkPrice st) by reflexivity.
      rewrite Q in L, E. rewrite S, checkTrigger_fires in E.
      cbn [firedMask tickerTriggers flat_map app length]. split; [f_equal; exact L|].
      rewrite E. unfold selectedBy. cbn [combine filter fst].
      destruct (fires (staticThreshold params) (chainlinkPrice st) price).
      * cbn [map snd]. rewrite <- app_assoc. reflexivity.
      * reflexivity.
    + assert (Q : chainlinkPrice (step Math_pow params (Message Other now) st)
                  = chainlinkPrice st) by reflexivity.
      rewrite Q in L, E. split; [exact L|exact E].
    + assert (Q : chainlinkPrice (step Math_pow params (Quote price) st) = Some price)
        by reflexivity.
      rewrite Q in L, E. split; [exact L|exact E].
Qed.

(** X8.  The effects reach a fixed point: once they have run on a state,
    running all of them again changes no cell. *)
Theorem settle_idempotent Math_pow (st : State) :
  settle Math_pow (settle Math_pow st) = settle Math_pow st.
Proof.
  unfold settle, rerunOracleEffect, commitEffects. cbn.
  destruct (adaptiveOracleDecision (data st) (chainlinkPrice st)
              (Thresholds.calculateAdaptiveThresholds Math_pow (data st))) as [v|];
    reflexivity.
Qed.

End RunProps.

(** * The CDE over time: increments, monotonicity and the CDE series *)

Module CDESeries.

Import CDE Chart Effects.
Import FloatSpec FloatTheory FloatFacts NumberFacts.
Local Open Scope float_scope.

Lemma last_cons_default {A} (l : list A) (x d d' : A) : last (x :: l) d = last (x :: l) d'.
Proof.
  revert x. induction l as [|y l IH]; intros x; [reflexivity|].
  change (last (x :: y :: l) d) with (last (y :: l) d).
  change (last (x :: y :: l) d') with (last (y :: l) d'). apply IH.
Qed.

Lemma last_elem_last {A} (l : list A) (d x : A) : JS.last_elem l = Some x -> last l d = x.
Proof.
  destruct l as [|y l] using rev_ind; [discriminate|].
  rewrite RunProps.last_elem_snoc, last_last. congruence.
Qed.

Lemma cde_pairs_snoc rest : forall prev acc x,
  cde_pairs prev (rest ++ [x]) acc
  = cde_pairs prev rest acc + area (last (prev :: rest) prev) x.
Proof.
  induction rest as [|curr rest IH]; intros prev acc x; [reflexivity|].
  cbn [app cde_pairs]. rewrite IH.
  change (last (prev :: curr :: rest) prev) with (last (curr :: rest) prev).
  rewrite (last_cons_default rest curr curr prev). reflexivity.
Qed.

Lemma calculateCDE_append_aux first rest x :
  calculateCDE ((first :: rest) ++ [x])
  = calculateCDE (first :: rest) + area (last (first :: rest) first) x.
Proof.
  change ((first :: rest) ++ [x])%list with (first :: (rest ++ [x]))%list.
  rewrite !CDEProps.calculateCDE_pairs. apply cde_pairs_snoc.
Qed.

(** X9.  Appending a point to a non-empty sequence adds exactly one term to
    the CDE, the area between the former last point and the new one; no
    earlier term changes. *)
Theorem calculateCDE_append (first : PricePoint) (rest : list PricePoint) (x : PricePoint) :
  calculateCDE ((first :: rest) ++ [x])
  = calculateCDE (first :: rest) + area (last (first :: rest) first) x.
Proof.
  change ((first :: rest) ++ [x])%list with (first :: (rest ++ [x]))%list.
  rewrite (CDEProps.calculateCDE_pairs first (rest ++ [x])).
  rewrite (CDEProps.calculateCDE_pairs first rest).
  apply cde_pairs_snoc.
Qed.

Lemma nonneg_refl x : (0 <=? x) = true -> (x <=? x) = true.
Proof.
  intros H. apply nonneg_FV in H. destruct H as [N _].
  apply leb_true_intro; [exact N|exact N|lia].
Qed.

Lemma cde_pairs_prefix rest : forall prev acc i j,
  nondecreasing (prev :: rest) = true -> finite_steps (prev :: rest) = true ->
  (0 <=? acc) = true -> (i <= j)%nat ->
  (cde_pairs prev (firstn i rest) acc <=? cde_pairs prev (firstn j rest) acc) = true.
Proof.
  induction rest as [|curr rest IH]; intros prev acc i j Hs Hf Hacc Hij.
  - rewrite !firstn_nil. cbn [cde_pairs]. apply nonneg_refl. exact Hacc.
  - cbn [nondecreasing finite_steps] in Hs, Hf.
    apply andb_true_iff in Hs. destruct Hs as [Hle Hs].
    apply andb_true_iff in Hf. destruct Hf as [Hf1 Hf].
    apply andb_true_iff in Hf1. destruct Hf1 as [Ft Fd].
    pose proof (CDEProps.area_nonneg prev curr Hle Ft Fd) as Ha.
    pose proof (add_nonneg _ _ Hacc Ha) as Hacc'.
    destruct j as [|j].
    + replace i with 0%nat by lia. cbn [firstn cde_pairs]. apply nonneg_refl. exact Hacc.
    + destruct i as [|i]; cbn [firstn cde_pairs].
      * apply (leb_trans _ (acc + area prev curr)).
        -- apply add_ge_self_nonneg; assumption.
        -- exact (IH curr (acc + area prev curr) 0%nat j Hs Hf Hacc' ltac:(lia)).
      * apply IH; try assumption. lia.
Qed.

Lemma calculateCDE_firstn_mono p i j :
  nondecreasing p = true -> finite_steps p = true -> (i <= j)%nat ->
  (calculateCDE (firstn i p) <=? calculateCDE (firstn j p)) = true.
Proof.
  intros Hs Hf Hij. destruct p as [|first rest].
  - rewrite !firstn_nil. reflexivity.
  - destruct j as [|j].
    + replace i with 0%nat by lia. reflexivity.
    + cbn [firstn]. rewrite (CDEProps.calculateCDE_pairs first (firstn j rest)).
      destruct i as [|i]; cbn [firstn].
      * change (calculateCDE []) with (cde_pairs first (firstn 0 rest) 0).
        apply cde_pairs_prefix; try assumption; [reflexivity|lia].
      * rewrite CDEProps.calculateCDE_pairs.
        apply cde_pairs_prefix; try assumption; [reflexivity|lia].
Qed.

(** X10.  The CDE grows with time: extending a sequence whose timestamps do
    not decrease and whose elapsed times and deviations are finite never
    lowers its CDE, and the CDE of a prefix is at most the CDE of every
    longer prefix. *)
Theorem calculateCDE_prefix_monotone (p more : list PricePoint) :
  nondecreasing (p ++ more) = true -> finite_steps (p ++ more) = true ->
  (calculateCDE p <=? calculateCDE (p ++ more)) = true /\
  (forall i j, (i <= j)%nat ->
     (calculateCDE (firstn i (p ++ more)) <=? calculateCDE (firstn j (p ++ more))) = true).
Proof.
  intros Hs Hf. split.
  - pose proof (calculateCDE_firstn_mono (p ++ more) (length p) (length (p ++ more))
                  Hs Hf) as H.
    rewrite firstn_all, firstn_app, Nat.sub_diag, firstn_O, app_nil_r, firstn_all in H.
    apply H. rewrite length_app. lia.
  - intros i j Hij. apply calculateCDE_firstn_mono; assumption.
Qed.

Lemma calculateCDE_prefix_monotone_witness :
  let p := [{| t := 0; ref := 100; oracle := 101 |};
            {| t := 1000; ref := 100; oracle := 103 |}] in
  let more := [{| t := 1500; ref := 102; oracle := 101 |};
               {| t := 3000; ref := 100; oracle := 99 |}] in
  (calculateCDE p <=? calculateCDE (p ++ more)) = true.
Proof.
  intros p more.
  exact (proj1 (calculateCDE_prefix_monotone p more eq_refl eq_refl)).
Defined.

Lemma cdeSeries_nth_error data i : (i < length data)%nat ->
  nth_error (cdeSeries data) i
  = Some (if (i <? 2)%nat then 0 else calculateCDE (firstn (i + 1) data)).
Proof.
  intros Hi. unfold cdeSeries, Thresholds.mapi.
  rewrite SeriesProps.mapi_from_nth_error.
  destruct (nth_error data i) as [point|] eqn:E.
  - cbn [option_map Nat.add]. unfold JS.slice. rewrite Nat.sub_0_r. reflexivity.
  - apply nth_error_None in E. lia.
Qed.

(** X11.  The CDE series is aligned with the buffer.  Its entries at the
    indices 0 and 1 are 0, its entry at an index [i >= 2] is the CDE of
    the first [i + 1] points, so with three points or more its last entry
    is the CDE of the whole buffer; and on time-ordered data with finite
    steps the series never decreases. *)
Theorem cdeSeries_shape (data : list PricePoint) :
  length (cdeSeries data) = length data /\
  (forall i, (i < length data)%nat ->
     nth_error (cdeSeries data) i
     = Some (if (i <? 2)%nat then 0 else calculateCDE (firstn (i + 1) data))) /\
  ((3 <= length data)%nat -> JS.last_elem (cdeSeries data) = Some (calculateCDE data)) /\
  (nondecreasing data = true -> finite_steps data = true ->
   forall i j x y, (i <= j)%nat ->
     nth_error (cdeSeries data) i = Some x -> nth_error (cdeSeries data) j = Some y ->
     (x <=? y) = true).
Proof.
  assert (Hlen : length (cdeSeries data) = length data).
  { unfold cdeSeries, Thresholds.mapi. apply SeriesProps.mapi_from_length. }
  split; [exact Hlen|]. split; [apply cdeSeries_nth_error|]. split.
  - intros H3. unfold JS.last_elem. rewrite Hlen, cdeSeries_nth_error by lia.
    destruct (Nat.ltb_spec (length data - 1) 2) as [H|H]; [lia|].
    replace (length data - 1 + 1)%nat with (length data) by lia.
    rewrite firstn_all. reflexivity.
  - intros Hs Hf i j x y Hij Hx Hy.
    assert (Hj : (j < length data)%nat).
    { rewrite <- Hlen. apply nth_error_Some. rewrite Hy. discriminate. }
    rewrite cdeSeries_nth_error in Hx, Hy by lia.
    inversion Hx; inversion Hy; subst x y; clear Hx Hy.
    assert (E0 : calculateCDE (firstn 0 data) = 0) by reflexivity.
    destruct (Nat.ltb_spec i 2), (Nat.ltb_spec j 2); try lia.
    + reflexivity.
    + rewrite <- E0. apply calculateCDE_firstn_mono; try assumption. lia.
    + apply calculateCDE_firstn_mono; try assumption. lia.
Qed.

(** X12.  While the buffer holds fewer than 1000 points and is not empty, a
    tick adds exactly its own term to the displayed CDE: the deviation of
    the new point times the time elapsed since the latest point. *)
Theorem tick_adds_one_term Math_pow (params : Params) (evs : list Event)
    (price now : float) (latest : PricePoint) :
  let st := run Math_pow params evs initial in
  let st' := tick Math_pow params (Ticker price) now st in
  JS.last_elem (data st) = Some latest -> (length (data st) < 1000)%nat ->
  cde st' = cde st + area latest (tickPoint (chainlinkPrice st) now price).
Proof.
  intros st st' Hlast Hlen.
  destruct (RunProps.run_inSync Math_pow params evs initial) as (Hc & _).
  { repeat split. }
  fold st in Hc. rewrite Hc.
  change (cde st') with
    (calculateCDE (appendPoint (tickPoint (chainlinkPrice st) now price) (data st))).
  unfold appendPoint.
  destruct (Nat.ltb_spec 1000 (length (data st ++ [tickPoint (chainlinkPrice st) now price])))
    as [H|H].
  { rewrite length_app in H. cbn [length] in H. lia. }
  destruct (data st) as [|first rest] eqn:E.
  - discriminate.
  - rewrite calculateCDE_append_aux. f_equal. f_equal.
    apply last_elem_last. exact Hlast.
Qed.

Lemma tick_adds_one_term_witness :
  let evs := [Message (Ticker 100) 0; Quote 101] in
  let st := run Thresholds.pow_square default_params evs initial in
  cde (tick Thresholds.pow_square default_params (Ticker 102) 1000 st)
  = cde st + area {| t := 0; ref := 100; oracle := 100 |} (tickPoint (Some 101) 1000 102).
Proof.
  intros evs st.
  exact (tick_adds_one_term Thresholds.pow_square default_params evs 102 1000
           {| t := 0; ref := 100; oracle := 100 |} eq_refl ltac:(vm_compute; lia)).
Defined.

End CDESeries.

(** * The rolling window of the adaptive bands *)

Module WindowProps.

Import Thresholds.
Local Open Scope float_scope.

Lemma slice_length {A} (start stop : nat) (l : list A) :
  (stop <= length l)%nat -> length (JS.slice start stop l) = (stop - start)%nat.
Proof. intros H. unfold JS.slice. rewrite length_firstn, length_skipn. lia. Qed.

Lemma slice_app_l {A} (start stop : nat) (l more : list A) :
  (stop <= length l)%nat -> JS.slice start stop (l ++ more) = JS.slice start stop l.
Proof.
  intros H. unfold JS.slice. rewrite skipn_app, firstn_app, length_skipn.
  replace (stop - start - (length l - start))%nat with 0%nat by lia.
  rewrite firstn_O, app_nil_r. reflexivity.
Qed.

Lemma recentPrices_app prices more index : (index < length prices)%nat ->
  recentPrices (prices ++ more) index = recentPrices prices index.
Proof. intros H. unfold recentPrices. rewrite slice_app_l by lia. reflexivity. Qed.

(** X13.  The rolling window at index [index] holds the oracle prices of the
    point at [index] and of the [min(10, index)] points before it: at most
    11 prices, the last of which is the price of the current point. *)
Theorem recentPrices_window (prices : list PricePoint) (index : nat) (point : PricePoint) :
  nth_error prices index = Some point ->
  length (recentPrices prices index) = (Nat.min 10 index + 1)%nat /\
  (length (recentPrices prices index) <= 11)%nat /\
  recentPrices prices index
  = map oracle (firstn (Nat.min 10 index) (skipn (index - Nat.min 10 index) prices))
    ++ [oracle point].
Proof.
  intros Hn.
  assert (Hi : (index < length prices)%nat).
  { apply nth_error_Some. rewrite Hn. discriminate. }
  assert (Hl : length (recentPrices prices index) = (Nat.min 10 index + 1)%nat).
  { unfold recentPrices. rewrite length_map, slice_length by lia. lia. }
  split; [exact Hl|]. split; [lia|].
  unfold recentPrices, JS.slice.
  set (lookback := Nat.min 10 index).
  replace (index + 1 - (index - lookback))%nat with (lookback + 1)%nat by lia.
  rewrite <- map_cons with (f := oracle) (l := []), <- map_app. f_equal.
  apply nth_error_split in Hn. destruct Hn as (l1 & l2 & E & Hl1).
  subst prices. rewrite !skipn_app.
  replace (index - lookback - length l1)%nat with 0%nat by lia. cbn [skipn].
  rewrite !firstn_app, length_skipn.
  replace (lookback + 1 - (length l1 - (index - lookback)))%nat with 1%nat by lia.
  replace (lookback - (length l1 - (index - lookback)))%nat with 0%nat by lia.
  cbn [firstn]. rewrite app_nil_r.
  rewrite (firstn_all2 (n := lookback + 1)) by (rewrite length_skipn; lia).
  rewrite (firstn_all2 (n := lookback)) by (rewrite length_skipn; lia).
  reflexivity.
Qed.

Lemma recentPrices_window_witness :
  let prices := map (fun k => {| t := JS.of_nat k; ref := 100; oracle := JS.of_nat (100 + k) |})
                    (seq 0 15) in
  length (recentPrices prices 12) = 11%nat /\
  (length (recentPrices prices 12) <= 11)%nat /\
  recentPrices prices 12
  = map oracle (firstn 10 (skipn 2 prices)) ++ [JS.of_nat 112].
Proof.
  intros prices.
  exact (recentPrices_window prices 12
           {| t := JS.of_nat 12; ref := 100; oracle := JS.of_nat 112 |} eq_refl).
Defined.

Lemma threshold_at_app Math_pow prices more point index : (index < length prices)%nat ->
  threshold_at Math_pow (prices ++ more) point index = threshold_at Math_pow prices point index.
Proof.
  intros H. unfold threshold_at, volatilityFactor, stdDev, variance, mean.
  rewrite !recentPrices_app by exact H. reflexivity.
Qed.

Lemma mapi_from_ext_in {A B} (f g : A -> nat -> B) (l : list A) : forall i,
  (forall x k, (i <= k < i + length l)%nat -> f x k = g x k) ->
  mapi_from f i l = mapi_from g i l.
Proof.
  induction l as [|x l IH]; intros i H; [reflexivity|].
  cbn [mapi_from]. rewrite H by (cbn [length]; lia). f_equal.
  apply IH. intros y k Hk. apply H. cbn [length]. lia.
Qed.

Lemma mapi_from_app {A B} (f : A -> nat -> B) (l more : list A) : forall i,
  mapi_from f i (l ++ more) = mapi_from f i l ++ mapi_from f (i + length l) more.
Proof.
  induction l as [|x l IH]; intros i; cbn [app mapi_from length].
  - rewrite Nat.add_0_r. reflexivity.
  - rewrite IH. do 3 f_equal. lia.
Qed.

(** X14.  Appending a point to a sequence of two points or more leaves every
    band computed so far unchanged and adds the band of the new point:
    a band depends on no later point. *)
Theorem adaptive_bands_append Math_pow (prices : list PricePoint) (point : PricePoint) :
  (2 <= length prices)%nat ->
  calculateAdaptiveThresholds Math_pow (prices ++ [point])
  = calculateAdaptiveThresholds Math_pow prices
    ++ [threshold_at Math_pow (prices ++ [point]) point (length prices)].
Proof.
  intros H. unfold calculateAdaptiveThresholds. rewrite length_app. cbn [length].
  destruct (Nat.ltb_spec (length prices + 1) 2) as [H1|_]; [lia|].
  destruct (Nat.ltb_spec (length prices) 2) as [H2|_]; [lia|].
  unfold mapi. rewrite mapi_from_app. cbn [mapi_from Nat.add]. f_equal.
  apply mapi_from_ext_in. intros x k Hk. apply threshold_at_app. lia.
Qed.

Lemma adaptive_bands_append_witness :
  let prices := [{| t := 0; ref := 100; oracle := 100 |};
                 {| t := 1000; ref := 101; oracle := 102 |}] in
  let point := {| t := 2000; ref := 102; oracle := 101 |} in
  calculateAdaptiveThresholds pow_square (prices ++ [point])
  = calculateAdaptiveThresholds pow_square prices
    ++ [threshold_at pow_square (prices ++ [point]) point 2].
Proof.
  intros prices point.
  exact (adaptive_bands_append pow_square prices point ltac:(cbn; lia)).
Defined.

End WindowProps.

(** * The views: domains, zoom windows and read-outs *)

Module ViewProps.

Import Chart View.
Import FloatSpec FloatTheory FloatFacts NumberFacts.
Local Open Scope float_scope.

Lemma Math_min_le_right a b : is_nan a = false -> is_nan b = false ->
  (JS.Math_min a b <=? b) = true.
Proof.
  intros Na Nb. apply leb_true_intro; [apply Math_min_notnan; assumption|exact Nb|].
  rewrite Math_min_FV by assumption. lia.
Qed.

Lemma Math_min_le_l a b : is_nan a = false -> is_nan b = false ->
  (JS.Math_min a b <=? a) = true.
Proof.
  intros Na Nb. apply leb_true_intro; [apply Math_min_notnan; assumption|exact Na|].
  rewrite Math_min_FV by assumption. lia.
Qed.

Lemma Math_max_ge_l a b : is_nan a = false -> is_nan b = false ->
  (a <=? JS.Math_max a b) = true.
Proof.
  intros Na Nb. apply leb_true_intro; [exact Na|apply Math_max_notnan; assumption|].
  rewrite Math_max_FV by assumption. lia.
Qed.

Lemma Math_max_ge_r a b : is_nan a = false -> is_nan b = false ->
  (b <=? JS.Math_max a b) = true.
Proof.
  intros Na Nb. apply leb_true_intro; [exact Nb|apply Math_max_notnan; assumption|].
  rewrite Math_max_FV by assumption. lia.
Qed.

Lemma allPrices_Forall (P : float -> Prop) data :
  Forall (fun point => P (ref point) /\ P (oracle point)) data -> Forall P (allPrices data).
Proof.
  unfold allPrices. induction 1 as [|point data [Hr Ho] _ IH]; cbn [map concat app].
  - constructor.
  - constructor; [exact Hr|]. constructor; [exact Ho|exact IH].
Qed.

Lemma allPrices_In data point : In point data ->
  In (ref point) (allPrices data) /\ In (oracle point) (allPrices data).
Proof.
  unfold allPrices. induction data as [|p data IH]; intros H; [destruct H|].
  cbn [map concat app]. destruct H as [E|H].
  - subst p. split; [left; reflexivity|right; left; reflexivity].
  - destruct (IH H) as [Hr Ho]. split; right; right; assumption.
Qed.

(** The automatic domain contains every price. *)
Lemma autoDomain_contains data factor :
  data <> [] ->
  Forall (fun point => is_finite (ref point) = true /\ is_finite (oracle point) = true) data ->
  is_finite factor = true -> (0 <? factor) = true ->
  exists lo hi,
    autoDomain data factor = Some (lo, hi) /\
    Forall (fun point =>
              (lo <=? ref point) = true /\ (ref point <=? hi) = true /\
              (lo <=? oracle point) = true /\ (oracle point <=? hi) = true) data.
Proof.
  intros Hne Hfin Ff Hf.
  pose proof (allPrices_Forall (fun x => is_finite x = true) data Hfin) as Hx.
  assert (Hxne : allPrices data <> []).
  { destruct data as [|p data]; [congruence|]. discriminate. }
  pose proof (Math_min_all_finite _ Hxne Hx) as Fmin.
  pose proof (Math_max_all_finite _ Hxne Hx) as Fmax.
  destruct (Math_min_all_le _ (Forall_finite_notnan _ Hx)) as [_ Hmin].
  destruct (Math_max_all_ge _ (Forall_finite_notnan _ Hx)) as [_ Hmax].
  set (min := JS.Math_min_all (allPrices data)) in *.
  set (max := JS.Math_max_all (allPrices data)) in *.
  assert (Hmm : (min <=? max) = true).
  { destruct (allPrices data) as [|x xs]; [congruence|].
    inversion Hmin; inversion Hmax; subst. apply (leb_trans _ x); assumption. }
  assert (Hpad : (0 <=? (max - min) * factor) = true).
  { apply mul_pos_nonneg; [|exact Ff|exact Hf]. apply sub_nonneg; assumption. }
  exists (min - (max - min) * factor), (max + (max - min) * factor). split.
  - unfold autoDomain. destruct (allPrices data) as [|x xs] eqn:E; [congruence|].
    reflexivity.
  - pose proof (sub_le_self min _ Fmin Hpad) as Hlo.
    pose proof (add_ge_self max _ Fmax Hpad) as Hhi.
    rewrite Forall_forall in *. intros point Hin.
    destruct (allPrices_In data point Hin) as [Hr Ho].
    repeat split.
    + apply (leb_trans _ min); [exact Hlo|exact (Hmin _ Hr)].
    + apply (leb_trans _ max); [exact (Hmax _ Hr)|exact Hhi].
    + apply (leb_trans _ min); [exact Hlo|exact (Hmin _ Ho)].
    + apply (leb_trans _ max); [exact (Hmax _ Ho)|exact Hhi].
Qed.

(** X15.  The Y domain of both price charts.  When the chart is zoomed, it is
    the stored window; otherwise it is [undefined] for an empty buffer
    and, for a buffer of finite prices, an interval that contains every
    reference and oracle price. *)
Theorem y_domain_contains (data : list PricePoint) (c : MainChart) (c2 : SecondChart) :
  (forall b t', bottom c = Some b -> top c = Some t' -> getYDomain data c = Some (b, t')) /\
  (forall b t', secondChartBottom c2 = Some b -> secondChartTop c2 = Some t' ->
     getSecondChartYDomain data c2 = Some (b, t')) /\
  (bottom c = None \/ top c = None ->
     (data = [] -> getYDomain data c = None) /\
     (data <> [] ->
      Forall (fun point => is_finite (ref point) = true /\ is_finite (oracle point) = true)
             data ->
      exists lo hi,
        getYDomain data c = Some (lo, hi) /\
        Forall (fun point =>
                  (lo <=? ref point) = true /\ (ref point <=? hi) = true /\
                  (lo <=? oracle point) = true /\ (oracle point <=? hi) = true) data)) /\
  (secondChartBottom c2 = None \/ secondChartTop c2 = None ->
     (data = [] -> getSecondChartYDomain data c2 = None) /\
     (data <> [] ->
      Forall (fun point => is_finite (ref point) = true /\ is_finite (oracle point) = true)
             data ->
      exists lo hi,
        getSecondChartYDomain data c2 = Some (lo, hi) /\
        Forall (fun point =>
                  (lo <=? ref point) = true /\ (ref point <=? hi) = true /\
                  (lo <=? oracle point) = true /\ (oracle point <=? hi) = true) data)).
Proof.
  split; [|split; [|split]].
  - intros b t' Hb Ht. unfold getYDomain. rewrite Hb, Ht. reflexivity.
  - intros b t' Hb Ht. unfold getSecondChartYDomain. rewrite Hb, Ht. reflexivity.
  - intros Hu.
    assert (E : getYDomain data c = autoDomain data 0.02).
    { unfold getYDomain. destruct Hu as [Hu|Hu]; rewrite Hu; [reflexivity|].
      destruct (bottom c); reflexivity. }
    rewrite E. split.
    + intros ->. reflexivity.
    + intros Hne Hfin. apply autoDomain_contains; trivial.
  - intros Hu.
    assert (E : getSecondChartYDomain data c2 = autoDomain data 0.02).
    { unfold getSecondChartYDomain. destruct Hu as [Hu|Hu]; rewrite Hu; [reflexivity|].
      destruct (secondChartBottom c2); reflexivity. }
    rewrite E. split.
    + intros ->. reflexivity.
    + intros Hne Hfin. apply autoDomain_contains; trivial.
Qed.

Lemma y_domain_contains_witness :
  let data := [{| t := 0; ref := 100; oracle := 101 |};
               {| t := 1000; ref := 103; oracle := 99 |}] in
  exists lo hi,
    getYDomain data mainChart_initial = Some (lo, hi) /\
    Forall (fun point =>
              (lo <=? ref point) = true /\ (ref point <=? hi) = true /\
              (lo <=? oracle point) = true /\ (oracle point <=? hi) = true) data.
Proof.
  intros data.
  destruct (y_domain_contains data mainChart_initial secondChart_initial) as (_ & _ & H & _).
  apply H; [left; reflexivity|discriminate|repeat constructor].
Defined.

Lemma ordered_cases l r :
  (ordered l r = (l, r) /\ JS.gt l r = false) \/ (ordered l r = (r, l) /\ JS.gt l r = true).
Proof. unfold ordered. destruct (JS.gt l r); tauto. Qed.

Lemma ordered_le l r : is_nan l = false -> is_nan r = false ->
  (fst (ordered l r) <=? snd (ordered l r)) = true.
Proof.
  intros Nl Nr. unfold ordered, JS.gt. destruct (r <? l) eqn:E; cbn [fst snd].
  - apply ltb_leb. exact E.
  - apply leb_total; assumption.
Qed.

Lemma ordered_again l r : ordered (fst (ordered l r)) (snd (ordered l r)) = ordered l r.
Proof.
  unfold ordered, JS.gt. destruct (r <? l) eqn:E; cbn [fst snd].
  - rewrite (ltb_asym _ _ E). reflexivity.
  - rewrite E. reflexivity.
Qed.

(** The window of a selection contains the prices of every selected
    point. *)
Lemma selected_window selected :
  Forall (fun point => is_nan (ref point) = false /\ is_nan (oracle point) = false) selected ->
  Forall (fun point =>
            (minValue selected <=? ref point) = true /\
            (ref point <=? maxValue selected) = true /\
            (minValue selected <=? oracle point) = true /\
            (oracle point <=? maxValue selected) = true) selected.
Proof.
  intros Hn. unfold minValue, maxValue.
  set (lows := map (fun item => JS.Math_min (ref item) (oracle item)) selected).
  set (highs := map (fun item => JS.Math_max (ref item) (oracle item)) selected).
  assert (Hl : Forall (fun x => is_nan x = false) lows).
  { unfold lows. apply Forall_map. revert Hn. apply Forall_impl.
    intros point [Hr Ho]. apply Math_min_notnan; assumption. }
  assert (Hh : Forall (fun x => is_nan x = false) highs).
  { unfold highs. apply Forall_map. revert Hn. apply Forall_impl.
    intros point [Hr Ho]. apply Math_max_notnan; assumption. }
  destruct (Math_min_all_le lows Hl) as [_ Hmin].
  destruct (Math_max_all_ge highs Hh) as [_ Hmax].
  rewrite Forall_forall in *. intros point Hin.
  destruct (Hn point Hin) as [Hr Ho].
  assert (Hlow : (JS.Math_min_all lows <=? JS.Math_min (ref point) (oracle point)) = true).
  { apply Hmin. unfold lows.
    exact (in_map (fun item => JS.Math_min (ref item) (oracle item)) selected point Hin). }
  assert (Hhigh : (JS.Math_max (ref point) (oracle point) <=? JS.Math_max_all highs) = true).
  { apply Hmax. unfold highs.
    exact (in_map (fun item => JS.Math_max (ref item) (oracle item)) selected point Hin). }
  repeat split.
  - apply (leb_trans _ _ _ Hlow). apply Math_min_le_l; assumption.
  - apply (leb_trans _ (JS.Math_max (ref point) (oracle point))); [|exact Hhigh].
    apply Math_max_ge_l; assumption.
  - apply (leb_trans _ _ _ Hlow). apply Math_min_le_right; assumption.
  - apply (leb_trans _ (JS.Math_max (ref point) (oracle point))); [|exact Hhigh].
    apply Math_max_ge_r; assumption.
Qed.

(** X16.  [zoomSecondChart] on a selection [l], [r].  It stores the two bounds
    in increasing order when they are numbers, selects the points whose
    timestamp lies between them, and stores the smallest and the largest
    price of the selected points, between which all their prices lie when
    none is NaN.  When no point is selected the stored window is
    [[Infinity, -Infinity]].  The domains of the chart are then the
    stored ones. *)
Theorem zoomSecondChart_window (data : list PricePoint) (c : SecondChart) (l r : float) :
  secondChartLeft c = Some l -> secondChartRight c = Some r ->
  let c' := zoomSecondChart data c in
  let leftNum := fst (ordered l r) in
  let rightNum := snd (ordered l r) in
  let selected := selectedData data leftNum rightNum in
  ((leftNum = l /\ rightNum = r) \/ (leftNum = r /\ rightNum = l)) /\
  (is_nan l = false -> is_nan r = false -> (leftNum <=? rightNum) = true) /\
  (forall point, In point selected <->
     In point data /\ (leftNum <=? t point) = true /\ (t point <=? rightNum) = true) /\
  getSecondChartDomain c' = Some (leftNum, rightNum) /\
  getSecondChartYDomain data c' = Some (minValue selected, maxValue selected) /\
  (selected = [] -> minValue selected = infinity /\ maxValue selected = neg_infinity) /\
  (Forall (fun point => is_nan (ref point) = false /\ is_nan (oracle point) = false) selected ->
   Forall (fun point =>
             (minValue selected <=? ref point) = true /\
             (ref point <=? maxValue selected) = true /\
             (minValue selected <=? oracle point) = true /\
             (oracle point <=? maxValue selected) = true) selected).
Proof.
  intros Hl Hr c' leftNum rightNum selected.
  assert (E : c' = {| secondChartLeft := Some leftNum; secondChartRight := Some rightNum;
                      secondChartTop := Some (maxValue selected);
                      secondChartBottom := Some (minValue selected) |}).
  { unfold c', zoomSecondChart. rewrite Hl, Hr.
    unfold selected, leftNum, rightNum. destruct (ordered l r). reflexivity. }
  split; [|split; [|split; [|split; [|split; [|split]]]]].
  - unfold leftNum, rightNum.
    destruct (ordered_cases l r) as [[-> _]|[-> _]]; cbn [fst snd]; tauto.
  - apply ordered_le.
  - intros point. unfold selected, selectedData. rewrite filter_In, andb_true_iff.
    unfold JS.ge, JS.le. tauto.
  - rewrite E. reflexivity.
  - rewrite E. reflexivity.
  - intros ->. split; reflexivity.
  - apply selected_window.
Qed.

Lemma zoomSecondChart_window_witness :
  let data := [{| t := 0; ref := 100; oracle := 101 |};
               {| t := 1000; ref := 103; oracle := 99 |};
               {| t := 2000; ref := 104; oracle := 98 |};
               {| t := 3000; ref := 90; oracle := 120 |}] in
  let c := {| secondChartLeft := Some 2500; secondChartRight := Some 500;
              secondChartTop := None; secondChartBottom := None |} in
  getSecondChartDomain (zoomSecondChart data c) = Some (500, 2500) /\
  getSecondChartYDomain data (zoomSecondChart data c) = Some (98, 104).
Proof.
  intros data c.
  destruct (zoomSecondChart_window data c 2500 500 eq_refl eq_refl)
    as (_ & _ & _ & Hd & Hy & _).
  split; [exact Hd|exact Hy].
Defined.

(** X17.  Both zoom handlers are idempotent: a second mouse-up without a new
    selection changes no cell. *)
Theorem zoom_idempotent parseInt (data : list PricePoint) (c : MainChart) (c2 : SecondChart) :
  zoom parseInt data (zoom parseInt data c) = zoom parseInt data c /\
  zoomSecondChart data (zoomSecondChart data c2) = zoomSecondChart data c2.
Proof.
  split.
  - unfold zoom at 2 3.
    destruct (String.eqb (refAreaLeft c) (refAreaRight c)
              || String.eqb (refAreaRight c) String.EmptyString); [reflexivity|].
    destruct (ordered _ _); reflexivity.
  - destruct (secondChartLeft c2) as [l|] eqn:El; [destruct (secondChartRight c2) as [r|] eqn:Er|].
    + assert (Z : zoomSecondChart data c2
                  = let selected := selectedData data (fst (ordered l r)) (snd (ordered l r)) in
                    {| secondChartLeft := Some (fst (ordered l r));
                       secondChartRight := Some (snd (ordered l r));
                       secondChartTop := Some (maxValue selected);
                       secondChartBottom := Some (minValue selected) |}).
      { unfold zoomSecondChart. rewrite El, Er. destruct (ordered l r); reflexivity. }
      rewrite Z. cbv zeta. unfold zoomSecondChart at 1.
      cbn [secondChartLeft secondChartRight].
      pose proof (ordered_again l r) as E.
      destruct (ordered (fst (ordered l r)) (snd (ordered l r))) as [a b].
      rewrite <- E. reflexivity.
    + assert (Z : zoomSecondChart data c2 = c2).
      { unfold zoomSecondChart. rewrite El, Er. reflexivity. }
      rewrite !Z. reflexivity.
    + assert (Z : zoomSecondChart data c2 = c2).
      { unfold zoomSecondChart. rewrite El. reflexivity. }
      rewrite !Z. reflexivity.
Qed.

(** X18.  The zoom of the first chart always clears the selection.  With equal
    labels or an empty right label it changes nothing else; otherwise it
    stores the window that [zoomSecondChart] stores for the parsed
    labels. *)
Theorem zoom_selection parseInt (data : list PricePoint) (c : MainChart) :
  let c' := zoom parseInt data c in
  refAreaLeft c' = String.EmptyString /\ refAreaRight c' = String.EmptyString /\
  (refAreaLeft c = refAreaRight c \/ refAreaRight c = String.EmptyString ->
   left c' = left c /\ right c' = right c /\ top c' = top c /\ bottom c' = bottom c) /\
  (refAreaLeft c <> refAreaRight c -> refAreaRight c <> String.EmptyString ->
   let c2 := zoomSecondChart data
               {| secondChartLeft := Some (parseInt (refAreaLeft c));
                  secondChartRight := Some (parseInt (refAreaRight c));
                  secondChartTop := None; secondChartBottom := None |} in
   left c' = secondChartLeft c2 /\ right c' = secondChartRight c2 /\
   top c' = secondChartTop c2 /\ bottom c' = secondChartBottom c2 /\
   getDomain c' = getSecondChartDomain c2 /\
   getYDomain data c' = getSecondChartYDomain data c2).
Proof.
  intros c'. unfold c', zoom.
  destruct (String.eqb (refAreaLeft c) (refAreaRight c)) eqn:E1;
    [|destruct (String.eqb (refAreaRight c) String.EmptyString) eqn:E2]; cbn [orb].
  - apply String.eqb_eq in E1. split; [reflexivity|]. split; [reflexivity|].
    split; [intros _; repeat split|]. intros H. contradiction.
  - apply String.eqb_eq in E2. split; [reflexivity|]. split; [reflexivity|].
    split; [intros _; repeat split|]. intros _ H. contradiction.
  - apply String.eqb_neq in E1, E2.
    split; [destruct (ordered _ _); reflexivity|].
    split; [destruct (ordered _ _); reflexivity|].
    split; [tauto|]. intros _ _. unfold zoomSecondChart.
    cbn [secondChartLeft secondChartRight].
    destruct (ordered _ _). repeat split.
Qed.

(** X19.  The second chart draws one oracle value for the whole buffer: when
    the adaptive oracle price is set and non-zero, every point of its
    series carries that price as its oracle price, whatever was recorded;
    otherwise the series is the buffer itself.  Timestamps and reference
    prices are never changed. *)
Theorem secondChartData_oracle (st : State) :
  map t (secondChartData st) = map t (data st) /\
  map ref (secondChartData st) = map ref (data st) /\
  (forall v, adaptiveOraclePrice st = Some v -> JS.truthy v = true ->
     map oracle (secondChartData st) = repeat v (length (data st))) /\
  (JS.truthy_opt (adaptiveOraclePrice st) = false -> secondChartData st = data st).
Proof.
  unfold secondChartData. repeat split.
  - rewrite map_map. reflexivity.
  - rewrite map_map. reflexivity.
  - intros v Hv Tv. rewrite Hv, map_map. cbn [oracle JS.or_else]. rewrite Tv.
    induction (data st) as [|point l IH]; [reflexivity|]. cbn [map length repeat].
    rewrite IH. reflexivity.
  - intros H. rewrite <- (map_id (data st)) at 2. apply map_ext. intros [t0 r0 o0].
    cbn [t ref oracle]. f_equal. unfold JS.truthy_opt, JS.or_else in *.
    destruct (adaptiveOraclePrice st) as [v|]; [|reflexivity]. rewrite H. reflexivity.
Qed.

Lemma autoDomain_explicit data factor : data <> [] ->
  autoDomain data factor
  = Some (JS.Math_min_all (allPrices data)
          - (JS.Math_max_all (allPrices data) - JS.Math_min_all (allPrices data)) * factor,
          JS.Math_max_all (allPrices data)
          + (JS.Math_max_all (allPrices data) - JS.Math_min_all (allPrices data)) * factor).
Proof.
  intros Hne. unfold autoDomain.
  destruct data as [|point data]; [congruence|]. reflexivity.
Qed.

(** X20.  The zoom buttons on a chart that is not zoomed.  Zoom-in changes
    nothing.  Zoom-out changes nothing while the buffer is empty;
    otherwise it leaves the X cells alone and stores the window
    [[min - padding, max + padding]], where [min] and [max] are the
    smallest and the largest price of the buffer and [padding] is
    [(max - min) * 0.1], and for finite prices this window contains every
    price. *)
Theorem buttons_when_unzoomed (data : list PricePoint) (c : SecondChart) :
  secondChartBottom c = None \/ secondChartTop c = None ->
  let min := JS.Math_min_all (allPrices data) in
  let max := JS.Math_max_all (allPrices data) in
  let padding := (max - min) * 0.1 in
  secondChartZoomIn c = c /\
  (data = [] -> secondChartZoomOut data c = c) /\
  (data <> [] ->
   secondChartZoomOut data c
   = {| secondChartLeft := secondChartLeft c; secondChartRight := secondChartRight c;
        secondChartTop := Some (max + padding); secondChartBottom := Some (min - padding) |}) /\
  (data <> [] ->
   Forall (fun point => is_finite (ref point) = true /\ is_finite (oracle point) = true) data ->
   Forall (fun point =>
             (min - padding <=? ref point) = true /\ (ref point <=? max + padding) = true /\
             (min - padding <=? oracle point) = true /\
             (oracle point <=? max + padding) = true) data).
Proof.
  intros Hu min max padding.
  assert (Ein : secondChartZoomIn c = c).
  { unfold secondChartZoomIn. destruct Hu as [Hu|Hu]; rewrite Hu; [reflexivity|].
    destruct (secondChartBottom c); reflexivity. }
  assert (Eout : secondChartZoomOut data c
                 = match autoDomain data 0.1 with
                   | None => c
                   | Some (b, t') =>
                       {| secondChartLeft := secondChartLeft c;
                          secondChartRight := secondChartRight c;
                          secondChartTop := Some t'; secondChartBottom := Some b |}
                   end).
  { unfold secondChartZoomOut. destruct Hu as [Hu|Hu]; rewrite Hu; [reflexivity|].
    destruct (secondChartBottom c); reflexivity. }
  split; [exact Ein|]. split; [|split].
  - intros ->. rewrite Eout. reflexivity.
  - intros Hne. rewrite Eout, (autoDomain_explicit data 0.1 Hne). reflexivity.
  - intros Hne Hfin.
    destruct (autoDomain_contains data 0.1 Hne Hfin eq_refl eq_refl) as (lo & hi & E & F).
    rewrite (autoDomain_explicit data 0.1 Hne) in E. injection E as <- <-. exact F.
Qed.

Lemma buttons_when_unzoomed_witness :
  let data := [{| t := 0; ref := 100; oracle := 101 |};
               {| t := 1000; ref := 103; oracle := 99 |}] in
  secondChartZoomIn secondChart_initial = secondChart_initial /\
  secondChartZoomOut data secondChart_initial
  = {| secondChartLeft := None; secondChartRight := None;
       secondChartTop := Some (103 + (103 - 99) * 0.1);
       secondChartBottom := Some (99 - (103 - 99) * 0.1) |} /\
  Forall (fun point =>
            (99 - (103 - 99) * 0.1 <=? ref point) = true /\
            (ref point <=? 103 + (103 - 99) * 0.1) = true /\
            (99 - (103 - 99) * 0.1 <=? oracle point) = true /\
            (oracle point <=? 103 + (103 - 99) * 0.1) = true) data.
Proof.
  intros data.
  destruct (buttons_when_unzoomed data secondChart_initial (or_introl eq_refl))
    as (Hin & _ & Hout & Hall).
  split; [exact Hin|].
  split; [apply Hout; discriminate|apply Hall; [discriminate|repeat constructor]].
Defined.

(** A window around a finite middle is ordered. *)
Lemma rescale_ordered min max scale c :
  is_finite min = true -> is_finite max = true -> (min <=? max) = true ->
  is_finite scale = true -> (0 <? scale) = true ->
  is_finite ((max + min) / 2) = true ->
  exists b t',
    rescale min max (max - min) scale c
    = {| secondChartLeft := secondChartLeft c; secondChartRight := secondChartRight c;
         secondChartTop := Some t'; secondChartBottom := Some b |} /\
    (b <=? t') = true.
Proof.
  intros Fmin Fmax Hle Fs Hs Fc.
  assert (Hh : (0 <=? (max - min) * scale / 2) = true).
  { apply div_nonneg; [|reflexivity|reflexivity].
    apply mul_pos_nonneg; [|exact Fs|exact Hs]. apply sub_nonneg; assumption. }
  eexists _, _. split; [reflexivity|].
  apply (leb_trans _ ((max + min) / 2)).
  - apply sub_le_self; assumption.
  - apply add_ge_self; assumption.
Qed.

(** X21.  The zoom buttons keep the window ordered.  On a chart zoomed to a
    finite window [bottom <= top] whose middle [(top + bottom) / 2] is
    finite, zoom-in and zoom-out store a window with [bottom <= top]
    again, and they leave the X cells alone. *)
Theorem zoom_buttons_keep_order (data : list PricePoint) (c : SecondChart) (b t0 : float) :
  secondChartBottom c = Some b -> secondChartTop c = Some t0 ->
  is_finite b = true -> is_finite t0 = true -> (b <=? t0) = true ->
  is_finite ((t0 + b) / 2) = true ->
  (exists b' t',
     secondChartZoomIn c
     = {| secondChartLeft := secondChartLeft c; secondChartRight := secondChartRight c;
          secondChartTop := Some t'; secondChartBottom := Some b' |} /\
     (b' <=? t') = true) /\
  (exists b' t',
     secondChartZoomOut data c
     = {| secondChartLeft := secondChartLeft c; secondChartRight := secondChartRight c;
          secondChartTop := Some t'; secondChartBottom := Some b' |} /\
     (b' <=? t') = true).
Proof.
  intros Hb Ht Fb Ft Hle Fc. split.
  - unfold secondChartZoomIn. rewrite Hb, Ht. apply rescale_ordered; trivial.
  - unfold secondChartZoomOut. rewrite Hb, Ht. apply rescale_ordered; trivial.
Qed.

Lemma zoom_buttons_keep_order_witness :
  let c := {| secondChartLeft := Some 0; secondChartRight := Some 1000;
              secondChartTop := Some 110; secondChartBottom := Some 90 |} in
  (exists b' t',
     secondChartZoomIn c
     = {| secondChartLeft := Some 0; secondChartRight := Some 1000;
          secondChartTop := Some t'; secondChartBottom := Some b' |} /\
     (b' <=? t') = true) /\
  (exists b' t',
     secondChartZoomOut [] c
     = {| secondChartLeft := Some 0; secondChartRight := Some 1000;
          secondChartTop := Some t'; secondChartBottom := Some b' |} /\
     (b' <=? t') = true).
Proof.
  intros c.
  exact (zoom_buttons_keep_order [] c 90 110 eq_refl eq_refl eq_refl eq_refl eq_refl eq_refl).
Defined.

(** X22.  The buttons of the CDE controls write the Y cells of the second
    chart, computed from the CDE series.  They change nothing while the
    series is empty; for a series of finite values whose middle
    [(max + min) / 2] is finite they store an ordered window
    [bottom <= top] and leave the X cells alone. *)
Theorem cde_controls_window (cdeValues : list float) (c : SecondChart) :
  cdeZoomIn [] c = c /\ cdeZoomOut [] c = c /\
  (cdeValues <> [] -> Forall (fun v => is_finite v = true) cdeValues ->
   is_finite ((JS.Math_max_all cdeValues + JS.Math_min_all cdeValues) / 2) = true ->
   (exists b' t',
      cdeZoomIn cdeValues c
      = {| secondChartLeft := secondChartLeft c; secondChartRight := secondChartRight c;
           secondChartTop := Some t'; secondChartBottom := Some b' |} /\
      (b' <=? t') = true) /\
   (exists b' t',
      cdeZoomOut cdeValues c
      = {| secondChartLeft := secondChartLeft c; secondChartRight := secondChartRight c;
           secondChartTop := Some t'; secondChartBottom := Some b' |} /\
      (b' <=? t') = true)).
Proof.
  split; [reflexivity|]. split; [reflexivity|].
  intros Hne Hfin Fm.
  pose proof (Math_min_all_finite _ Hne Hfin) as Fmin.
  pose proof (Math_max_all_finite _ Hne Hfin) as Fmax.
  destruct (Math_min_all_le _ (Forall_finite_notnan _ Hfin)) as [_ Hmin].
  destruct (Math_max_all_ge _ (Forall_finite_notnan _ Hfin)) as [_ Hmax].
  assert (Hmm : (JS.Math_min_all cdeValues <=? JS.Math_max_all cdeValues) = true).
  { destruct cdeValues as [|x xs]; [congruence|].
    inversion Hmin; inversion Hmax; subst. apply (leb_trans _ x); assumption. }
  unfold cdeZoomIn, cdeZoomOut, cdeZoom.
  destruct cdeValues as [|x xs]; [congruence|]. cbn [List.length Nat.eqb].
  split; apply rescale_ordered; trivial.
Qed.

Lemma cde_controls_window_witness :
  let c := {| secondChartLeft := Some 0; secondChartRight := Some 1000;
              secondChartTop := Some 110; secondChartBottom := Some 90 |} in
  exists b' t',
    cdeZoomOut [0; 0; 3] c
    = {| secondChartLeft := Some 0; secondChartRight := Some 1000;
         secondChartTop := Some t'; secondChartBottom := Some b' |} /\
    (b' <=? t') = true.
Proof.
  intros c.
  destruct (cde_controls_window [0; 0; 3] c) as (_ & _ & H).
  destruct H as [_ Hout]; [discriminate|repeat constructor|reflexivity|exact Hout].
Defined.

End ViewProps.

(** * The deviation read-outs *)

Module ReadoutProps.

Import Chart View.
Import NumberFacts.
Import String.
Local Open Scope float_scope.

(** X23.  The sign shown before the deviation value is ["+"] exactly when both
    prices are available and non-zero and the quote is above the tick
    price; both read-outs are 0 when a price is missing or zero. *)
Theorem deviation_sign (st : State) :
  (deviationSign st = "+"%string <->
   exists p q, currentCoinbasePrice st = Some p /\ chainlinkPrice st = Some q /\
               JS.truthy p = true /\ JS.truthy q = true /\ JS.gt q p = true) /\
  (JS.truthy_opt (currentCoinbasePrice st) = false \/
   JS.truthy_opt (chainlinkPrice st) = false ->
   getDeviationValue st = 0 /\ getDeviationPercentage st = 0).
Proof.
  split.
  - unfold deviationSign, getDeviationValue, JS.truthy_opt, JS.gt.
    destruct (currentCoinbasePrice st) as [p|], (chainlinkPrice st) as [q|]; cbn [negb orb].
    + destruct (JS.truthy p) eqn:Tp, (JS.truthy q) eqn:Tq; cbn [negb orb].
      * rewrite sub_pos_iff. split.
        -- destruct (p <? q) eqn:E; [|discriminate]. intros _. exists p, q. tauto.
        -- intros (p' & q' & Hp & Hq & _ & _ & Hg). inversion Hp; inversion Hq; subst.
           unfold JS.gt in Hg. rewrite Hg. reflexivity.
      * split; [discriminate|]. intros (p' & q' & Hp & Hq & _ & Hq' & _).
        inversion Hq; subst. congruence.
      * split; [discriminate|]. intros (p' & q' & Hp & Hq & Hp' & _).
        inversion Hp; subst. congruence.
      * split; [discriminate|]. intros (p' & q' & Hp & Hq & Hp' & _).
        inversion Hp; subst. congruence.
    + destruct (JS.truthy p); cbn [negb orb]; (split; [discriminate|]);
        intros (p' & q' & _ & Hq & _); discriminate.
    + split; [discriminate|]. intros (p' & q' & Hp & _); discriminate.
    + split; [discriminate|]. intros (p' & q' & Hp & _); discriminate.
  - intros H. unfold getDeviationValue, getDeviationPercentage.
    destruct H as [H|H]; rewrite H; cbn [negb orb]; [tauto|].
    rewrite orb_true_r. tauto.
Qed.

End ReadoutProps.

(** * The CDE while the oracle follows the reference price *)

Module QuietFeed.

Import CDE Chart Effects.
Import FloatSpec FloatTheory FloatFacts NumberFacts.
Local Open Scope float_scope.

Lemma is_zero_spec x : is_zero x = true <-> exists s, Prim2SF x = S754_zero s.
Proof.
  unfold is_zero. rewrite eqb_spec. unfold SFeqb. change (Prim2SF zero) with (S754_zero false).
  destruct (Prim2SF x) as [s|s| |s m e]; cbn [SFcompare].
  - split; [intros _; exists s; reflexivity|reflexivity].
  - split; [destruct s; discriminate|intros (s' & H); discriminate].
  - split; [discriminate|intros (s' & H); discriminate].
  - split; [destruct s; discriminate|intros (s' & H); discriminate].
Qed.

Lemma zero_add_zero z : is_zero z = true -> 0 + z = 0.
Proof.
  intros H. apply is_zero_spec in H. destruct H as (s & E).
  apply Prim2SF_inj. rewrite add_spec, E. destruct s; reflexivity.
Qed.

Lemma zero_mul_finite y : is_finite y = true -> is_zero (0 * y) = true.
Proof.
  intros F. apply is_finite_spec in F. apply is_zero_spec. rewrite mul_spec.
  change (Prim2SF 0) with (S754_zero false).
  destruct (Prim2SF y) as [s|s| |s m e]; cbn [sf_finite] in F; try tauto.
  - eexists. reflexivity.
  - eexists. reflexivity.
Qed.

Lemma zero_div_1000 z : is_zero z = true -> is_zero (z / 1000) = true.
Proof.
  intros H. apply is_zero_spec in H. destruct H as (s & E).
  apply is_zero_spec. rewrite div_spec, E. eexists. reflexivity.
Qed.

Lemma area_no_deviation prev curr :
  oracle curr = ref curr -> is_finite (t curr - t prev) = true ->
  is_finite (ref curr - oracle curr) = true -> is_zero (area prev curr) = true.
Proof.
  intros E Ft Fd. unfold area, JS.Math_abs. rewrite E in *.
  destruct (sub_finite_inv _ _ Fd) as [Fr _]. rewrite (sub_self _ Fr).
  change (abs 0) with 0. apply zero_div_1000, zero_mul_finite. exact Ft.
Qed.

Lemma cde_pairs_no_deviation rest : forall prev,
  finite_steps (prev :: rest) = true ->
  Forall (fun point => oracle point = ref point) rest ->
  cde_pairs prev rest 0 = 0.
Proof.
  induction rest as [|curr rest IH]; intros prev Hf Ho; [reflexivity|].
  cbn [cde_pairs]. cbn [finite_steps] in Hf.
  apply andb_true_iff in Hf. destruct Hf as [Hf1 Hf].
  apply andb_true_iff in Hf1. destruct Hf1 as [Ft Fd].
  inversion Ho as [|? ? Hc Ho']; subst.
  rewrite (zero_add_zero _ (area_no_deviation prev curr Hc Ft Fd)).
  apply IH; assumption.
Qed.

Lemma calculateCDE_no_deviation_aux p :
  finite_steps p = true -> Forall (fun point => oracle point = ref point) p ->
  calculateCDE p = 0.
Proof.
  intros Hf Ho. destruct p as [|first rest]; [reflexivity|].
  rewrite CDEProps.calculateCDE_pairs. inversion Ho; subst.
  apply cde_pairs_no_deviation; assumption.
Qed.

(** X24.  A sequence on which the oracle price equals the reference price at
    every point has a CDE of exactly 0, in whatever order its timestamps
    come, when its elapsed times and deviations are finite. *)
Theorem calculateCDE_no_deviation (p : list PricePoint) :
  finite_steps p = true -> Forall (fun point => oracle point = ref point) p ->
  calculateCDE p = 0.
Proof.
  intros Hf Ho. destruct p as [|first rest]; [reflexivity|].
  rewrite CDEProps.calculateCDE_pairs.
  apply cde_pairs_no_deviation; [exact Hf|]. inversion Ho; assumption.
Qed.

Lemma calculateCDE_no_deviation_witness :
  calculateCDE [{| t := 2000; ref := 100; oracle := 100 |};
                {| t := 1000; ref := 103; oracle := 103 |};
                {| t := 3000; ref := 99; oracle := 99 |}] = 0.
Proof.
  apply calculateCDE_no_deviation; [reflexivity|repeat constructor].
Defined.

Lemma appendedPoints_follow evs : forall quote,
  JS.truthy_opt quote = false -> Forall (fun ev => usableQuote ev = false) evs ->
  Forall (fun point => oracle point = ref point) (appendedPoints evs quote).
Proof.
  induction evs as [|ev evs IH]; intros quote Hq Hevs; [constructor|].
  inversion Hevs as [|? ? Hev Hevs']; subst.
  destruct ev as [[price|] now|price]; cbn [appendedPoints].
  - constructor; [|apply IH; assumption].
    unfold tickPoint, JS.or_else, JS.truthy_opt in *. cbn [oracle ref].
    destruct quote as [q|]; [rewrite Hq|]; reflexivity.
  - apply IH; assumption.
  - apply IH; [exact Hev|assumption].
Qed.

Lemma Forall_skipn {A} (P : A -> Prop) (n : nat) (l : list A) :
  Forall P l -> Forall P (skipn n l).
Proof.
  intros H. rewrite <- (firstn_skipn n l) in H. apply Forall_app in H. tauto.
Qed.

(** X25.  Until a usable quote arrives (one that is neither 0 nor NaN), every
    point enters the buffer with its oracle price equal to its reference
    price, and the displayed CDE is exactly 0 as long as the elapsed times
    and the prices of the buffer are finite. *)
Theorem cde_zero_without_quote Math_pow (params : Params) (evs : list Event) :
  let st := run Math_pow params evs initial in
  Forall (fun ev => usableQuote ev = false) evs ->
  Forall (fun point => oracle point = ref point) (data st) /\
  (finite_steps (data st) = true -> cde st = 0).
Proof.
  intros st Hevs.
  assert (Ho : Forall (fun point => oracle point = ref point) (data st)).
  { unfold st. rewrite BufferProps.run_appends. cbn [initial data chainlinkPrice].
    pose proof (appendedPoints_follow evs None eq_refl Hevs) as H.
    destruct (appendedPoints evs None) as [|point points] eqn:E; [constructor|].
    rewrite BufferProps.appendAll_slice by discriminate. cbn [app].
    apply Forall_skipn. exact H. }
  split; [exact Ho|]. intros Hf.
  destruct (RunProps.run_inSync Math_pow params evs initial) as (Hc & _).
  { repeat split. }
  fold st in Hc. rewrite Hc. apply calculateCDE_no_deviation_aux; assumption.
Qed.

Lemma cde_zero_without_quote_witness :
  let evs := [Message (Ticker 100) 0; Quote 0; Message (Ticker 103) 1000;
              Message Other 1500; Message (Ticker 99) 2000] in
  let st := run Thresholds.pow_square default_params evs initial in
  Forall (fun point => oracle point = ref point) (data st) /\ cde st = 0.
Proof.
  intros evs st.
  destruct (cde_zero_without_quote Thresholds.pow_square default_params evs) as [Ho Hc].
  { repeat constructor. }
  split; [exact Ho|]. apply Hc. reflexivity.
Defined.

End QuietFeed.

(** * The CDE chart and windows over prices that are not numbers *)

Module ChartSeriesProps.

Import CDE Chart Effects View.
Import FloatSpec FloatTheory FloatFacts NumberFacts.
Local Open Scope float_scope.

(** X26.  The CDE chart pairs each buffered point with the entry of
    [cdeValues] at its index.  Once the effects have run, the chart has
    one point per buffered point, with the timestamp of that point and a
    defined CDE value, the one of the CDE series at the same index.  In
    the render between the handler and the effects this is not so: while
    the buffer holds fewer than 1000 points, the chart then has one point
    more than [cdeValues] has entries, and the CDE value of that newest
    point is [undefined]. *)
Theorem cde_chart_defined Math_pow (params : Params) (evs : list Event)
    (price now : float) :
  let st := run Math_pow params evs initial in
  let rendered := handleWebSocketMessage params (Ticker price) now st in
  (length (cdeChartData st) = length (data st) /\
   forall i point, nth_error (data st) i = Some point ->
     nth_error (cdeChartData st) i
     = Some (t point,
             Some (if (i <? 2)%nat then 0 else calculateCDE (firstn (i + 1) (data st))))) /\
  ((length (data st) < 1000)%nat ->
   length (cdeChartData rendered) = S (length (cdeValues rendered)) /\
   nth_error (cdeChartData rendered) (length (data st)) = Some (now, None)).
Proof.
  intros st rendered.
  destruct (RunProps.run_inSync Math_pow params evs initial) as (_ & _ & Hv & _).
  { repeat split. }
  fold st in Hv. split.
  - unfold cdeChartData, Thresholds.mapi. split.
    + apply SeriesProps.mapi_from_length.
    + intros i point Hn.
      rewrite SeriesProps.mapi_from_nth_error, Hn. cbn [option_map Nat.add].
      rewrite Hv, CDESeries.cdeSeries_nth_error; [reflexivity|].
      apply nth_error_Some. rewrite Hn. discriminate.
  - intros Hlen.
    assert (Hd : data rendered
                 = (data st ++ [tickPoint (chainlinkPrice st) now price])%list).
    { unfold rendered, handleWebSocketMessage. cbn [data]. unfold appendPoint.
      destruct (Nat.ltb_spec 1000 (length (data st ++ [tickPoint (chainlinkPrice st) now price])))
        as [H|H]; [|reflexivity].
      rewrite length_app in H. cbn [length] in H. lia. }
    assert (Hc : cdeValues rendered = cdeSeries (data st)) by exact Hv.
    assert (Hl : length (cdeSeries (data st)) = length (data st)).
    { unfold cdeSeries, Thresholds.mapi. apply SeriesProps.mapi_from_length. }
    unfold cdeChartData, Thresholds.mapi. split.
    + rewrite SeriesProps.mapi_from_length, Hd, Hc, Hl, length_app. cbn [length]. lia.
    + rewrite SeriesProps.mapi_from_nth_error, Hd, nth_error_app2 by lia.
      rewrite Nat.sub_diag. cbn [nth_error option_map Nat.add tickPoint t].
      rewrite Hc. f_equal. f_equal. apply nth_error_None. rewrite Hl. lia.
Qed.

Lemma cde_chart_defined_witness :
  let evs := [Message (Ticker 100) 0; Quote 101; Message (Ticker 102) 1000] in
  let st := run Thresholds.pow_square default_params evs initial in
  let rendered := handleWebSocketMessage default_params (Ticker 103) 2000 st in
  length (cdeChartData rendered) = S (length (cdeValues rendered)) /\
  nth_error (cdeChartData rendered) 2 = Some (2000, None).
Proof.
  intros evs st rendered.
  apply (proj2 (cde_chart_defined Thresholds.pow_square default_params evs 103 2000)).
  vm_compute. lia.
Defined.

Lemma nan_sub_l x y : is_nan x = true -> is_nan (x - y) = true.
Proof.
  rewrite !is_nan_true_spec, sub_spec. intros E. rewrite E. reflexivity.
Qed.

Lemma lows_nan selected :
  Exists (fun point => is_nan (ref point) = true \/ is_nan (oracle point) = true) selected ->
  Exists (fun x => is_nan x = true)
         (map (fun item => JS.Math_min (ref item) (oracle item)) selected).
Proof.
  induction 1 as [point l H|point l _ IH]; cbn [map].
  - left. rewrite Math_min_nan by exact H. reflexivity.
  - right. exact IH.
Qed.

Lemma highs_nan selected :
  Exists (fun point => is_nan (ref point) = true \/ is_nan (oracle point) = true) selected ->
  Exists (fun x => is_nan x = true)
         (map (fun item => JS.Math_max (ref item) (oracle item)) selected).
Proof.
  induction 1 as [point l H|point l _ IH]; cbn [map].
  - left. rewrite Math_max_nan by exact H. reflexivity.
  - right. exact IH.
Qed.

Lemma allPrices_nan data :
  Exists (fun point => is_nan (ref point) = true \/ is_nan (oracle point) = true) data ->
  Exists (fun x => is_nan x = true) (allPrices data).
Proof.
  unfold allPrices. induction 1 as [point l H|point l _ IH]; cbn [map concat app].
  - destruct H as [H|H]; [left; exact H|right; left; exact H].
  - right. right. exact IH.
Qed.

(** X27.  One price that is not a number spoils a window.  When the reference
    or the oracle price of a selected point is NaN, both bounds of the
    zoom window are NaN; when this holds for a point of the buffer, both
    bounds of the automatic Y domain are NaN. *)
Theorem nan_price_spoils_window (data : list PricePoint) (l r factor : float) :
  (Exists (fun point => is_nan (ref point) = true \/ is_nan (oracle point) = true)
          (selectedData data l r) ->
   minValue (selectedData data l r) = nan /\ maxValue (selectedData data l r) = nan) /\
  (Exists (fun point => is_nan (ref point) = true \/ is_nan (oracle point) = true) data ->
   exists lo hi,
     autoDomain data factor = Some (lo, hi) /\ is_nan lo = true /\ is_nan hi = true).
Proof.
  split.
  - intros H. unfold minValue, maxValue.
    rewrite (Math_min_all_nan _ (lows_nan _ H)), (Math_max_all_nan _ (highs_nan _ H)).
    split; reflexivity.
  - intros H. pose proof (allPrices_nan data H) as Hx.
    unfold autoDomain.
    rewrite (Math_min_all_nan _ Hx), (Math_max_all_nan _ Hx).
    destruct (allPrices data) as [|x xs]; [inversion Hx|]. cbn [List.length Nat.eqb].
    eexists _, _. split; [reflexivity|]. split.
    + apply nan_sub_l. reflexivity.
    + apply SimulatorLoop.nan_add_l. reflexivity.
Qed.

Lemma nan_price_spoils_window_witness :
  let data := [{| t := 0; ref := 100; oracle := 101 |};
               {| t := 1000; ref := nan; oracle := 101 |}] in
  minValue (selectedData data 0 2000) = nan /\ maxValue (selectedData data 0 2000) = nan.
Proof.
  intros data.
  apply (proj1 (nan_price_spoils_window data 0 2000 0.02)).
  right. left. left. reflexivity.
Defined.

End ChartSeriesProps.

(** * Mouse gestures: press, move and release *)

Module GestureProps.

Import View.
Import String.
Local Open Scope float_scope.

Lemma activeLabel_some s : s <> EmptyString -> activeLabel (Some s) = Some s.
Proof.
  intros H. unfold activeLabel. apply eqb_neq in H. rewrite H. reflexivity.
Qed.

(** X28.  A gesture on the first chart, starting with no selection.  Releasing
    after a press without a move, after a move back to the label of the
    press, or after a move without a press clears the selection and zooms
    nothing.  Pressing on [a], moving to another label [b] and releasing
    stores the window between the parsed labels, in increasing order, with
    the smallest and largest price of the points selected. *)
Theorem main_chart_gesture parseInt (data : list PricePoint) (c : MainChart)
    (a b : string) :
  refAreaLeft c = EmptyString -> refAreaRight c = EmptyString ->
  a <> EmptyString -> b <> EmptyString ->
  let cleared := {| refAreaLeft := EmptyString; refAreaRight := EmptyString;
                    left := left c; right := right c; top := top c; bottom := bottom c |} in
  zoom parseInt data (onMouseDown (Some a) c) = cleared /\
  zoom parseInt data (onMouseMove (Some a) (onMouseDown (Some a) c)) = cleared /\
  zoom parseInt data (onMouseMove (Some b) c) = cleared /\
  (a <> b ->
   let leftNum := fst (ordered (parseInt a) (parseInt b)) in
   let rightNum := snd (ordered (parseInt a) (parseInt b)) in
   let selected := selectedData data leftNum rightNum in
   zoom parseInt data (onMouseMove (Some b) (onMouseDown (Some a) c))
   = {| refAreaLeft := EmptyString; refAreaRight := EmptyString;
        left := Some leftNum; right := Some rightNum;
        top := Some (maxValue selected); bottom := Some (minValue selected) |}).
Proof.
  intros Hl Hr Ha Hb cleared.
  assert (Hdown : onMouseDown (Some a) c
                  = {| refAreaLeft := a; refAreaRight := EmptyString;
                       left := left c; right := right c; top := top c; bottom := bottom c |}).
  { unfold onMouseDown. rewrite (activeLabel_some a Ha), Hr. reflexivity. }
  assert (Hmove : forall x, x <> EmptyString ->
            onMouseMove (Some x) (onMouseDown (Some a) c)
            = {| refAreaLeft := a; refAreaRight := x;
                 left := left c; right := right c; top := top c; bottom := bottom c |}).
  { intros x Hx. rewrite Hdown. unfold onMouseMove. cbn [refAreaLeft].
    apply eqb_neq in Ha. rewrite Ha, (activeLabel_some x Hx). reflexivity. }
  split; [|split; [|split]].
  - rewrite Hdown. unfold zoom. cbn [refAreaLeft refAreaRight].
    rewrite (eqb_refl EmptyString), orb_true_r. reflexivity.
  - rewrite (Hmove a Ha). unfold zoom. cbn [refAreaLeft refAreaRight].
    rewrite (eqb_refl a). reflexivity.
  - unfold onMouseMove. rewrite Hl, (eqb_refl EmptyString).
    unfold zoom. rewrite Hl, Hr, (eqb_refl EmptyString). reflexivity.
  - intros Hab leftNum rightNum selected. rewrite (Hmove b Hb).
    unfold zoom. cbn [refAreaLeft refAreaRight].
    apply eqb_neq in Hab, Hb. rewrite Hab, Hb. cbn [orb].
    unfold selected, leftNum, rightNum. destruct (ordered _ _). reflexivity.
Qed.

Lemma main_chart_gesture_witness :
  let data := [{| t := 0; ref := 100; oracle := 101 |};
               {| t := 1000; ref := 103; oracle := 99 |};
               {| t := 2000; ref := 104; oracle := 98 |}] in
  let parseInt := fun s : string => if eqb s "late"%string then 1500 else 500 in
  zoom parseInt data (onMouseMove (Some "early"%string) (onMouseDown (Some "late"%string) mainChart_initial))
  = {| refAreaLeft := EmptyString; refAreaRight := EmptyString;
       left := Some 500; right := Some 1500; top := Some 103; bottom := Some 99 |}.
Proof.
  intros data parseInt.
  refine (proj2 (proj2 (proj2 (main_chart_gesture parseInt data mainChart_initial
                                  "late"%string "early"%string eq_refl eq_refl _ _))) _);
    discriminate.
Defined.

(** X29.  A press and release without a move on the second chart.  On a chart
    whose right bound was never set it zooms nothing and only records the
    pressed label as left bound.  Once a right bound is stored (it is
    never cleared), the same click zooms: the window lies between the
    pressed label and the stored right bound.  A move is ignored while the
    left bound is [undefined], 0 or NaN. *)
Theorem second_chart_click Number (data : list PricePoint) (c : SecondChart) (a : string) :
  a <> EmptyString ->
  (secondChartRight c = None ->
   zoomSecondChart data (onSecondChartMouseDown Number (Some a) c)
   = {| secondChartLeft := Some (Number a); secondChartRight := None;
        secondChartTop := secondChartTop c; secondChartBottom := secondChartBottom c |}) /\
  (forall r, secondChartRight c = Some r ->
     let leftNum := fst (ordered (Number a) r) in
     let rightNum := snd (ordered (Number a) r) in
     let selected := selectedData data leftNum rightNum in
     zoomSecondChart data (onSecondChartMouseDown Number (Some a) c)
     = {| secondChartLeft := Some leftNum; secondChartRight := Some rightNum;
          secondChartTop := Some (maxValue selected);
          secondChartBottom := Some (minValue selected) |}) /\
  (JS.truthy_opt (secondChartLeft c) = false ->
   onSecondChartMouseMove Number (Some a) c = c).
Proof.
  intros Ha.
  assert (Hdown : onSecondChartMouseDown Number (Some a) c
                  = {| secondChartLeft := Some (Number a);
                       secondChartRight := secondChartRight c;
                       secondChartTop := secondChartTop c;
                       secondChartBottom := secondChartBottom c |}).
  { unfold onSecondChartMouseDown. rewrite (activeLabel_some a Ha). reflexivity. }
  split; [|split].
  - intros Hr. rewrite Hdown, Hr. reflexivity.
  - intros r Hr leftNum rightNum selected. rewrite Hdown, Hr.
    unfold zoomSecondChart. cbn [secondChartLeft secondChartRight].
    unfold selected, leftNum, rightNum. destruct (ordered _ _). reflexivity.
  - intros H. unfold onSecondChartMouseMove. rewrite H. reflexivity.
Qed.

Lemma second_chart_click_witness :
  let data := [{| t := 0; ref := 100; oracle := 101 |};
               {| t := 1000; ref := 103; oracle := 99 |};
               {| t := 2000; ref := 104; oracle := 98 |}] in
  let c := {| secondChartLeft := Some 0; secondChartRight := Some 1500;
              secondChartTop := Some 104; secondChartBottom := Some 98 |} in
  zoomSecondChart data (onSecondChartMouseDown (fun _ => 500) (Some "label"%string) c)
  = {| secondChartLeft := Some 500; secondChartRight := Some 1500;
       secondChartTop := Some 103; secondChartBottom := Some 99 |}.
Proof.
  intros data c.
  refine (proj1 (proj2 (second_chart_click (fun _ => 500) data c "label"%string _)) 1500 eq_refl).
  discriminate.
Defined.

End GestureProps.

(** * Whole numbers among the floats: counters and indices *)

Module IntegerFacts.

Import FloatSpec FloatTheory FloatFacts NumberFacts.
Local Open Scope float_scope.

(** A value that some finite float has is rounded to itself. *)
Lemma rounds_to_unique v out r :
  rounds_to v out -> SpecFloat.valid_binary prec emax r = true -> sf_finite r -> xv r = v ->
  xv out = v.
Proof.
  intros [_ H] V F E. destruct (H r V F) as [H1 H2]. subst v.
  apply Z.le_antisymm; [apply H2|apply H1]; lia.
Qed.

(** Every integer from 0 to [2^53] is a float. *)
Lemma integer_representable M : (0 <= M <= 2 ^ 53)%Z ->
  exists r, SpecFloat.valid_binary prec emax r = true /\ sf_finite r /\
            xv r = (M * 2 ^ B)%Z.
Proof.
  intros HM. destruct M as [|p|p]; [| |lia].
  - exists (S754_zero false). repeat split.
  - destruct (Z.eq_dec (Zpos p) (2 ^ 53)) as [E|NE].
    + exists (S754_finite false 4503599627370496 1). rewrite E. repeat split.
    + pose proof (digits2_bounds p) as D.
      assert (Hd : (Zpos (digits2_pos p) <= 53)%Z).
      { destruct (Z.le_gt_cases (Zpos (digits2_pos p)) 53) as [H|H]; [exact H|].
        exfalso. assert (2 ^ 53 <= 2 ^ (Zpos (digits2_pos p) - 1))%Z
          by (apply Z.pow_le_mono_r; lia). lia. }
      destruct (Z.eq_dec (Zpos (digits2_pos p)) 53) as [E53|N53].
      * exists (S754_finite false p 0). split; [|split].
        -- cbn [SpecFloat.valid_binary]. unfold bounded, canonical_mantissa.
           rewrite E53. reflexivity.
        -- exact I.
        -- cbn [xv sgn]. unfold val. rewrite Z.add_0_l. reflexivity.
      * assert (Hs : (0 < 53 - Zpos (digits2_pos p))%Z) by lia.
        destruct (53 - Zpos (digits2_pos p))%Z as [|d|d] eqn:Ed; try lia.
        exists (S754_finite false (Pos.iter xO p d) (- Zpos d)). split; [|split].
        -- cbn [SpecFloat.valid_binary]. unfold bounded, canonical_mantissa.
           rewrite iter_xO_digits.
           replace (Zpos (digits2_pos p) + Zpos d + - Zpos d)%Z
             with (Zpos (digits2_pos p)) by lia.
           assert (Hf : fexp prec emax (Zpos (digits2_pos p)) = (- Zpos d)%Z).
           { rewrite fexp64_eq. lia. }
           rewrite Hf, Z.eqb_refl. cbn [andb]. apply Z.leb_le.
           change (emax - prec)%Z with 971%Z. lia.
        -- exact I.
        -- cbn [xv sgn]. unfold val. rewrite iter_xO_val.
           replace (- Zpos d + B)%Z with (B - Zpos d)%Z by lia.
           rewrite <- Z.mul_assoc, <- Z.pow_add_r by (unfold B; lia).
           f_equal. f_equal. lia.
Qed.

(** Counters and indices up to [2^53] are exact. *)
Lemma of_nat_exact k : (Z.of_nat k <= 2 ^ 53)%Z ->
  is_finite (JS.of_nat k) = true /\ FV (JS.of_nat k) = (Z.of_nat k * 2 ^ B)%Z.
Proof.
  intros Hk. split; [apply is_finite_spec, of_nat_spec|].
  unfold FV, JS.of_nat. rewrite of_uint63_spec, Uint63.of_Z_spec.
  rewrite Z.mod_small by (change Uint63Axioms.wB with (2 ^ 63)%Z; lia).
  destruct (integer_representable (Z.of_nat k) ltac:(lia)) as (r & V & F & E).
  apply (rounds_to_unique _ _ r); trivial.
  pose proof (binary_normalize_rounds (Z.of_nat k) 0 ltac:(lia)) as R.
  unfold val in R. rewrite Z.add_0_l in R. exact R.
Qed.

Lemma eqb_spec_FV x y : is_nan x = false -> is_nan y = false ->
  (x =? y) = (FV x =? FV y)%Z.
Proof.
  rewrite !is_nan_spec. intros Nx Ny. rewrite eqb_spec. unfold SFeqb, FV.
  rewrite SFcompare_xv by (try apply Prim2SF_valid; assumption).
  rewrite Z.eqb_compare. destruct (xv (Prim2SF x) ?= xv (Prim2SF y))%Z; reflexivity.
Qed.

(** Two finite numbers with the same value that is not zero are the same
    float. *)
Lemma eq_of_FV x y : is_finite x = true -> is_finite y = true ->
  FV x = FV y -> FV x <> 0%Z -> x = y.
Proof.
  intros Fx Fy E Hnz. apply Prim2SF_inj.
  pose proof (SFcompare_xv (Prim2SF x) (Prim2SF y) (Prim2SF_valid x) (Prim2SF_valid y)) as C.
  apply is_finite_spec in Fx, Fy. unfold FV in *.
  rewrite E, Z.compare_refl in C.
  destruct (Prim2SF x) as [sx|sx| |sx mx ex], (Prim2SF y) as [sy|sy| |sy my ey];
    cbn [sf_finite sf_notnan] in *; try tauto.
  specialize (C I I). cbn [SFcompare] in C.
  destruct sx, sy; try discriminate.
  - destruct (Z.compare_spec ex ey) as [->|H|H]; try discriminate.
    inversion C as [C']. destruct (Pos.compare_cont Eq mx my) eqn:P; try discriminate.
    apply Pos.compare_eq in P. subst. reflexivity.
  - destruct (Z.compare_spec ex ey) as [->|H|H]; try discriminate.
    inversion C as [C']. apply Pos.compare_eq in C'. subst. reflexivity.
Qed.

Lemma FV_of_nat_pos k : (Z.of_nat k <= 2 ^ 53)%Z -> (0 < k)%nat ->
  (0 < FV (JS.of_nat k))%Z.
Proof.
  intros Hk Hp. rewrite (proj2 (of_nat_exact k Hk)).
  pose proof pow2B_pos. nia.
Qed.

(** [t++] on a counter below [2^53]. *)
Lemma of_nat_succ k : (Z.of_nat k < 2 ^ 53)%Z -> JS.of_nat k + 1 = JS.of_nat (S k).
Proof.
  intros Hk.
  destruct (of_nat_exact k ltac:(lia)) as [Fk Ek].
  destruct (of_nat_exact (S k) ltac:(lia)) as [Fs Es].
  pose proof (add_rounds (JS.of_nat k) 1 Fk eq_refl) as R.
  rewrite Ek, FV_one in R.
  assert (E : FV (JS.of_nat k + 1) = (Z.of_nat (S k) * 2 ^ B)%Z).
  { unfold FV at 1. apply (rounds_to_unique _ _ (Prim2SF (JS.of_nat (S k)))).
    - replace (Z.of_nat (S k) * 2 ^ B)%Z with (Z.of_nat k * 2 ^ B + 2 ^ B)%Z by lia.
      exact R.
    - apply Prim2SF_valid.
    - apply is_finite_spec. exact Fs.
    - exact Es. }
  apply eq_of_FV.
  - apply finite_of_bounds; [exact (rounds_notnan _ _ R)|].
    rewrite E, <- Es. apply FV_lt_INF. exact Fs.
  - exact Fs.
  - rewrite E, Es. reflexivity.
  - rewrite E. pose proof pow2B_pos. nia.
Qed.

(** Beyond [2^53] the counter does not move. *)
Lemma of_nat_stuck k : Z.of_nat k = (2 ^ 53)%Z -> JS.of_nat k + 1 = JS.of_nat k.
Proof. intros E. unfold JS.of_nat. rewrite E. vm_compute. reflexivity. Qed.

Lemma of_nat_ltb k x : (Z.of_nat k <= 2 ^ 53)%Z -> is_nan x = false ->
  (JS.of_nat k <? x) = (Z.of_nat k * 2 ^ B <? FV x)%Z.
Proof.
  intros Hk Nx. destruct (of_nat_exact k Hk) as [Fk Ek].
  rewrite (ltb_spec_FV _ _ (is_finite_notnan _ Fk) Nx), Ek. reflexivity.
Qed.

(** The test [t < duration] holds at every counter below one at which it
    holds. *)
Lemma guard_below k m duration : (k <= m)%nat -> (Z.of_nat m <= 2 ^ 53)%Z ->
  (JS.of_nat m <? duration) = true -> (JS.of_nat k <? duration) = true.
Proof.
  intros Hkm Hm H. destruct (ltb_true_notnan _ _ H) as [_ Nd].
  rewrite of_nat_ltb in * by (trivial; lia).
  apply Z.ltb_lt in H. apply Z.ltb_lt. pose proof pow2B_pos. nia.
Qed.

(** The difference of two counters, cut off at 0, is the counter of the
    difference. *)
Lemma max_sub_exact k L : (Z.of_nat k <= 2 ^ 53)%Z -> (Z.of_nat L <= 2 ^ 53)%Z ->
  is_nan (JS.Math_max 0 (JS.of_nat k - JS.of_nat L)) = false /\
  FV (JS.Math_max 0 (JS.of_nat k - JS.of_nat L)) = (Z.of_nat (k - L) * 2 ^ B)%Z.
Proof.
  intros Hk HL.
  destruct (of_nat_exact k Hk) as [Fk Ek], (of_nat_exact L HL) as [FL EL].
  pose proof (sub_rounds _ _ Fk FL) as R. rewrite Ek, EL in R.
  pose proof (rounds_notnan _ _ R) as N.
  split; [apply Math_max_notnan; [reflexivity|exact N]|].
  rewrite Math_max_FV by (trivial; reflexivity). rewrite FV_zero.
  pose proof pow2B_pos as HB.
  destruct (Nat.le_gt_cases L k) as [Hle|Hgt].
  - destruct (of_nat_exact (k - L) ltac:(lia)) as [Fd Ed].
    assert (E : FV (JS.of_nat k - JS.of_nat L) = (Z.of_nat (k - L) * 2 ^ B)%Z).
    { unfold FV at 1. apply (rounds_to_unique _ _ (Prim2SF (JS.of_nat (k - L)))).
      - replace (Z.of_nat (k - L) * 2 ^ B)%Z
          with (Z.of_nat k * 2 ^ B - Z.of_nat L * 2 ^ B)%Z by nia.
        exact R.
      - apply Prim2SF_valid.
      - apply is_finite_spec. exact Fd.
      - exact Ed. }
    rewrite E. nia.
  - assert (Hle : (FV (JS.of_nat k - JS.of_nat L) <= FV 0)%Z).
    { apply (rounds_le _ _ 0 R eq_refl). rewrite FV_zero. nia. }
    rewrite FV_zero in Hle. replace (k - L)%nat with 0%nat by lia.
    change (Z.of_nat 0) with 0%Z. lia.
Qed.

(** Reading an array at a number that is an integer below [2^53]. *)
Lemma at_index_integer {A} (arr : list A) x m :
  (Z.of_nat (length arr) <= 2 ^ 53)%Z -> is_nan x = false ->
  FV x = (Z.of_nat m * 2 ^ B)%Z ->
  NumericSimulator.at_index arr x = nth_error arr m.
Proof.
  intros Hlen Nx Ex. unfold NumericSimulator.at_index.
  assert (Hf : forall n i, (i + n <= length arr)%nat ->
            find (fun k => JS.of_nat k =? x) (seq i n)
            = if ((i <=? m)%nat && (m <? i + n)%nat)%bool then Some m else None).
  { induction n as [|n IH]; intros i Hi; cbn [seq find].
    - destruct (Nat.leb_spec i m), (Nat.ltb_spec m (i + 0)); cbn [andb]; try reflexivity; lia.
    - destruct (of_nat_exact i ltac:(lia)) as [Fi Ei].
      rewrite (eqb_spec_FV _ _ (is_finite_notnan _ Fi) Nx), Ei, Ex.
      pose proof pow2B_pos as HB.
      destruct (Z.eqb_spec (Z.of_nat i * 2 ^ B) (Z.of_nat m * 2 ^ B)) as [E|NE].
      + assert (i = m) by nia. subst i.
        destruct (Nat.leb_spec m m), (Nat.ltb_spec m (m + S n)); cbn [andb];
          try reflexivity; lia.
      + rewrite IH by lia. assert (i <> m) by (intros ->; congruence).
        destruct (Nat.leb_spec (S i) m), (Nat.ltb_spec m (S i + n)),
          (Nat.leb_spec i m), (Nat.ltb_spec m (i + S n)); cbn [andb];
          try reflexivity; lia. }
  rewrite (Hf (length arr) 0%nat) by lia. cbn [Nat.leb andb Nat.add].
  destruct (Nat.ltb_spec m (length arr)) as [H|H]; [reflexivity|].
  symmetry. apply nth_error_None. exact H.
Qed.

(** Reading at a number that is no index of the array. *)
Lemma at_index_none {A} (arr : list A) x :
  (forall j, (j < length arr)%nat -> (JS.of_nat j =? x) = false) ->
  NumericSimulator.at_index arr x = None.
Proof.
  intros H. unfold NumericSimulator.at_index.
  destruct (find _ _) as [k|] eqn:E; [|reflexivity].
  apply find_some in E. destruct E as [Hin Hk]. apply in_seq in Hin.
  rewrite H in Hk by lia. discriminate.
Qed.

End IntegerFacts.

(** * The simulator on numbers: duration and lag *)

Module NumericSimulatorProps.

Import NumericSimulator.
Import FloatSpec FloatTheory FloatFacts NumberFacts IntegerFacts.
Local Open Scope float_scope.

Lemma of_nat_0 : JS.of_nat 0 = 0.
Proof. vm_compute. reflexivity. Qed.

Section Loop.

Variable Math_sin : float -> float.
Variable Math_random : nat -> float.
Variable o : Options.

(** What one iteration appends. *)
Lemma body_spec t0 s :
  exists point,
    prices (body Math_sin Math_random o t0 s) = prices s ++ [point] /\
    refPrices (body Math_sin Math_random o t0 s) = refPrices s ++ [ref point] /\
    lastRef (body Math_sin Math_random o t0 s) = ref point /\
    draws (body Math_sin Math_random o t0 s)
    = S (snd (nextRef Math_sin Math_random o t0 s)) /\
    t point = t0 /\
    ref point = fst (nextRef Math_sin Math_random o t0 s) /\
    oracle point
    = match at_index (refPrices s ++ [ref point])
              (JS.Math_max 0 (t0 - oracleLag o)) with
      | Some price => price
      | None => nan
      end
      + (Math_random (snd (nextRef Math_sin Math_random o t0 s)) - 0.5) * oracleNoise o.
Proof.
  unfold body. destruct (nextRef _ _ _ _ _) as [r d]. cbn [fst snd].
  eexists. cbn [prices refPrices lastRef draws]. split; [reflexivity|].
  cbn [t ref oracle]. repeat split.
Qed.

Lemma steps_snoc n : forall k s, (Z.of_nat (k + n) < 2 ^ 53)%Z ->
  steps Math_sin Math_random o (JS.of_nat k) (S n) s
  = body Math_sin Math_random o (JS.of_nat (k + n))
      (steps Math_sin Math_random o (JS.of_nat k) n s).
Proof.
  induction n as [|n IH]; intros k s Hk.
  - rewrite Nat.add_0_r. reflexivity.
  - change (steps Math_sin Math_random o (JS.of_nat k) (S (S n)) s)
      with (steps Math_sin Math_random o (JS.of_nat k + 1) (S n)
              (body Math_sin Math_random o (JS.of_nat k) s)).
    rewrite of_nat_succ by lia. rewrite IH by lia.
    replace (S k + n)%nat with (k + S n)%nat by lia.
    cbn [steps]. rewrite of_nat_succ by lia. reflexivity.
Qed.

Lemma before_succ k : (Z.of_nat k < 2 ^ 53)%Z ->
  before Math_sin Math_random o (S k)
  = body Math_sin Math_random o (JS.of_nat k) (before Math_sin Math_random o k).
Proof.
  intros Hk. unfold before. rewrite <- of_nat_0.
  rewrite steps_snoc by (cbn [Nat.add]; exact Hk). reflexivity.
Qed.

(** What the loop keeps between iterations. *)
Lemma numeric_before_inv k : (Z.of_nat k <= 2 ^ 53)%Z ->
  length (prices (before Math_sin Math_random o k)) = k /\
  map ref (prices (before Math_sin Math_random o k))
  = refPrices (before Math_sin Math_random o k) /\
  map t (prices (before Math_sin Math_random o k)) = map JS.of_nat (seq 0 k) /\
  draws (before Math_sin Math_random o k) = (k * perTick o)%nat /\
  lastRef (before Math_sin Math_random o k)
  = match k with
    | O => basePrice o
    | S j => nth j (refPrices (before Math_sin Math_random o k)) nan
    end.
Proof.
  induction k as [|k IH]; intros Hk.
  - repeat split.
  - destruct (IH ltac:(lia)) as (Hl & Hr & Ht & Hd & _).
    rewrite before_succ by lia.
    destruct (body_spec (JS.of_nat k) (before Math_sin Math_random o k))
      as (point & Hp & Hrp & Hlast & Hdr & Hpt & Hpr & _).
    assert (Hlr : length (refPrices (before Math_sin Math_random o k)) = k)
      by (rewrite <- Hr, length_map; exact Hl).
    rewrite Hp, Hrp, Hlast, Hdr. repeat split.
    + rewrite length_app, Hl. cbn [length]. lia.
    + rewrite map_app, Hr. reflexivity.
    + rewrite map_app, Ht, seq_S, map_app. cbn [map Nat.add]. rewrite Hpt. reflexivity.
    + unfold nextRef, perTick in *. destruct (useRandomWalk o); cbn [snd]; lia.
    + rewrite app_nth2 by lia. rewrite Hlr, Nat.sub_diag. reflexivity.
Qed.

Lemma numeric_before_prefix n : forall k, (k <= n)%nat -> (Z.of_nat n <= 2 ^ 53)%Z ->
  exists more,
    prices (before Math_sin Math_random o n)
    = prices (before Math_sin Math_random o k) ++ more.
Proof.
  induction n as [|n IH]; intros k Hk Hn.
  - replace k with 0%nat by lia. exists []. rewrite app_nil_r. reflexivity.
  - destruct (Nat.eq_dec k (S n)) as [->|Hne].
    + exists []. rewrite app_nil_r. reflexivity.
    + destruct (IH k ltac:(lia) ltac:(lia)) as (more & Hm).
      rewrite before_succ by lia.
      destruct (body_spec (JS.of_nat n) (before Math_sin Math_random o n))
        as (point & Hp & _).
      exists (more ++ [point]). rewrite Hp, Hm, app_assoc. reflexivity.
Qed.

(** The point of iteration [k]. *)
Lemma numeric_point_at n k : (k < n)%nat -> (Z.of_nat n <= 2 ^ 53)%Z ->
  exists point,
    nth_error (prices (before Math_sin Math_random o n)) k = Some point /\
    t point = JS.of_nat k /\
    ref point
    = fst (nextRef Math_sin Math_random o (JS.of_nat k)
             (before Math_sin Math_random o k)) /\
    oracle point
    = match at_index (refPrices (before Math_sin Math_random o (S k)))
              (JS.Math_max 0 (JS.of_nat k - oracleLag o)) with
      | Some price => price
      | None => nan
      end
      + (Math_random (snd (nextRef Math_sin Math_random o (JS.of_nat k)
                             (before Math_sin Math_random o k))) - 0.5)
        * oracleNoise o.
Proof.
  intros Hk Hn.
  destruct (numeric_before_prefix n (S k) ltac:(lia) Hn) as (more & Hm).
  pose proof (before_succ k ltac:(lia)) as E.
  destruct (body_spec (JS.of_nat k) (before Math_sin Math_random o k))
    as (point & Hp & Hrp & _ & _ & Hpt & Hpr & Ho).
  exists point. rewrite Hm, E, Hp, Hrp. repeat split; try assumption.
  rewrite <- app_assoc, nth_error_app2.
  - rewrite (proj1 (numeric_before_inv k ltac:(lia))), Nat.sub_diag. reflexivity.
  - rewrite (proj1 (numeric_before_inv k ltac:(lia))). lia.
Qed.

Lemma numeric_refPrices_nth n k i : (k <= n)%nat -> (Z.of_nat n <= 2 ^ 53)%Z -> (i < k)%nat ->
  exists base,
    nth_error (prices (before Math_sin Math_random o n)) i = Some base /\
    nth_error (refPrices (before Math_sin Math_random o k)) i = Some (ref base).
Proof.
  intros Hk Hn Hi.
  destruct (numeric_before_prefix n k Hk Hn) as (more & Hm).
  destruct (numeric_before_inv k ltac:(lia)) as (Hl & Hr & _).
  destruct (nth_error (prices (before Math_sin Math_random o k)) i) as [base|] eqn:E.
  - exists base. rewrite Hm, nth_error_app1 by lia. split; [exact E|].
    rewrite <- Hr, nth_error_map, E. reflexivity.
  - apply nth_error_None in E. lia.
Qed.

Lemma numeric_draw_index k : (Z.of_nat k <= 2 ^ 53)%Z ->
  snd (nextRef Math_sin Math_random o (JS.of_nat k) (before Math_sin Math_random o k))
  = if useRandomWalk o then (2 * k + 1)%nat else k.
Proof.
  intros Hk. destruct (numeric_before_inv k Hk) as (_ & _ & _ & Hd & _).
  unfold nextRef, perTick in *. destruct (useRandomWalk o); cbn [snd]; lia.
Qed.

(** The loop leaves at the first counter at which [t < duration] fails. *)
Lemma loop_exits duration m : forall k s fuel,
  (Z.of_nat (k + m) <= 2 ^ 53)%Z ->
  (forall j, (k <= j < k + m)%nat -> (JS.of_nat j <? duration) = true) ->
  (JS.of_nat (k + m) <? duration) = false -> (m < fuel)%nat ->
  loop Math_sin Math_random o duration (JS.of_nat k) fuel s
  = Some (steps Math_sin Math_random o (JS.of_nat k) m s).
Proof.
  induction m as [|m IH]; intros k s fuel Hk Hj Hn Hf.
  - destruct fuel as [|fuel]; [lia|]. cbn [loop steps].
    rewrite Nat.add_0_r in Hn. rewrite Hn. reflexivity.
  - destruct fuel as [|fuel]; [lia|]. cbn [loop steps].
    rewrite (Hj k) by lia. rewrite of_nat_succ by lia.
    apply IH; try lia.
    + intros j Hjr. apply Hj. lia.
    + replace (S k + m)%nat with (k + S m)%nat by lia. exact Hn.
Qed.

(** Beyond [2^53] the test never fails. *)
Lemma loop_diverges duration : (0x1p53 <? duration) = true ->
  forall fuel k s, (Z.of_nat k <= 2 ^ 53)%Z ->
  loop Math_sin Math_random o duration (JS.of_nat k) fuel s = None.
Proof.
  intros Hd. destruct (ltb_true_notnan _ _ Hd) as [_ Nd].
  assert (Hv : (2 ^ 53 * 2 ^ B < FV duration)%Z).
  { rewrite (ltb_spec_FV 0x1p53 duration eq_refl Nd) in Hd. apply Z.ltb_lt in Hd.
    assert (E : FV 0x1p53 = (2 ^ 53 * 2 ^ B)%Z) by (vm_compute; reflexivity).
    rewrite E in Hd. exact Hd. }
  induction fuel as [|fuel IH]; intros k s Hk; [reflexivity|].
  cbn [loop].
  assert (G : (JS.of_nat k <? duration) = true).
  { rewrite of_nat_ltb by assumption. apply Z.ltb_lt. pose proof pow2B_pos. nia. }
  rewrite G.
  destruct (Z.eq_dec (Z.of_nat k) (2 ^ 53)) as [E|NE].
  - rewrite (of_nat_stuck k E). apply IH. exact Hk.
  - rewrite of_nat_succ by lia. apply IH. lia.
Qed.

End Loop.

(** The result of a run that leaves the loop at the counter [n]. *)
Lemma simulatePrices_exits Math_sin Math_random duration options n fuel :
  (Z.of_nat n <= 2 ^ 53)%Z -> (n < fuel)%nat ->
  (JS.of_nat n <? duration) = false ->
  (n = 0%nat \/ (JS.of_nat (n - 1) <? duration) = true) ->
  simulatePrices Math_sin Math_random duration options fuel
  = Some (prices (before Math_sin Math_random (destructure options) n)).
Proof.
  intros Hn Hf Hout Hin. unfold simulatePrices, before. rewrite <- of_nat_0.
  rewrite (loop_exits Math_sin Math_random (destructure options) duration n 0); trivial.
  intros j Hj. destruct Hin as [->|Hin]; [lia|].
  apply (guard_below j (n - 1)); [lia|lia|exact Hin].
Qed.

(** X1.  [simulatePrices] on any number [duration].  When the loop test
    [t < duration] fails at a counter [n <= 2^53] and holds just before
    it, that is, when [n - 1 < duration <= n], the call returns exactly
    [n] points, in both modes and for every option, and the point at
    index [k] carries the timestamp [k]: an integer duration gives that
    many points, and 2.5 gives 3.  It returns no point when [duration] is
    NaN, zero or negative.  It never returns when [duration] exceeds
    [2^53], where [t++] no longer changes [t]. *)
Theorem simulatePrices_length Math_sin Math_random (duration : float)
    (options : option OptionsArg) :
  (forall n fuel, (Z.of_nat n <= 2 ^ 53)%Z -> (n < fuel)%nat ->
     (JS.of_nat n <? duration) = false ->
     (n = 0%nat \/ (JS.of_nat (n - 1) <? duration) = true) ->
     exists result,
       simulatePrices Math_sin Math_random duration options fuel = Some result /\
       length result = n /\ map t result = map JS.of_nat (seq 0 n)) /\
  ((0 <? duration) = false ->
   forall fuel, simulatePrices Math_sin Math_random duration options (S fuel) = Some []) /\
  ((0x1p53 <? duration) = true ->
   forall fuel, simulatePrices Math_sin Math_random duration options fuel = None).
Proof.
  split; [|split].
  - intros n fuel Hn Hf Hout Hin.
    rewrite (simulatePrices_exits _ _ _ _ n fuel Hn Hf Hout Hin).
    destruct (numeric_before_inv Math_sin Math_random (destructure options) n Hn)
      as (Hl & _ & Ht & _).
    eexists. split; [reflexivity|]. split; [exact Hl|exact Ht].
  - intros H0 fuel. unfold simulatePrices. cbn [loop]. rewrite H0. reflexivity.
  - intros Hd fuel. unfold simulatePrices. rewrite <- of_nat_0.
    rewrite loop_diverges; [reflexivity|exact Hd|cbn; lia].
Qed.

Lemma simulatePrices_length_witness :
  exists result,
    simulatePrices (fun x => x) (fun _ => 0.5) 2.5 None 4 = Some result /\
    length result = 3%nat /\ map t result = [0; 1; 2].
Proof.
  refine (proj1 (simulatePrices_length (fun x => x) (fun _ => 0.5) 2.5 None) 3%nat 4%nat
            _ _ _ _).
  - vm_compute. discriminate.
  - lia.
  - reflexivity.
  - right. reflexivity.
Defined.

(** X2.  The oracle price of tick [k] on any number [oracleLag].  When
    the lag is a whole number of ticks [L], it is the reference price of
    tick [max(0, k - L)] plus the noise term
    [(Math.random() - 0.5) * oracleNoise]; counting the calls of
    [Math.random] from 0, the draw is call [k] in sinusoid mode and call
    [2k + 1] in random-walk mode.  When [max(0, k - oracleLag)] is none of
    the indices [0 .. k], as for a lag of 0.5 from tick 1 on, the
    reference price read is [undefined] and the oracle price is NaN. *)
Theorem oracle_lags_reference Math_sin Math_random (duration : float)
    (options : option OptionsArg) (n fuel k : nat) :
  let o := destructure options in
  (Z.of_nat n <= 2 ^ 53)%Z -> (n < fuel)%nat ->
  (JS.of_nat n <? duration) = false -> (JS.of_nat (n - 1) <? duration) = true ->
  (k < n)%nat ->
  exists result point,
    simulatePrices Math_sin Math_random duration options fuel = Some result /\
    nth_error result k = Some point /\
    (forall L, oracleLag o = JS.of_nat L -> (Z.of_nat L <= 2 ^ 53)%Z ->
       exists base,
         nth_error result (k - L) = Some base /\
         oracle point
         = ref base
           + (Math_random (if useRandomWalk o then (2 * k + 1)%nat else k) - 0.5)
             * oracleNoise o) /\
    ((forall j, (j <= k)%nat ->
        (JS.of_nat j =? JS.Math_max 0 (JS.of_nat k - oracleLag o)) = false) ->
     is_nan (oracle point) = true).
Proof.
  intros o Hn Hf Hout Hin Hk.
  rewrite (simulatePrices_exits _ _ _ _ n fuel Hn Hf Hout (or_intror Hin)). fold o.
  destruct (numeric_point_at Math_sin Math_random o n k Hk Hn) as (point & Hp & _ & _ & Ho).
  destruct (numeric_before_inv Math_sin Math_random o (S k) ltac:(lia)) as (Hl & Hr & _).
  assert (Hlen : length (refPrices (before Math_sin Math_random o (S k))) = S k)
    by (rewrite <- Hr, length_map; exact Hl).
  exists (prices (before Math_sin Math_random o n)), point.
  split; [reflexivity|]. split; [exact Hp|]. split.
  - intros L HL HLb.
    destruct (numeric_refPrices_nth Math_sin Math_random o n (S k) (k - L)
                ltac:(lia) Hn ltac:(lia)) as (base & Hb & Hrb).
    exists base. split; [exact Hb|]. rewrite Ho, numeric_draw_index by lia. rewrite HL.
    destruct (max_sub_exact k L ltac:(lia) HLb) as [N E].
    rewrite (at_index_integer _ _ (k - L)%nat) by (trivial; rewrite Hlen; lia).
    rewrite Hrb. reflexivity.
  - intros Hnone. rewrite Ho, at_index_none.
    + apply SimulatorLoop.nan_add_l. reflexivity.
    + intros j Hj. apply Hnone. rewrite Hlen in Hj. lia.
Qed.

Lemma oracle_lags_reference_witness :
  let whole := Some {| arg_basePrice := None; arg_useRandomWalk := Some true;
                       arg_volatility := None; arg_oracleLag := Some 2;
                       arg_oracleNoise := None; arg_drift := None |} in
  let half := Some {| arg_basePrice := None; arg_useRandomWalk := None;
                      arg_volatility := None; arg_oracleLag := Some 0.5;
                      arg_oracleNoise := None; arg_drift := None |} in
  let Math_random := fun n : nat => if Nat.even n then 0.75 else 0.25 in
  (exists result point base,
     simulatePrices (fun x => x) Math_random 4.5 whole 6 = Some result /\
     nth_error result 3 = Some point /\ nth_error result 1 = Some base /\
     oracle point = ref base + (0.25 - 0.5) * 0.5) /\
  (exists result point,
     simulatePrices (fun x => x) Math_random 4.5 half 6 = Some result /\
     nth_error result 1 = Some point /\ is_nan (oracle point) = true).
Proof.
  intros whole half Math_random.
  assert (H53 : (Z.of_nat 5 <= 2 ^ 53)%Z) by (vm_compute; discriminate).
  split.
  - destruct (oracle_lags_reference (fun x => x) Math_random 4.5 whole 5 6 3
                H53 ltac:(lia) eq_refl eq_refl ltac:(lia))
      as (result & point & Hr & Hp & Hwhole & _).
    destruct (Hwhole 2%nat eq_refl ltac:(vm_compute; discriminate)) as (base & Hb & Ho).
    exists result, point, base. repeat split; assumption.
  - destruct (oracle_lags_reference (fun x => x) Math_random 4.5 half 5 6 1
                H53 ltac:(lia) eq_refl eq_refl ltac:(lia))
      as (result & point & Hr & Hp & _ & Hhalf).
    exists result, point. repeat split; try assumption.
    apply Hhalf. intros [|[|j]] Hj; [reflexivity|reflexivity|lia].
Defined.

End NumericSimulatorProps.
